(** * Aura Effects: the aura evaluation and synchronisation engine

    A shallow embedding of [scripts/helpers.mjs] and [scripts/auras.mjs]
    together with the properties stated about them.

    Conventions of the embedding.
    - JavaScript numbers are modelled as exact rationals ([Q]); the value
      [Infinity] is added where the code produces it ([Num]).
    - Documents are records.  An actor is identified by its uuid and a token
      by its id; [token.actor] is a lookup in the world, so that every read
      sees the current state of the shared actor object.
    - What the host (Foundry VTT) provides (grid measurement, collision
      tests, the quadtree, the script compiler, the dice roller) is gathered
      in the record [Host].
    - Item-borne effects are folded into the actor's effect collection:
      [allApplicableEffects] yields [effects], and [appliedEffects] keeps the
      active ones among them.
    - A string is the sequence of bytes of its UTF-8 encoding.
    - A uuid is a document identifier of the host ([Actor.x],
      [Actor.x.ActiveEffect.y]): it holds a dot, so it is neither an array
      index nor a name that objects inherit, and an object keyed by uuids is
      the list of its entries in insertion order.  Objects keyed by effect
      names, which users choose, are modelled with what [Object.prototype]
      and [Object.keys] do to such keys.
    - The value a conditional script returns is kept as far as the engine
      looks at it: whether it is a boolean, and its truthiness.
    - A handler is a computation over the world, the module-level flag
      [seenWarning] and the trace of what it surfaced and sent. *)

From Stdlib Require Import List String Ascii Bool ZArith QArith Qminmax Qabs Qround Lia Lqa.
From Stdlib Require Import Permutation Sorted.
Import ListNotations.

Local Open Scope string_scope.
Local Open Scope list_scope.

(* ================================================================== *)
(** ** Numbers *)

Module Num.

(** A JavaScript number that is either finite or [Infinity]. *)
Inductive t : Type :=
| Fin (q : Q)
| Infinity.

(** [a < b] *)
Definition ltb (a b : t) : bool :=
  match a, b with
  | Fin x, Fin y => negb (Qle_bool y x)
  | Fin _, Infinity => true
  | Infinity, _ => false
  end.

(** [a <= b] *)
Definition leb (a b : t) : bool :=
  match a, b with
  | Fin x, Fin y => Qle_bool x y
  | _, Infinity => true
  | Infinity, Fin _ => false
  end.

(** [a - q] for a finite [q]; [Infinity - q] is [Infinity]. *)
Definition sub (a : t) (q : Q) : t :=
  match a with
  | Fin x => Fin (x - q)
  | Infinity => Infinity
  end.

(** The smaller of two numbers; the first one wins a tie. *)
Definition min2 (a b : t) : t := if leb a b then a else b.

(** [Math.min(...l)]; [Math.min()] is [Infinity]. *)
Definition min (l : list t) : t := fold_right min2 Infinity l.

(** Numeric equality of two numbers. *)
Definition equiv (a b : t) : Prop :=
  match a, b with
  | Fin x, Fin y => x == y
  | Infinity, Infinity => True
  | _, _ => False
  end.

End Num.

(** [!x] for a number: only zero is falsy. *)
Definition falsy (q : Q) : bool := Qeq_bool q 0.

(* ================================================================== *)
(** ** Data model *)

(** The [system] data of an aura source effect (AuraActiveEffectData). *)
Record AuraSystem : Type := mkAuraSystem {
  distance : Q;
  sys_disposition : Z;
  collisionTypes : list string;
  script : option string;
  applyToSelf : bool;
  overrideName : string;
  bestFormula : option string;
  disableOnHidden : bool
}.

Definition aura_type : string := "auraeffects.aura".

(** An active effect, source or applied.  [fromAura] is the flag
    [flags.auraeffects.fromAura]; [parent] is the uuid of the owning actor. *)
Record Effect : Type := mkEffect {
  uuid : string;
  name : string;
  type : string;
  origin : option string;
  fromAura : bool;
  disabled : bool;
  isSuppressed : bool;
  parent : string;
  system : AuraSystem
}.

Definition RollData : Type := list (string * Q).

Record Actor : Type := mkActor {
  actor_uuid : string;
  actor_name : string;
  effects : list Effect;
  rollData : RollData
}.

Record Position : Type := mkPosition {
  pos_x : Q;
  pos_y : Q;
  pos_elevation : Q
}.

(** [token.movement]: [pending] is [movement.pending?.distance]. *)
Record Movement : Type := mkMovement {
  state : string;
  pending : option Q;
  destination : Position
}.

Record Token : Type := mkToken {
  token_id : string;
  actorId : option string;
  x : Q;
  y : Q;
  elevation : Q;
  width : Q;
  disposition : Z;
  hidden : bool;
  movement : Movement
}.

(** A point of the plane, or a grid offset. *)
Definition Coord : Type := (Q * Q)%type.

Record ElevatedPoint : Type := mkPoint {
  pt : Coord;
  pt_elevation : Q
}.

Record Rect : Type := mkRect {
  rect_x : Q;
  rect_y : Q;
  rect_w : Q;
  rect_h : Q
}.

(** What one client sees: the actors, the tokens of the viewed scene,
    the current user, and the active GM if there is one. *)
Record World : Type := mkWorld {
  actors : list Actor;
  tokens : list Token;
  currentUser : string;
  activeGM : option string;
  canvasScene : bool
}.

(* ------------------------------------------------------------------ *)
(** *** Results of JavaScript calls *)

Inductive JsError : Type :=
| TypeError (what : string)
| SyntaxError (what : string)
| ScriptFailure (what : string).

(** A call either returns or throws. *)
Inductive Outcome (A : Type) : Type :=
| Returned (a : A)
| Threw (e : JsError).
Arguments Returned {A} a.
Arguments Threw {A} e.

(** The scope a conditional script runs in. *)
Record ScriptScope : Type := mkScope {
  scope_actor : Actor;
  scope_token : Token;
  scope_sourceToken : Token;
  scope_rollData : RollData
}.

(** A value returned by a conditional script: a boolean, or any other
    value, of which the engine only tests the truthiness. *)
Inductive JsValue : Type :=
| JsBool (b : bool)
| JsOther (truthiness : bool).

(** The value in a condition, or under [!]. *)
Definition truthy (v : JsValue) : bool :=
  match v with
  | JsBool b => b
  | JsOther t => t
  end.

(** What [Function(...params, body)] gives: a syntax error, or a function.
    The body is [return Boolean(<script>);] with the script's text spliced
    in, so the function may return something else than a boolean. *)
Inductive Compiled : Type :=
| CompileError (e : JsError)
| Code (run : ScriptScope -> Outcome JsValue).

(** A line written to the console by [executeScript]. *)
Record ConsoleEntry : Type := mkConsole {
  log_key : string;
  log_actor : string;
  log_effect : string;
  log_error : JsError
}.

(* ------------------------------------------------------------------ *)
(** *** The host *)

Record Host : Type := mkHost {
  (* scene.grid *)
  isGridless : bool;
  grid_distance : Q;
  grid_size : Q;
  grid_getCenterPoint : Coord -> Coord;
  measurePath : ElevatedPoint -> ElevatedPoint -> Q;
  (* TokenDocument and its placeable *)
  getCenterPoint : Token -> option Position -> Coord;
  getOccupiedGridSpaceOffsets : Token -> option Position -> list Coord;
  externalRadius : Token -> Q;
  object_center : Token -> Coord;
  (* CONFIG.Canvas.polygonBackends[type]?.testCollision(a, b, {mode: "any"}),
     for the names of collision types: a registered backend, or none *)
  polygonBackends : string -> option (ElevatedPoint -> ElevatedPoint -> bool);
  (* sourceToken.layer.quadtree.getObjects(rect), as token documents *)
  quadtree_getObjects : list Token -> Rect -> list Token;
  (* Function(params..., body) *)
  js_Function : list string -> string -> Compiled;
  (* new Roll(formula, data).evaluateSync().total *)
  rollTotal : string -> RollData -> Q;
  (* array.sort(comparefn) of the script engine, on an array of tokens *)
  array_sort : (Token -> Token -> Q) -> list Token -> list Token
}.

(* ================================================================== *)
(** ** Small helpers for the JavaScript idioms used by the code *)

Definition opt_eqb (a : option string) (b : string) : bool :=
  match a with
  | Some s => String.eqb s b
  | None => false
  end.

(** [array.includes(s)] on strings. *)
Definition includes (l : list string) (s : string) : bool :=
  existsb (String.eqb s) l.

(** [new Set(array)] on identifiers: first occurrences, in order. *)
Fixpoint to_set (l : list string) : list string :=
  match l with
  | [] => []
  | a :: l' => a :: filter (fun b => negb (String.eqb b a)) (to_set l')
  end.

(** [a.difference(b)] *)
Definition difference (a b : list string) : list string :=
  filter (fun s => negb (includes b s)) a.

(** The white space and the line terminators of ECMAScript, which [trim]
    strips, in UTF-8.  One byte: tab to carriage return, and the space. *)
Definition is_space (c : ascii) : bool :=
  let n := nat_of_ascii c in
  ((9 <=? n) && (n <=? 13) || (n =? 32))%nat.

(** Two bytes: U+00A0. *)
Definition is_space2 (c1 c2 : ascii) : bool :=
  ((nat_of_ascii c1 =? 194) && (nat_of_ascii c2 =? 160))%nat.

(** Three bytes: U+1680, U+2000 to U+200A, U+2028, U+2029, U+202F, U+205F,
    U+3000 and U+FEFF. *)
Definition is_space3 (c1 c2 c3 : ascii) : bool :=
  let n1 := nat_of_ascii c1 in
  let n2 := nat_of_ascii c2 in
  let n3 := nat_of_ascii c3 in
  ((n1 =? 225) && (n2 =? 154) && (n3 =? 128)
   || (n1 =? 226) && (n2 =? 128)
      && ((128 <=? n3) && (n3 <=? 138) || (n3 =? 168) || (n3 =? 169)
          || (n3 =? 175))
   || (n1 =? 226) && (n2 =? 129) && (n3 =? 159)
   || (n1 =? 227) && (n2 =? 128) && (n3 =? 128)
   || (n1 =? 239) && (n2 =? 187) && (n3 =? 191))%nat.

Fixpoint trim_start (s : string) : string :=
  match s with
  | EmptyString => EmptyString
  | String c1 s1 =>
      if is_space c1 then trim_start s1
      else
        match s1 with
        | EmptyString => s
        | String c2 s2 =>
            if is_space2 c1 c2 then trim_start s2
            else
              match s2 with
              | EmptyString => s
              | String c3 s3 =>
                  if is_space3 c1 c2 c3 then trim_start s3 else s
              end
        end
  end.

(** [trim_start] on a string read backwards. *)
Fixpoint trim_start_rev (s : string) : string :=
  match s with
  | EmptyString => EmptyString
  | String c1 s1 =>
      if is_space c1 then trim_start_rev s1
      else
        match s1 with
        | EmptyString => s
        | String c2 s2 =>
            if is_space2 c2 c1 then trim_start_rev s2
            else
              match s2 with
              | EmptyString => s
              | String c3 s3 =>
                  if is_space3 c3 c2 c1 then trim_start_rev s3 else s
              end
        end
  end.

Fixpoint rev_string (s acc : string) : string :=
  match s with
  | EmptyString => acc
  | String c s' => rev_string s' (String c acc)
  end.

(** [s.trim()] *)
Definition trim (s : string) : string :=
  rev_string (trim_start_rev (rev_string (trim_start s) "")) "".

(** [!s] for a string: only the empty string is falsy. *)
Definition is_empty (s : string) : bool :=
  match s with
  | EmptyString => true
  | _ => false
  end.

(** [actor.effects.find(e => e.origin === uuid)] *)
Definition find_origin (u : string) (l : list Effect) : option Effect :=
  find (fun e => opt_eqb (origin e) u) l.

(** [token.actor] *)
Definition lookup_actor (w : World) (id : string) : option Actor :=
  find (fun a => String.eqb (actor_uuid a) id) (actors w).

Definition token_actor (w : World) (t : Token) : option Actor :=
  match actorId t with
  | Some id => lookup_actor w id
  | None => None
  end.

(** Identity of two token documents. *)
Definition same_token (a b : Token) : bool :=
  String.eqb (token_id a) (token_id b).

(** Identity of two actors given as [token.actor] values. *)
Definition same_actor (a b : option Actor) : bool :=
  match a, b with
  | Some p, Some q => String.eqb (actor_uuid p) (actor_uuid q)
  | None, None => true
  | _, _ => false
  end.

(** [effect.active] *)
Definition active (e : Effect) : bool :=
  negb (disabled e) && negb (isSuppressed e).

(** [actor.allApplicableEffects()] *)
Definition allApplicableEffects (a : Actor) : list Effect := effects a.

(** [actor.appliedEffects] *)
Definition appliedEffects (a : Actor) : list Effect :=
  filter active (allApplicableEffects a).

(** [actor.getActiveTokens(false, true)]: the actor's tokens on the scene. *)
Definition getActiveTokens (w : World) (actor : string) : list Token :=
  filter (fun t => opt_eqb (actorId t) actor) (tokens w).

(** [fromUuidSync(uuid)] for an effect. *)
Definition fromUuidSync (w : World) (u : string) : option Effect :=
  find (fun e => String.eqb (uuid e) u) (flat_map effects (actors w)).

(* ------------------------------------------------------------------ *)
(** *** Objects used as maps *)

(** A JavaScript object with string keys: its own properties in the order
    they were created. *)
Definition JsObject (V : Type) : Type := list (string * V).

Definition digitValue (c : ascii) : option N :=
  let n := N_of_ascii c in
  if ((48 <=? n) && (n <=? 57))%N then Some (n - 48)%N else None.

Fixpoint decimal (s : string) (acc : N) : option N :=
  match s with
  | EmptyString => Some acc
  | String c s' =>
      match digitValue c with
      | Some d => decimal s' (10 * acc + d)%N
      | None => None
      end
  end.

(** The array index a property key stands for: a canonical decimal numeral
    below [2^32 - 1]. *)
Definition arrayIndex (key : string) : option N :=
  match key with
  | EmptyString => None
  | String c rest =>
      if (N_of_ascii c =? 48)%N && negb (is_empty rest) then None
      else
        match decimal key 0 with
        | Some n => if (n <? 4294967295)%N then Some n else None
        | None => None
        end
  end.

Definition isArrayIndex (key : string) : bool :=
  match arrayIndex key with
  | Some _ => true
  | None => false
  end.

Definition indexOf (key : string) : N :=
  match arrayIndex key with
  | Some n => n
  | None => 0
  end.

Section Objects.

Context {V : Type}.

(** [obj[key]] *)
Definition obj_get (key : string) (obj : JsObject V) : option V :=
  option_map snd (find (fun p => String.eqb (fst p) key) obj).

(** [obj[key] = v]: an existing property keeps its place. *)
Fixpoint obj_set (obj : JsObject V) (key : string) (v : V) : JsObject V :=
  match obj with
  | [] => [(key, v)]
  | (k, old) :: obj' =>
      if String.eqb k key then (k, v) :: obj'
      else (k, old) :: obj_set obj' key v
  end.

Fixpoint insertByIndex (p : string * V) (sorted : list (string * V))
  : list (string * V) :=
  match sorted with
  | [] => [p]
  | q :: rest =>
      if (indexOf (fst p) <=? indexOf (fst q))%N then p :: q :: rest
      else q :: insertByIndex p rest
  end.

(** [Object.entries(obj)]: the array-index keys in ascending order, then
    the other keys in creation order. *)
Definition entries (obj : JsObject V) : list (string * V) :=
  fold_right insertByIndex [] (filter (fun p => isArrayIndex (fst p)) obj)
  ++ filter (fun p => negb (isArrayIndex (fst p))) obj.

(** [Object.keys(obj)] *)
Definition keys (obj : JsObject V) : list string := map fst (entries obj).

(** [Object.fromEntries(list)] *)
Definition fromEntries (l : list (string * V)) : JsObject V :=
  fold_left (fun obj p => obj_set obj (fst p) (snd p)) l [].

End Objects.

(** The names every object inherits from [Object.prototype]. *)
Definition objectPrototypeNames : list string :=
  ["constructor"; "__defineGetter__"; "__defineSetter__"; "hasOwnProperty";
   "__lookupGetter__"; "__lookupSetter__"; "isPrototypeOf";
   "propertyIsEnumerable"; "toString"; "valueOf"; "__proto__";
   "toLocaleString"].

(** [key in {}]: the object literal has the property without owning it. *)
Definition inherited (key : string) : bool :=
  includes objectPrototypeNames key.

(* ================================================================== *)
(** ** Geometry module (helpers.mjs) *)

Section Geometry.

Variable H : Host.

(** [getDistance(scene, a, b, { collisionTypes })], for collision types
    that are registered or that [polygonBackends] lacks altogether; at a
    name the object inherits ([toString], [constructor], ...) the call of
    [testCollision] throws. *)
Fixpoint getDistance (a b : ElevatedPoint) (collisionTypes : list string)
  : Num.t :=
  match collisionTypes with
  | [] => Num.Fin (measurePath H a b)
  | collisionType :: rest =>
      match polygonBackends H collisionType with
      | Some testCollision =>
          if testCollision a b then Num.Infinity
          else getDistance a b rest
      | None => getDistance a b rest
      end
  end.

Definition tokenOffsets (t : Token) (origin : option Position) : list Coord :=
  if isGridless H then [getCenterPoint H t origin]
  else getOccupiedGridSpaceOffsets H t origin.

(** [origin.elevation ?? tokenA.elevation ?? 0] *)
Definition tokenAElevation (tokenA : Token) (origin : option Position) : Q :=
  match origin with
  | Some o => pos_elevation o
  | None => elevation tokenA
  end.

(** The [distances] array: one entry per pair of offsets, A-major. *)
Definition pairDistances (tokenA tokenB : Token) (origin : option Position)
           (collisionTypes : list string) : list Num.t :=
  flat_map (fun offsetA =>
    map (fun offsetB =>
      let pointA := mkPoint (grid_getCenterPoint H offsetA)
                            (tokenAElevation tokenA origin) in
      let pointB := mkPoint (grid_getCenterPoint H offsetB)
                            (elevation tokenB) in
      getDistance pointA pointB collisionTypes)
      (tokenOffsets tokenB None))
    (tokenOffsets tokenA origin).

Definition externalAdjust (tokenA : Token) : Q :=
  (grid_distance H / grid_size H) *
  (if isGridless H then externalRadius H tokenA else 0).

(** [getTokenToTokenDistance(tokenA, tokenB, { origin, collisionTypes })] *)
Definition getTokenToTokenDistance (tokenA tokenB : Token)
           (origin : option Position) (collisionTypes : list string) : Num.t :=
  Num.sub (Num.min (pairDistances tokenA tokenB origin collisionTypes))
          (externalAdjust tokenA).

(** [getGenerallyWithin(sourceToken, radius)] *)
Definition getGenerallyWithin (w : World) (sourceToken : Token) (radius : Q)
  : list Token :=
  let adjustedRadius :=
    grid_size H * ((radius / grid_distance H) + width sourceToken / 2) in
  let center := object_center H sourceToken in
  let rect := mkRect (fst center - adjustedRadius) (snd center - adjustedRadius)
                     (2 * adjustedRadius) (2 * adjustedRadius) in
  quadtree_getObjects H (tokens w) rect.

(** [getNearbyTokens(source, radius, { origin, disposition, collisionTypes })] *)
Definition getNearbyTokens (w : World) (source : Token) (radius : Q)
           (origin : option Position) (disposition_ : Z)
           (collisionTypes : list string) : list Token :=
  let putativeTokens :=
    filter (fun t =>
      match token_actor w t with
      | None => false
      | Some _ =>
          if (disposition_ <? 0)%Z
          then (disposition source * disposition t =? -1)%Z
          else if (disposition_ >? 0)%Z
          then (disposition source =? disposition t)%Z
          else true
      end) (getGenerallyWithin w source radius) in
  filter (fun token =>
    Num.leb (getTokenToTokenDistance source token origin collisionTypes)
            (Num.Fin radius)) putativeTokens.

(** [isFinalMovementComplete(token)] *)
Definition isFinalMovementComplete (token : Token) : bool :=
  String.eqb (state (movement token)) "stopped"
  || (match pending (movement token) with
      | Some d => falsy d
      | None => true
      end
      && Qeq_bool (pos_x (destination (movement token))) (x token)
      && Qeq_bool (pos_y (destination (movement token))) (y token)
      && Qeq_bool (pos_elevation (destination (movement token)))
                  (elevation token)).

End Geometry.

(** [obstructed H a b types]: some listed collision type has a backend
    whose ray test reports an obstruction between [a] and [b]. *)
Definition obstructed (H : Host) (a b : ElevatedPoint) (types : list string) : Prop :=
  exists ty test,
    In ty types /\ polygonBackends H ty = Some test /\ test a b = true.

(* ================================================================== *)
(** ** Computations that may throw *)

Definition obind {A B} (m : Outcome A) (f : A -> Outcome B) : Outcome B :=
  match m with
  | Returned a => f a
  | Threw e => Threw e
  end.

(** [array.filter(p)] for a callback that may throw. *)
Fixpoint ofilter {A} (p : A -> Outcome bool) (l : list A) : Outcome (list A) :=
  match l with
  | [] => Returned []
  | a :: l' =>
      obind (p a) (fun keep =>
      obind (ofilter p l') (fun rest =>
      Returned (if keep then a :: rest else rest)))
  end.

(** A [for ... of] loop threading an accumulator, with a body that may throw. *)
Fixpoint ofold {A S} (body : S -> A -> Outcome S) (l : list A) (s : S)
  : Outcome S :=
  match l with
  | [] => Returned s
  | a :: l' => obind (body s a) (ofold body l')
  end.

(* ================================================================== *)
(** ** Predicate evaluator and aura registry (helpers.mjs) *)

Definition script_params : list string :=
  ["actor"; "token"; "sourceToken"; "rollData"].

Definition script_error_key : string := "AURAEFFECTS.Errors.ScriptError".

Section Predicate.

Variable H : Host.

(** [executeScript(sourceToken, token, effect)]: what the call returns or
    throws, and what it writes to the console. *)
Definition executeScript (w : World) (sourceToken token : Token)
           (effect : Effect) : Outcome JsValue * list ConsoleEntry :=
  match token_actor w token with
  | None => (Threw (TypeError "actor.getRollData"), [])
  | Some actor =>
      let rollData_ := rollData actor in
      let script_ := match script (system effect) with
                     | Some s => s
                     | None => ""
                     end in
      if (String.length (trim script_) =? 0)%nat
      then (Returned (JsBool true), [])
      else
        match js_Function H script_params
                          ("return Boolean(" ++ script_ ++ ");") with
        | CompileError e => (Threw e, [])
        | Code toEvaluate =>
            match toEvaluate (mkScope actor token sourceToken rollData_) with
            | Returned v => (Returned v, [])
            | Threw error =>
                match token_actor w sourceToken with
                | None => (Threw (TypeError "sourceToken.actor.name"), [])
                | Some sourceActor =>
                    (Returned (JsBool true),
                     [mkConsole script_error_key (actor_name sourceActor)
                                (name effect) error])
                end
            end
        end
  end.

(** The result of [executeScript] as its callers use it: in a [filter]
    callback, after [&&] or under [!], that is, as a condition. *)
Definition runScript (w : World) (sourceToken token : Token)
           (effect : Effect) : Outcome bool :=
  match fst (executeScript w sourceToken token effect) with
  | Returned v => Returned (truthy v)
  | Threw e => Threw e
  end.

End Predicate.

(** The script of [effect] is blank, or the host compiles it. *)
Definition compiles (H : Host) (effect : Effect) : Prop :=
  let script_ := match script (system effect) with
                 | Some s => s
                 | None => ""
                 end in
  String.length (trim script_) = 0%nat
  \/ exists f, js_Function H script_params ("return Boolean(" ++ script_ ++ ");")
               = Code f.

Definition is_aura (e : Effect) : bool := String.eqb (type e) aura_type.

(** The loop of [getAllAuraEffects] over the applicable effects. *)
Fixpoint partitionAuras (l : list Effect) : list Effect * list Effect :=
  match l with
  | [] => ([], [])
  | effect :: rest =>
      let (activeAuras, inactiveAuras) := partitionAuras rest in
      if negb (is_aura effect) then (activeAuras, inactiveAuras)
      else if negb (disabled effect) && negb (isSuppressed effect)
      then (effect :: activeAuras, inactiveAuras)
      else (activeAuras, effect :: inactiveAuras)
  end.

(** [getAllAuraEffects(actor)]: the active auras, then the inactive ones.
    For a missing actor the code writes a console warning and both lists
    are empty. *)
Definition getAllAuraEffects (actor : option Actor) : list Effect * list Effect :=
  match actor with
  | None => ([], [])
  | Some a => partitionAuras (allApplicableEffects a)
  end.

(** [e.system.overrideName.trim() || e.name] *)
Definition resolvedName (e : Effect) : string :=
  let o := trim (overrideName (system e)) in
  if is_empty o then name e else o.

(* ================================================================== *)
(** ** Scene delta calculator (helpers.mjs) *)

Section Delta.

Variable H : Host.

(** The [for] loop of [getChangingSceneAuras] over one source token's
    matching auras. *)
Definition deltaEffectStep (w : World) (token sourceToken : Token)
           (currentAppliedAuras : list Effect)
           (acc : list Effect * list Effect) (currEffect : Effect)
  : Outcome (list Effect * list Effect) :=
  let (toRemove, toAdd) := acc in
  let distance_ :=
    getTokenToTokenDistance H sourceToken token None
                            (collisionTypes (system currEffect)) in
  let currentlyApplied := find_origin (uuid currEffect) currentAppliedAuras in
  obind (if Num.ltb (Num.Fin (distance (system currEffect))) distance_
         then Returned true
         else obind (runScript H w sourceToken token currEffect)
                    (fun ok => Returned (negb ok)))
        (fun out =>
           if out : bool then
             match currentlyApplied with
             | Some applied => Returned (toRemove ++ [applied], toAdd)
             | None => Returned (toRemove, toAdd)
             end
           else Returned (toRemove, toAdd ++ [currEffect])).

(** The callback of [token.parent.tokens.reduce]. *)
Definition deltaTokenStep (w : World) (token : Token)
           (currentAppliedAuras : list Effect)
           (acc : list Effect * list Effect) (sourceToken : Token)
  : Outcome (list Effect * list Effect) :=
  let (toRemove, toAdd) := acc in
  if same_actor (token_actor w sourceToken) (token_actor w token)
  then Returned (toRemove, toAdd)
  else
    let disposition_ := (disposition token * disposition sourceToken)%Z in
    let (activeAuraEffects, inactiveAuraEffects) :=
      getAllAuraEffects (token_actor w sourceToken) in
    let currentlyAppliedToRemove :=
      filter (fun appliedEffect =>
                existsb (fun inactiveEffect =>
                           opt_eqb (origin appliedEffect) (uuid inactiveEffect))
                        inactiveAuraEffects)
             currentAppliedAuras in
    let toRemove :=
      match inactiveAuraEffects with
      | [] => toRemove
      | _ => toRemove ++ currentlyAppliedToRemove
      end in
    let auraEffects :=
      filter (fun e => (sys_disposition (system e) =? 0)%Z
                       || (sys_disposition (system e) =? disposition_)%Z)
             activeAuraEffects in
    match auraEffects with
    | [] => Returned (toRemove, toAdd)
    | _ => ofold (deltaEffectStep w token sourceToken currentAppliedAuras)
                 auraEffects (toRemove, toAdd)
    end.

(** The closing loop: applied effects whose origin is gone or inactive. *)
Definition staleApplied (w : World) (applied : list Effect) : list Effect :=
  filter (fun effect =>
    fromAura effect &&
    match match origin effect with
          | Some o => fromUuidSync w o
          | None => None
          end with
    | None => true
    | Some sourceEffect => disabled sourceEffect || isSuppressed sourceEffect
    end) applied.

(** [getChangingSceneAuras(token)]: effects to remove, then to add. *)
Definition getChangingSceneAuras (w : World) (token : Token)
  : Outcome (list Effect * list Effect) :=
  match token_actor w token with
  | None => Threw (TypeError "token.actor.appliedEffects")
  | Some actor =>
      let currentAppliedAuras := filter fromAura (appliedEffects actor) in
      obind (ofold (deltaTokenStep w token currentAppliedAuras)
                   (tokens w) ([], []))
            (fun '(sceneAurasToRemove, sceneAurasToAdd) =>
               Returned (sceneAurasToRemove
                           ++ staleApplied w (appliedEffects actor),
                         sceneAurasToAdd))
  end.

End Delta.

(* ================================================================== *)
(** ** The mutation authority and the handler monad *)

(** The argument of the "apply aura effects" query: target-actor uuid to
    the uuids of the source effects to put on it, in insertion order. *)
Definition ApplyMap : Type := list (string * list string).

(** [obj[key] = (obj[key] ?? []).concat(v)] *)
Fixpoint map_concat (m : ApplyMap) (key v : string) : ApplyMap :=
  match m with
  | [] => [(key, [v])]
  | (k, vs) :: m' =>
      if String.eqb k key then (k, vs ++ [v]) :: m'
      else (k, vs) :: map_concat m' key v
  end.

(** [obj[key] = vs], as [Object.fromEntries] does for each entry. *)
Fixpoint map_set (m : ApplyMap) (key : string) (vs : list string) : ApplyMap :=
  match m with
  | [] => [(key, vs)]
  | (k, old) :: m' =>
      if String.eqb k key then (k, vs) :: m'
      else (k, old) :: map_set m' key vs
  end.

(** [acc[key] ??= []; acc[key].push(...ts)] *)
Fixpoint map_push {A} (m : list (string * list A)) (key : string) (ts : list A)
  : list (string * list A) :=
  match m with
  | [] => [(key, ts)]
  | (k, old) :: m' =>
      if String.eqb k key then (k, old ++ ts) :: m'
      else (k, old) :: map_push m' key ts
  end.

(** [foundry.utils.isEmpty(obj)] *)
Definition isEmpty {A} (m : list A) : bool :=
  match m with
  | [] => true
  | _ => false
  end.

(** Which piece of code sent an "apply" query: a handler itself, or the
    best-of search of [removeAndReplaceAuras]. *)
Inductive Issuer : Type := ByHandler | ByBestOf.

Inductive Event : Type :=
| Warned (key : string)
| DeleteEffects (effectUuids : list string)
| ApplyAuraEffects (by_ : Issuer) (actorToEffectsMap : ApplyMap).

(** The two operations run by the active GM (queries.mjs). *)
Record Authority : Type := mkAuthority {
  deleteEffects : list string -> World -> World;
  applyAuraEffects : ApplyMap -> World -> World
}.

Record St : Type := mkSt {
  world : World;
  seenWarning : bool;
  trace : list Event
}.

Definition M (A : Type) : Type := St -> Outcome A * St.

Definition ret {A} (a : A) : M A := fun s => (Returned a, s).

Definition bind {A B} (m : M A) (f : A -> M B) : M B :=
  fun s =>
    match m s with
    | (Returned a, s') => f a s'
    | (Threw e, s') => (Threw e, s')
    end.

Notation "x <- m ;; k" := (bind m (fun x => k))
  (at level 61, m at next level, right associativity).
Notation "m ;;; k" := (bind m (fun _ => k))
  (at level 61, right associativity).

(** A pure computation that may throw, run inside a handler. *)
Definition lift {A} (o : Outcome A) : M A := fun s => (o, s).

Definition getWorld : M World := fun s => (Returned (world s), s).

(** A [for ... of] loop with an accumulator whose body awaits. *)
Fixpoint mfold {A S} (body : S -> A -> M S) (l : list A) (s : S) : M S :=
  match l with
  | [] => ret s
  | a :: l' => s' <- body s a ;; mfold body l' s'
  end.

Definition no_gm_key : string := "AURAEFFECTS.NoActiveGM".

(** The block run by every handler when [game.users.activeGM] is missing. *)
Definition noActiveGM : M unit :=
  fun s =>
    if negb (seenWarning s)
    then (Returned tt,
          mkSt (world s) true (trace s ++ [Warned no_gm_key]))
    else (Returned tt, s).

Section Queries.

Variable GM : Authority.

(** [activeGM.query("auraeffects.deleteEffects", { effectUuids })] *)
Definition queryDelete (effectUuids : list string) : M unit :=
  fun s =>
    match activeGM (world s) with
    | None => (Threw (TypeError "activeGM.query"), s)
    | Some _ =>
        (Returned tt,
         mkSt (deleteEffects GM effectUuids (world s)) (seenWarning s)
              (trace s ++ [DeleteEffects effectUuids]))
    end.

(** [activeGM.query("auraeffects.applyAuraEffects", map)] *)
Definition queryApply (by_ : Issuer) (m : ApplyMap) : M unit :=
  fun s =>
    match activeGM (world s) with
    | None => (Threw (TypeError "activeGM.query"), s)
    | Some _ =>
        (Returned tt,
         mkSt (applyAuraEffects GM m (world s)) (seenWarning s)
              (trace s ++ [ApplyAuraEffects by_ m]))
    end.

End Queries.

(* ================================================================== *)
(** ** Best-of arbiter (helpers.mjs) *)

(** One way to sort: a stable insertion sort that hands the comparator the
    element being placed first and an element already placed second. *)
Section Sort.

Context {A : Type}.
Variable cmp : A -> A -> Q.

Fixpoint sort_insert (a : A) (sorted : list A) : list A :=
  match sorted with
  | [] => [a]
  | b :: rest =>
      if Qle_bool 0 (cmp a b) then b :: sort_insert a rest
      else a :: b :: rest
  end.

Definition js_sort (l : list A) : list A :=
  fold_left (fun sorted a => sort_insert a sorted) l [].

End Sort.

Section BestOf.

Variable H : Host.
Variable GM : Authority.

(** The callback of [effects.reduce]: [acc[effect.name] ??= []] leaves a
    name the object inherits as it is, a function or the prototype itself,
    and the call of [push] on it throws. *)
Definition removedStep (w : World) (acc : JsObject (list Token))
           (effect : Effect) : Outcome (JsObject (list Token)) :=
  if inherited (name effect)
  then Threw (TypeError "acc[effect.name].push is not a function")
  else Returned (map_push acc (name effect)
                          (getActiveTokens w (parent effect))).

(** The map "effect name -> tokens removed from". *)
Definition effectToRemovedMap (w : World) (effects_ : list Effect)
  : Outcome (JsObject (list Token)) :=
  ofold (removedStep w) effects_ [].

(** The inner function [getSourceEffect(token, effectName)]. *)
Definition getSourceEffect (w : World) (token : Token) (effectName : string)
  : option Effect :=
  match token_actor w token with
  | None => None
  | Some actor =>
      find (fun e => is_aura e && String.eqb (resolvedName e) effectName)
           (appliedEffects actor)
  end.

Definition allEmitting (w : World) (effectName : string) : list Token :=
  filter (fun t =>
            existsb (fun e => String.eqb (resolvedName e) effectName)
                    (fst (getAllAuraEffects (token_actor w t))))
         (tokens w).

(** [effect.system.bestFormula?.trim()], when truthy. *)
Definition trimmedFormula (e : Effect) : option string :=
  match bestFormula (system e) with
  | None => None
  | Some f => let f' := trim f in if is_empty f' then None else Some f'
  end.

Definition tokenRollData (w : World) (t : Token) : RollData :=
  match token_actor w t with
  | Some a => rollData a
  | None => []
  end.

(** The comparator given to [allEmitting.sort]. *)
Definition compareEmitters (w : World) (effectName : string) (a b : Token) : Q :=
  match getSourceEffect w a effectName with
  | None => 1
  | Some effectA =>
      match getSourceEffect w b effectName with
      | None => -1
      | Some effectB =>
          match trimmedFormula effectA with
          | None => 1
          | Some bestFormulaA =>
              match trimmedFormula effectB with
              | None => -1
              | Some bestFormulaB =>
                  let totalA := rollTotal H bestFormulaA (tokenRollData w a) in
                  let totalB := rollTotal H bestFormulaB (tokenRollData w b) in
                  totalB - totalA
              end
          end
      end
  end.

(** [allEmitting] after [allEmitting.sort(...)]. *)
Definition sortedEmitters (w : World) (effectName : string) : list Token :=
  array_sort H (compareEmitters w effectName) (allEmitting w effectName).

(** The test that makes the inner loop [continue]. *)
Definition skipsEmitter (w : World) (sourceToken targetToken : Token)
           (effect : Effect) : Outcome bool :=
  let distance_ :=
    getTokenToTokenDistance H sourceToken targetToken None
                            (collisionTypes (system effect)) in
  if Num.ltb (Num.Fin (distance (system effect))) distance_
  then Returned true
  else obind (runScript H w sourceToken targetToken effect) (fun ok =>
       Returned (negb ok
                 || (negb (applyToSelf (system effect))
                     && same_token sourceToken targetToken))).

(** The inner loop over the sorted emitters, up to its [break]. *)
Fixpoint firstReplacement (w : World) (effectName : string)
         (targetToken : Token) (emitters : list Token)
  : Outcome (option Effect) :=
  match emitters with
  | [] => Returned None
  | sourceToken :: rest =>
      match getSourceEffect w sourceToken effectName with
      | None => firstReplacement w effectName targetToken rest
      | Some effect =>
          obind (skipsEmitter w sourceToken targetToken effect) (fun skip =>
          if skip : bool
          then firstReplacement w effectName targetToken rest
          else Returned (Some effect))
      end
  end.

(** The loop over the tokens that lost an effect of that name. *)
Definition replaceForTarget (w : World) (effectName : string)
           (emitters : list Token) (newBestApplyMap : ApplyMap)
           (targetToken : Token) : Outcome ApplyMap :=
  obind (firstReplacement w effectName targetToken emitters) (fun found =>
  match found with
  | None => Returned newBestApplyMap
  | Some effect =>
      match token_actor w targetToken with
      | None => Threw (TypeError "targetToken.actor.uuid")
      | Some actor =>
          Returned (map_concat newBestApplyMap (actor_uuid actor) (uuid effect))
      end
  end).

(** The body of [Object.keys(effectToRemovedMap).forEach]. *)
Definition replaceForName (w : World) (newBestApplyMap : ApplyMap)
           (entry : string * list Token) : Outcome ApplyMap :=
  let (effectName, targets) := entry in
  ofold (replaceForTarget w effectName (sortedEmitters w effectName))
        targets newBestApplyMap.

(** [Object.keys(effectToRemovedMap).forEach(...)]: the names that are
    array indices come first, in ascending order, then the others in the
    order they were added. *)
Definition newBestApplyMap (w : World) (removed : JsObject (list Token))
  : Outcome ApplyMap :=
  ofold (replaceForName w) (entries removed) [].

(** [removeAndReplaceAuras(effects, scene)] *)
Definition removeAndReplaceAuras (effects_ : list Effect) : M unit :=
  w0 <- getWorld ;;
  removed <- lift (effectToRemovedMap w0 effects_) ;;
  queryDelete GM (map uuid effects_) ;;;
  w <- getWorld ;;
  best <- lift (newBestApplyMap w removed) ;;
  if negb (isEmpty best) then queryApply GM ByBestOf best else ret tt.

End BestOf.

(* ------------------------------------------------------------------ *)
(** *** The order the best-of search is about *)







(** How many times a request names the source [u] for the actor [a]. *)
Definition requestedFor (m : ApplyMap) (a u : string) : nat :=
  list_sum (map (fun entry =>
                   if String.eqb (fst entry) a
                   then count_occ string_dec (snd entry) u
                   else 0%nat) m).


(* ================================================================== *)
(** ** Reconciliation engine (auras.mjs) *)

(** The [updates] object of the updateToken hook. *)
Record TokenUpdates : Type := mkTokenUpdates {
  upd_hidden : option bool;
  upd_has_x : bool;
  upd_has_y : bool;
  upd_has_elevation : bool
}.

(** The [updates] object of the updateActiveEffect hook: the value of
    [disabled] when the property is present, and whether [system] is. *)
Record EffectUpdates : Type := mkEffectUpdates {
  upd_disabled : option bool;
  upd_has_system : bool
}.

(** [array.filter(e => e)] on possibly missing effects. *)
Fixpoint defined {A} (l : list (option A)) : list A :=
  match l with
  | [] => []
  | Some a :: l' => a :: defined l'
  | None :: l' => defined l'
  end.

(** [tokens.map(t => t.actor)] as actor uuids. *)
Definition actorsOf (w : World) (ts : list Token) : list string :=
  defined (map (fun t => option_map actor_uuid (token_actor w t)) ts).

Definition actorEffects (w : World) (a : string) : list Effect :=
  match lookup_actor w a with
  | Some actor => effects actor
  | None => []
  end.

(** [!a?.effects.find(e => e.origin === uuid)] *)
Definition lacksOrigin (w : World) (u : string) (a : string) : bool :=
  match find_origin u (actorEffects w a) with
  | Some _ => false
  | None => true
  end.

Definition tokenActorUuid (w : World) (t : Token) : option string :=
  option_map actor_uuid (token_actor w t).

(** Applied effects held by the tokens of the scene that pass [keep]. *)
Definition sceneAppliedEffects (w : World) (keep : Token -> bool)
  : list Effect :=
  flat_map (fun t =>
              match token_actor w t with
              | Some a => appliedEffects a
              | None => []
              end)
           (filter (fun t =>
                      match token_actor w t with
                      | Some _ => keep t
                      | None => false
                      end) (tokens w)).

(** The first loop of [moveToken]: [preMoveRanges], latest entry first. *)
Definition preMoveRanges (H : Host) (w : World) (token : Token)
           (origin_ : option Position) (activeSourceEffects : list Effect)
  : list (string * list string) :=
  fold_left (fun acc effect =>
               if falsy (distance (system effect)) then acc
               else (uuid effect,
                     to_set (actorsOf w
                       (getNearbyTokens H w token (distance (system effect))
                                        origin_
                                        (sys_disposition (system effect))
                                        (collisionTypes (system effect)))))
                    :: acc)
            activeSourceEffects [].

Definition preMoveRange (ranges : list (string * list string)) (u : string)
  : list string :=
  match find (fun p => String.eqb (fst p) u) ranges with
  | Some p => snd p
  | None => []
  end.

Section Handlers.

Variable H : Host.
(** What the host answers while the placeable of a moving token has not
    been animated to its new position yet: [moveToken] reads its first
    ranges then, and everything else after the animation. *)
Variable Hpre : Host.
Variable GM : Authority.

(** [Array.from(inRange.filter(a => (a !== token.actor) &&
    !a?.effects.find(e => e.origin === effect.uuid))).map(a => a?.uuid)] *)
Definition toAddTo (w : World) (token : Token) (effect : Effect)
           (inRange : list string) : list string :=
  filter (fun a => negb (opt_eqb (tokenActorUuid w token) a)
                   && lacksOrigin w (uuid effect) a) inRange.

(** [new Set(getNearbyTokens(...).filter(t => executeScript(token, t, effect))
    .map(t => t.actor))] *)
Definition scriptedRange (w : World) (token : Token) (effect : Effect)
  : Outcome (list string) :=
  obind (ofilter (fun t => runScript H w token t effect)
                 (getNearbyTokens H w token (distance (system effect)) None
                                  (sys_disposition (system effect))
                                  (collisionTypes (system effect))))
        (fun ts => Returned (to_set (actorsOf w ts))).

(** The loop shared by [createToken] and by [updateToken] on un-hiding. *)
Definition inRangeStep (w : World) (token : Token)
           (actorToEffectsMap : ApplyMap) (effect : Effect)
  : Outcome ApplyMap :=
  if falsy (distance (system effect)) then Returned actorToEffectsMap
  else
    obind (scriptedRange w token effect) (fun inRange =>
    Returned (fold_left (fun m actorUuid => map_concat m actorUuid (uuid effect))
                        (toAddTo w token effect inRange)
                        actorToEffectsMap)).

Definition inRangeMap (w : World) (token : Token)
           (activeSourceEffects : list Effect) : Outcome ApplyMap :=
  ofold (inRangeStep w token) activeSourceEffects [].

(** [createToken(token, options, userId)] *)
Definition createToken (token : Token) (userId : string) : M unit :=
  w <- getWorld ;;
  if negb (String.eqb (currentUser w) userId) then ret tt
  else
    match activeGM w with
    | None => noActiveGM
    | Some _ =>
        match token_actor w token with
        | None => ret tt
        | Some actor =>
            let (activeSourceEffects, _) := getAllAuraEffects (Some actor) in
            actorToEffectsMap <- lift (inRangeMap w token activeSourceEffects) ;;
            if negb (isEmpty actorToEffectsMap)
            then queryApply GM ByHandler actorToEffectsMap
            else ret tt
        end
    end.

(** [deleteToken(token, options, userId)] *)
Definition deleteToken (token : Token) (userId : string) : M unit :=
  w <- getWorld ;;
  if negb (String.eqb (currentUser w) userId) then ret tt
  else if negb (canvasScene w) then ret tt
  else
    match token_actor w token with
    | None => ret tt
    | Some actor =>
        match activeGM w with
        | None => noActiveGM
        | Some _ =>
            let (activeSourceEffects, _) := getAllAuraEffects (Some actor) in
            let auraSourceUuids := map uuid activeSourceEffects in
            let toRemoveAppliedEffects :=
              filter (fun e => fromAura e &&
                               match origin e with
                               | Some o => includes auraSourceUuids o
                               | None => false
                               end)
                     (sceneAppliedEffects w (fun t =>
                        negb (opt_eqb (tokenActorUuid w t) (actor_uuid actor)))) in
            removeAndReplaceAuras H GM toRemoveAppliedEffects
        end
    end.

(** [updateToken(token, updates, options, userId)]; its first statement,
    [updateTokenVisualization(token, updates)], only redraws the aura
    circles and is left out. *)
Definition updateToken (token : Token) (updates : TokenUpdates)
           (userId : string) : M unit :=
  w <- getWorld ;;
  if negb (String.eqb (currentUser w) userId) then ret tt
  else
    match activeGM w with
    | None => noActiveGM
    | Some _ =>
        match token_actor w token with
        | None => ret tt
        | Some actor =>
            let (activeSourceEffects, inactiveSourceEffects) :=
              getAllAuraEffects (Some actor) in
            (match upd_hidden updates with
             | Some true =>
                 let toRemoveSourceEffects :=
                   filter (fun e => disableOnHidden (system e))
                          inactiveSourceEffects in
                 let toRemoveAppliedEffects :=
                   filter (fun e => fromAura e &&
                                    existsb (fun sourceEff =>
                                               opt_eqb (origin e) (uuid sourceEff))
                                            toRemoveSourceEffects)
                          (sceneAppliedEffects w (fun t =>
                             negb (same_token t token))) in
                 if negb (isEmpty toRemoveAppliedEffects)
                 then removeAndReplaceAuras H GM toRemoveAppliedEffects
                 else ret tt
             | _ => ret tt
             end) ;;;
            if upd_has_x updates || upd_has_y updates
               || upd_has_elevation updates
            then ret tt
            else
              match upd_hidden updates with
              | Some false =>
                  w' <- getWorld ;;
                  actorToEffectsMap <-
                    lift (inRangeMap w' token activeSourceEffects) ;;
                  if negb (isEmpty actorToEffectsMap)
                  then queryApply GM ByHandler actorToEffectsMap
                  else ret tt
              | _ => ret tt
              end
        end
    end.

(** [Array.from(preMoveRange.difference(postMoveRange))
      .map(a => a.effects.find(e => e.origin === effect.uuid))] *)
Definition leftRange (w : World) (effect : Effect)
           (pre post : list string) : list (option Effect) :=
  map (fun a => find_origin (uuid effect) (actorEffects w a))
      (difference pre post).

(** "Grab any lingering effects from now-inactive auras, too". *)
Definition additionalDeletion (w : World) (inactiveUuids : list string)
  : list Effect :=
  flat_map (fun t =>
              match token_actor w t with
              | Some a =>
                  filter (fun e => match origin e with
                                   | Some o => includes inactiveUuids o
                                   | None => false
                                   end) (appliedEffects a)
              | None => []
              end) (tokens w).

(** The body of the second loop of [moveToken]. *)
Definition moveStep (token : Token) (ranges : list (string * list string))
           (inactiveUuids : list string)
           (actorToEffectsMap : ApplyMap) (effect : Effect) : M ApplyMap :=
  if falsy (distance (system effect)) then ret actorToEffectsMap
  else
    w <- getWorld ;;
    let pre := preMoveRange ranges (uuid effect) in
    postMoveRange <- lift (scriptedRange w token effect) ;;
    let toDelete := leftRange w effect pre postMoveRange in
    removeAndReplaceAuras H GM
      (defined (toDelete ++ map Some (additionalDeletion w inactiveUuids))) ;;;
    if isFinalMovementComplete token
    then
      w' <- getWorld ;;
      ret (fold_left (fun m actorUuid => map_concat m actorUuid (uuid effect))
                     (toAddTo w' token effect postMoveRange)
                     actorToEffectsMap)
    else ret actorToEffectsMap.

(** [moveToken(token, movement, operation, user)] *)
Definition moveToken (token : Token) (movement_origin : option Position)
           (user : string) : M unit :=
  w <- getWorld ;;
  if negb (String.eqb (currentUser w) user) then ret tt
  else
    match activeGM w with
    | None => noActiveGM
    | Some _ =>
        match token_actor w token with
        | None => ret tt
        | Some actor =>
            let (activeSourceEffects, inactiveSourceEffects) :=
              getAllAuraEffects (Some actor) in
            let inactiveUuids := map uuid inactiveSourceEffects in
            let ranges :=
              preMoveRanges Hpre w token movement_origin activeSourceEffects in
            actorToEffectsMap <-
              mfold (moveStep token ranges inactiveUuids)
                    activeSourceEffects [] ;;
            (if isFinalMovementComplete token
                && negb (isEmpty actorToEffectsMap)
             then queryApply GM ByHandler actorToEffectsMap
             else ret tt) ;;;
            w' <- getWorld ;;
            delta <- lift (getChangingSceneAuras H w' token) ;;
            let (sceneAurasToRemove, sceneAurasToAdd) :=
              delta : list Effect * list Effect in
            (if negb (isEmpty sceneAurasToRemove)
             then removeAndReplaceAuras H GM sceneAurasToRemove
             else ret tt) ;;;
            if negb (isEmpty sceneAurasToAdd) && isFinalMovementComplete token
            then queryApply GM ByHandler
                   [(actor_uuid actor, map uuid sceneAurasToAdd)]
            else ret tt
        end
    end.

Definition tokenEffects (w : World) (t : Token) : list Effect :=
  match token_actor w t with
  | Some a => effects a
  | None => []
  end.

(** The body of the loop of [addRemoveEffect] over the active sources. *)
Definition sourceStep (w : World) (mainToken : Token)
           (acc : ApplyMap * list Effect) (sourceEffect : Effect)
  : Outcome (ApplyMap * list Effect) :=
  let (actorToEffectsMap, toDelete) := acc in
  let nearby :=
    getNearbyTokens H w mainToken (distance (system sourceEffect)) None
                    (sys_disposition (system sourceEffect))
                    (collisionTypes (system sourceEffect)) in
  if isEmpty nearby then Returned (actorToEffectsMap, toDelete)
  else
    obind (ofilter (fun t => if same_token t mainToken then Returned false
                             else runScript H w mainToken t sourceEffect)
                   nearby) (fun shouldHave =>
    let toAddTo_ :=
      filter (lacksOrigin w (uuid sourceEffect)) (actorsOf w shouldHave) in
    let actorToEffectsMap :=
      fold_left (fun m actorUuid => map_concat m actorUuid (uuid sourceEffect))
                toAddTo_ actorToEffectsMap in
    let shouldNotHave :=
      filter (fun t => negb (existsb (same_token t) shouldHave)) nearby in
    let bad :=
      map (fun currToken =>
             find_origin (uuid sourceEffect) (tokenEffects w currToken))
          shouldNotHave in
    Returned (actorToEffectsMap, toDelete ++ defined bad)).

(** [addRemoveEffect(effect, options, userId)], bound to the creation and
    to the deletion of an effect. *)
Definition addRemoveEffect (effect : Effect) (userId : string) : M unit :=
  w <- getWorld ;;
  if negb (active effect) then ret tt
  else
    match lookup_actor w (parent effect) with
    | None => ret tt
    | Some target =>
        if fromAura effect then ret tt
        else if negb (String.eqb (currentUser w) userId) then ret tt
        else
          match activeGM w with
          | None => noActiveGM
          | Some _ =>
              let (activeSourceEffects, _) := getAllAuraEffects (Some target) in
              match getActiveTokens w (actor_uuid target) with
              | [] => ret tt
              | mainToken :: _ =>
                  acc <- lift (ofold (sourceStep w mainToken)
                                     activeSourceEffects ([], [])) ;;
                  let (actorToEffectsMap, toDelete) :=
                    acc : ApplyMap * list Effect in
                  delta <- lift (getChangingSceneAuras H w mainToken) ;;
                  let (sceneAurasToRemove, sceneAurasToAdd) :=
                    delta : list Effect * list Effect in
                  let toDelete := toDelete ++ sceneAurasToRemove in
                  let actorToEffectsMap :=
                    fold_left
                      (fun m addEffect =>
                         if opt_eqb (origin effect) (uuid addEffect) then m
                         else map_concat m (actor_uuid target) (uuid addEffect))
                      sceneAurasToAdd actorToEffectsMap in
                  (if negb (isEmpty actorToEffectsMap)
                   then queryApply GM ByHandler actorToEffectsMap
                   else ret tt) ;;;
                  removeAndReplaceAuras H GM toDelete
              end
          end
    end.

(** Applied, aura-derived effects of the other actors of the scene whose
    origin is [effect]. *)
Definition appliedFrom (w : World) (actor : string) (effect : Effect)
  : list Effect :=
  filter (fun e => fromAura e && opt_eqb (origin e) (uuid effect))
         (sceneAppliedEffects w (fun t =>
            negb (opt_eqb (tokenActorUuid w t) actor))).

(** The block of [updateActiveEffect] run when the update does not disable
    the effect, followed by the removal that closes the handler. *)
Definition reevaluateEffect (w : World) (actor : Actor) (token : Token)
           (effect : Effect) (toRemoveAppliedEffects : list Effect) : M unit :=
  if falsy (distance (system effect)) then ret tt
  else
    let tokensInRange :=
      filter (fun t => negb (same_token t token)
                       && negb (opt_eqb (tokenActorUuid w t) (actor_uuid actor)))
             (getNearbyTokens H w token (distance (system effect)) None
                              (sys_disposition (system effect))
                              (collisionTypes (system effect))) in
    ts <- lift (ofilter (fun t => runScript H w token t effect) tokensInRange) ;;
    let shouldHave := actorsOf w ts in
    let toRemoveAppliedEffects :=
      filter (fun e => negb (includes shouldHave (parent e)))
             toRemoveAppliedEffects in
    let toAddTo_ := filter (lacksOrigin w (uuid effect)) shouldHave in
    let actorToEffectsMap :=
      fold_left (fun m a => map_set m a [uuid effect]) toAddTo_ [] in
    (if negb (isEmpty actorToEffectsMap)
     then queryApply GM ByHandler actorToEffectsMap
     else ret tt) ;;;
    if negb (isEmpty toRemoveAppliedEffects)
    then removeAndReplaceAuras H GM toRemoveAppliedEffects
    else ret tt.

(** [updateActiveEffect(effect, updates, options, userId)] *)
Definition updateActiveEffect (effect : Effect) (updates : EffectUpdates)
           (userId : string) : M unit :=
  w <- getWorld ;;
  if negb (String.eqb (currentUser w) userId) then ret tt
  else if negb (is_aura effect) then ret tt
  else if match upd_disabled updates with None => true | Some _ => false end
          && negb (upd_has_system updates) then ret tt
  else if negb (canvasScene w) then ret tt
  else
    match lookup_actor w (parent effect) with
    | None => ret tt
    | Some actor =>
        match getActiveTokens w (actor_uuid actor) with
        | [] => ret tt
        | token :: _ =>
            match activeGM w with
            | None => noActiveGM
            | Some _ =>
                let toRemoveAppliedEffects :=
                  appliedFrom w (actor_uuid actor) effect in
                match upd_disabled updates with
                | Some true =>
                    if negb (isEmpty toRemoveAppliedEffects)
                    then removeAndReplaceAuras H GM toRemoveAppliedEffects
                    else ret tt
                | _ =>
                    reevaluateEffect w actor token effect
                                     toRemoveAppliedEffects
                end
            end
        end
    end.

(** [deleteActiveEffect(effect, options, userId)] *)
Definition deleteActiveEffect (effect : Effect) (userId : string) : M unit :=
  w <- getWorld ;;
  if negb (String.eqb (currentUser w) userId) then ret tt
  else if negb (is_aura effect) then ret tt
  else if negb (canvasScene w) then ret tt
  else
    match lookup_actor w (parent effect) with
    | None => ret tt
    | Some actor =>
        match activeGM w with
        | None => noActiveGM
        | Some _ =>
            removeAndReplaceAuras H GM
              (appliedFrom w (actor_uuid actor) effect)
        end
    end.

(** The hooks registered by [registerHooks]; the deletion of an effect
    runs [addRemoveEffect] and then [deleteActiveEffect]. *)
Inductive HookEvent : Type :=
| CreateActiveEffect (effect : Effect) (userId : string)
| DeleteActiveEffect (effect : Effect) (userId : string)
| CreateToken (token : Token) (userId : string)
| DeleteToken (token : Token) (userId : string)
| UpdateToken (token : Token) (updates : TokenUpdates) (userId : string)
| MoveToken (token : Token) (movement_origin : option Position)
            (user : string)
| UpdateActiveEffect (effect : Effect) (updates : EffectUpdates)
                     (userId : string).

Definition handlers (ev : HookEvent) : list (M unit) :=
  match ev with
  | CreateActiveEffect e u => [addRemoveEffect e u]
  | DeleteActiveEffect e u => [addRemoveEffect e u; deleteActiveEffect e u]
  | CreateToken t u => [createToken t u]
  | DeleteToken t u => [deleteToken t u]
  | UpdateToken t upd u => [updateToken t upd u]
  | MoveToken t o u => [moveToken t o u]
  | UpdateActiveEffect e upd u => [updateActiveEffect e upd u]
  end.

(** A handler that throws leaves the state it reached; the next one runs. *)
Definition runHandlers (hs : list (M unit)) (s : St) : St :=
  fold_left (fun s h => snd (h s)) hs s.

(** One step of a session: the documents change outside the engine
    (which the hook reports), then the hook's handlers run. *)
Definition sessionStep (s : St) (step : World * HookEvent) : St :=
  runHandlers (handlers (snd step))
              (mkSt (fst step) (seenWarning s) (trace s)).

Definition runSession (steps : list (World * HookEvent)) (s : St) : St :=
  fold_left sessionStep steps s.

End Handlers.

(** The number of user-visible warnings in a trace. *)
Definition warnings (tr : list Event) : nat :=
  List.length (filter (fun ev => match ev with
                                 | Warned _ => true
                                 | _ => false
                                 end) tr).

(** The trace holds a warning only once [seenWarning] is set, and then
    only one. *)
Definition warnedOnce (s : St) : Prop :=
  (warnings (trace s) <= if seenWarning s then 1 else 0)%nat.

(** The computation keeps the property [P] of the state, whatever it
    returns or throws. *)
Definition preserves {A} (P : St -> Prop) (m : M A) : Prop :=
  forall s, P s -> P (snd (m s)).

(** Between [s] and [s'] nothing was sent to the GM and no document
    changed: at most the warning about the missing GM was shown, and only
    if it had not been shown before. *)
Definition noMutation (s s' : St) : Prop :=
  world s' = world s
  /\ (s' = s
      \/ (seenWarning s = false
          /\ seenWarning s' = true
          /\ trace s' = trace s ++ [Warned no_gm_key])).

(** The requests sent by the handlers themselves, in order. *)
Definition handlerApplies (tr : list Event) : list ApplyMap :=
  flat_map (fun ev => match ev with
                      | ApplyAuraEffects ByHandler m => [m]
                      | _ => []
                      end) tr.

(** Every deletion request of a trace, in order. *)
Definition deletions (tr : list Event) : list (list string) :=
  flat_map (fun ev => match ev with
                      | DeleteEffects l => [l]
                      | _ => []
                      end) tr.


(** The actor holds no two effects with the same origin. *)
Definition noDuplicateOrigin (a : Actor) : Prop :=
  NoDup (defined (map origin (effects a))).

(** The state's trace holds the same handler requests as [tr0]. *)
Definition sameHandlerApplies (tr0 : list Event) (st : St) : Prop :=
  handlerApplies (trace st) = handlerApplies tr0.

(** The state's trace extends [tr0], whatever happened to the world. *)
Definition extendsTrace (tr0 : list Event) (st : St) : Prop :=
  exists rest, trace st = tr0 ++ rest.

(* ================================================================== *)
(** ** The queries of the mutation authority *)

(** An applied effect: the source's data under its display name, tagged
    with its origin and the aura-derived flag. *)
Definition cloneOnto (actor fresh : string) (source : Effect) : Effect :=
  mkEffect fresh (resolvedName source) "base" (Some (uuid source)) true
           false false actor (system source).

Definition updateActor (f : Actor -> Actor) (actor : string) (w : World) : World :=
  mkWorld (map (fun a => if String.eqb (actor_uuid a) actor then f a else a)
               (actors w))
          (tokens w) (currentUser w) (activeGM w) (canvasScene w).

Definition freshUuid (a : Actor) (source : Effect) : string :=
  actor_uuid a ++ ".ActiveEffect." ++ uuid source ++ "#"
  ++ String.concat "" (repeat "i" (List.length (effects a))).

Definition addClone (source : Effect) (a : Actor) : Actor :=
  mkActor (actor_uuid a) (actor_name a)
          (effects a ++ [cloneOnto (actor_uuid a) (freshUuid a source) source])
          (rollData a).

(** Modelled from the spec: the "delete effects" operation of queries.mjs,
    which is not among the sources: every effect named by the list of
    applied-effect identifiers is removed. *)
Definition spec_deleteEffects (effectUuids : list string) (w : World) : World :=
  mkWorld (map (fun a =>
                  mkActor (actor_uuid a) (actor_name a)
                          (filter (fun e => negb (includes effectUuids (uuid e)))
                                  (effects a))
                          (rollData a))
               (actors w))
          (tokens w) (currentUser w) (activeGM w) (canvasScene w).

(** One source effect of the mapping, for one target actor. *)
Definition applyOne (actor : string) (w : World) (u : string) : World :=
  match fromUuidSync w u with
  | Some source =>
      if lacksOrigin w u actor then updateActor (addClone source) actor w
      else w
  | None => w
  end.

(** Modelled from the spec: the "apply aura effects" operation of
    queries.mjs, which is not among the sources: for every target actor of
    the mapping, each listed source effect is cloned onto it; an actor never
    holds two applied effects of one origin, so a source the actor already
    holds an effect of is passed over. *)
Definition spec_applyAuraEffects (m : ApplyMap) (w : World) : World :=
  fold_left (fun w entry => fold_left (applyOne (fst entry)) (snd entry) w)
            m w.

Definition specAuthority : Authority :=
  mkAuthority spec_deleteEffects spec_applyAuraEffects.


(* ================================================================== *)
(** ** Putting a scene delta into effect *)

Definition removeEffects (effectUuids : list string) (a : Actor) : Actor :=
  mkActor (actor_uuid a) (actor_name a)
          (filter (fun e => negb (includes effectUuids (uuid e))) (effects a))
          (rollData a).

Fixpoint addClones (sources : list Effect) (a : Actor) : Actor :=
  match sources with
  | [] => a
  | source :: rest => addClones rest (addClone source a)
  end.

(** The output of [getChangingSceneAuras] for [token], applied to the
    token's actor: every effect to remove is deleted, and every source
    effect to add is cloned on, its origin set. *)
Definition applyDelta (w : World) (token : Token)
           (delta : list Effect * list Effect) : World :=
  match token_actor w token with
  | None => w
  | Some actor =>
      updateActor (fun a => addClones (snd delta)
                                      (removeEffects (map uuid (fst delta)) a))
                  (actor_uuid actor) w
  end.

(** Every effect of the world has its own uuid. *)
Definition uniqueUuids (w : World) : Prop :=
  NoDup (map uuid (flat_map effects (actors w))).

(** No actor has two tokens on the scene. *)
Definition oneTokenPerActor (w : World) : Prop :=
  forall s1 s2 a,
    In s1 (tokens w) -> In s2 (tokens w) ->
    token_actor w s1 = Some a -> token_actor w s2 = Some a -> s1 = s2.

(** The origins of the actor's effects are not aura-derived effects. *)
Definition sourcesNotDerived (w : World) (a : Actor) : Prop :=
  forall e o source,
    In e (effects a) -> origin e = Some o ->
    fromUuidSync w o = Some source -> fromAura source = false.

(** The auras of the source token that the delta looks at for [token]:
    the active ones whose disposition filter is "any" or the relationship
    of the two tokens. *)
Definition matchingAuras (w : World) (token sourceToken : Token) : list Effect :=
  filter (fun e => (sys_disposition (system e) =? 0)%Z
                   || (sys_disposition (system e)
                       =? disposition token * disposition sourceToken)%Z)
         (fst (getAllAuraEffects (token_actor w sourceToken))).

(** The applied effects whose origin is an inactive aura of the source. *)
Definition inactiveHits (w : World) (sourceToken : Token)
           (currentAppliedAuras : list Effect) : list Effect :=
  filter (fun appliedEffect =>
            existsb (fun inactiveEffect =>
                       opt_eqb (origin appliedEffect) (uuid inactiveEffect))
                    (snd (getAllAuraEffects (token_actor w sourceToken))))
         currentAppliedAuras.

(** The delta keeps the source effect out: too far, or the script says no. *)
Definition rejects (H : Host) (w : World) (token sourceToken : Token)
           (currEffect : Effect) : Prop :=
  Num.ltb (Num.Fin (distance (system currEffect)))
          (getTokenToTokenDistance H sourceToken token None
                                   (collisionTypes (system currEffect))) = true
  \/ runScript H w sourceToken token currEffect = Returned false.

(** The delta lets the source effect in. *)
Definition accepts (H : Host) (w : World) (token sourceToken : Token)
           (currEffect : Effect) : Prop :=
  Num.ltb (Num.Fin (distance (system currEffect)))
          (getTokenToTokenDistance H sourceToken token None
                                   (collisionTypes (system currEffect))) = false
  /\ runScript H w sourceToken token currEffect = Returned true.

(** One entry of the actor collection after [updateActor]. *)
Definition updated (f : Actor -> Actor) (actor : string) (a : Actor) : Actor :=
  if String.eqb (actor_uuid a) actor then f a else a.

(** The change [applyDelta] makes to the token's actor. *)
Definition deltaUpdate (delta : list Effect * list Effect) (a : Actor) : Actor :=
  addClones (snd delta) (removeEffects (map uuid (fst delta)) a).

(** No two applied, aura-derived effects of the actor share an origin. *)
Definition distinctAppliedOrigins (a : Actor) : Prop :=
  NoDup (map origin (filter fromAura (appliedEffects a))).

(** The world with other tokens on the scene. *)
Definition withTokens (ts : list Token) (w : World) : World :=
  mkWorld (actors w) ts (currentUser w) (activeGM w) (canvasScene w).

(** The scene tokens the delta of [token] reads auras from: those that
    have an actor, other than the actor of [token]. *)
Definition otherActorTokens (w : World) (token : Token) : list Token :=
  filter (fun s => match token_actor w s with
                   | Some _ =>
                       negb (same_actor (token_actor w s) (token_actor w token))
                   | None => false
                   end) (tokens w).

(** The closing loop of the delta lists the effect: its origin resolves to
    nothing, or to a disabled or suppressed effect. *)
Definition staleOrigin (w : World) (e : Effect) : Prop :=
  match match origin e with
        | Some o => fromUuidSync w o
        | None => None
        end with
  | None => True
  | Some sourceEffect =>
      disabled sourceEffect = true \/ isSuppressed sourceEffect = true
  end.
(* ================================================================== *)
(** ** Sheet extension helpers (helpers.mjs) *)

(** [array.toSpliced(start, skipCount, ...items)] *)
Definition toSpliced {A} (start : Z) (skipCount : Z) (items : list A)
           (l : list A) : list A :=
  let len := Z.of_nat (List.length l) in
  let actualStart :=
    if (start <? 0)%Z then Z.max (len + start) 0 else Z.min start len in
  let actualSkip := Z.min (Z.max skipCount 0) (len - actualStart) in
  firstn (Z.to_nat actualStart) l ++ items
  ++ skipn (Z.to_nat (actualStart + actualSkip)) l.

(** A part of an application sheet: its template, and whatever else it
    carries. *)
Record HandlebarsTemplatePart : Type := mkPart {
  template : string;
  part_options : list (string * string)
}.

Definition auraPart : HandlebarsTemplatePart :=
  mkPart "modules/auraeffects/templates/auraConfig.hbs" [].

(** [getExtendedParts(origParts)] *)
Definition getExtendedParts (origParts : JsObject HandlebarsTemplatePart)
  : JsObject HandlebarsTemplatePart :=
  fromEntries (toSpliced (-1) 0 [("aura", auraPart)] (entries origParts)).

(** One tab of a tab group. *)
Record Tab : Type := mkTab {
  tab_id : string;
  tab_icon : option string;
  tab_options : list (string * string)
}.

(** A tab group ([ApplicationTabsConfiguration]): its [tabs] array when it
    has one, and its other properties. *)
Record TabGroup : Type := mkTabGroup {
  tabs : option (list Tab);
  group_options : list (string * string)
}.

Definition auraTab : Tab := mkTab "aura" (Some "fa-solid fa-person-rays") [].

(** [getExtendedTabs(origTabs)]: reading [tabs] of a missing [sheet] group
    throws, and so does spreading a missing [tabs]. *)
Definition getExtendedTabs (origTabs : JsObject TabGroup)
  : Outcome (JsObject TabGroup) :=
  match obj_get "sheet" origTabs with
  | None => Threw (TypeError "origTabs.sheet.tabs")
  | Some sheet =>
      match tabs sheet with
      | None => Threw (TypeError "origTabs.sheet.tabs is not iterable")
      | Some origSheetTabs =>
          Returned [("sheet", mkTabGroup (Some (origSheetTabs ++ [auraTab]))
                                         (group_options sheet))]
      end
  end.

(* ================================================================== *)
(** ** Notions used to state further properties of the handlers *)

(** The user a hook reports as having made the change. *)
Definition initiator (ev : HookEvent) : string :=
  match ev with
  | CreateActiveEffect _ u => u
  | DeleteActiveEffect _ u => u
  | CreateToken _ u => u
  | DeleteToken _ u => u
  | UpdateToken _ _ u => u
  | MoveToken _ _ u => u
  | UpdateActiveEffect _ _ u => u
  end.

(** The state's trace holds the same deletions as [tr0]. *)
Definition sameDeletions (tr0 : list Event) (st : St) : Prop :=
  deletions (trace st) = deletions tr0.

(** Every (target actor, source effect) pair of the request satisfies [P]. *)
Definition requestOf (P : string -> string -> Prop) (m : ApplyMap) : Prop :=
  forall a us u, In (a, us) m -> In u us -> P a u.

(** The source effect [u] is an active aura of the actor of [token], with a
    radius, and the actor [a], which is not the actor of [token], has a
    token that [getNearbyTokens] returns for that aura and for which the
    aura's script answers [true]. *)
Definition reaches (H : Host) (w : World) (token : Token) (a u : string)
  : Prop :=
  exists effect t,
    In effect (fst (getAllAuraEffects (token_actor w token)))
    /\ uuid effect = u
    /\ falsy (distance (system effect)) = false
    /\ In t (getNearbyTokens H w token (distance (system effect)) None
                             (sys_disposition (system effect))
                             (collisionTypes (system effect)))
    /\ runScript H w token t effect = Returned true
    /\ tokenActorUuid w t = Some a
    /\ tokenActorUuid w token <> Some a.

(** The effect [u] is an applied, aura-derived effect, with an origin
    accepted by [from], of the actor of a scene token accepted by
    [keep]. *)
Definition cloneOnScene (w : World) (keep : Token -> bool)
           (from : string -> Prop) (u : string) : Prop :=
  exists e t holder o,
    uuid e = u
    /\ fromAura e = true
    /\ origin e = Some o /\ from o
    /\ In t (tokens w) /\ keep t = true
    /\ token_actor w t = Some holder
    /\ In e (appliedEffects holder).

(** The source effects that have a radius. *)
Definition withRadius (l : list Effect) : list Effect :=
  filter (fun e => negb (falsy (distance (system e)))) l.

(** A computation that returns normally has sent between [lo] and [hi]
    deletions. *)
Definition adds {A} (lo hi : nat) (m : M A) : Prop :=
  forall s a,
    fst (m s) = Returned a ->
    (List.length (deletions (trace s)) + lo
     <= List.length (deletions (trace (snd (m s))))
     <= List.length (deletions (trace s)) + hi)%nat.
(* ================================================================== *)
(** ** What the script engine promises of [sort] *)









(* ================================================================== *)
(** ** What a run has sent, and the worlds it went through *)

(** The world after the GM has carried out the queries of [evs]. *)
Definition replay (GM : Authority) (w : World) (evs : list Event) : World :=
  fold_left (fun w ev =>
               match ev with
               | Warned _ => w
               | DeleteEffects effectUuids => deleteEffects GM effectUuids w
               | ApplyAuraEffects _ m => applyAuraEffects GM m w
               end) evs w.


(** No name among the effects is one that objects inherit. *)
Definition plainNames (effects_ : list Effect) : Prop :=
  forall e, In e effects_ -> inherited (name e) = false.

(** Every best-of request of a trace, in order. *)
Definition bestOfApplies (tr : list Event) : list ApplyMap :=
  flat_map (fun ev => match ev with
                      | ApplyAuraEffects ByBestOf m => [m]
                      | _ => []
                      end) tr.

(** The state's trace holds the same best-of requests as [tr0]. *)
Definition sameBestOf (tr0 : list Event) (st : St) : Prop :=
  bestOfApplies (trace st) = bestOfApplies tr0.

(** The state was reached from [s0] by sending [evs0] and then queries
    that hold no request of a handler's own; its world is the one the GM
    has left. *)
Definition sentQuietly (GM : Authority) (s0 : St) (evs0 : list Event)
           (st : St) : Prop :=
  exists more,
    trace st = trace s0 ++ evs0 ++ more
    /\ world st = replay GM (world s0) (evs0 ++ more)
    /\ handlerApplies more = [].






(* ================================================================== *)
(** ** A concrete host and concrete scenes, for evaluation *)

Module Demo.

Definition size : Q := 100.
Definition dist : Q := 5.

Definition centerOf (t : Token) (origin_ : option Position) : Coord :=
  match origin_ with
  | Some o => (pos_x o + width t * size / 2, pos_y o + width t * size / 2)
  | None => (x t + width t * size / 2, y t + width t * size / 2)
  end.

Definition cellOf (c : Coord) : Coord :=
  (inject_Z (Qfloor (fst c / size)), inject_Z (Qfloor (snd c / size))).

(** The cells under a token whose width is a whole number of cells. *)
Definition cellsOf (t : Token) (origin_ : option Position) : list Coord :=
  let corner := match origin_ with
                | Some o => cellOf (pos_x o, pos_y o)
                | None => cellOf (x t, y t)
                end in
  let n := Z.to_nat (Qfloor (width t)) in
  flat_map (fun i => map (fun j => (fst corner + inject_Z (Z.of_nat i),
                                    snd corner + inject_Z (Z.of_nat j)))
                         (seq 0 n))
           (seq 0 n).

(** Distance in grid units with equidistant diagonals; on the points of
    one row it is the straight-line distance. *)
Definition measure (a b : ElevatedPoint) : Q :=
  (dist / size)
  * Qmax (Qabs (fst (pt a) - fst (pt b))) (Qabs (snd (pt a) - snd (pt b)))
  + Qabs (pt_elevation a - pt_elevation b).

(** A wall along the line [x = 1000], blocking movement between its sides. *)
Definition wall (a b : ElevatedPoint) : bool :=
  (Qle_bool (fst (pt a)) 1000 && Qle_bool 1000 (fst (pt b)))
  || (Qle_bool (fst (pt b)) 1000 && Qle_bool 1000 (fst (pt a))).

Definition backends (ty : string) : option (ElevatedPoint -> ElevatedPoint -> bool) :=
  if String.eqb ty "move" then Some wall else None.

Definition inRect (r : Rect) (c : Coord) : bool :=
  Qle_bool (rect_x r) (fst c) && Qle_bool (fst c) (rect_x r + rect_w r)
  && Qle_bool (rect_y r) (snd c) && Qle_bool (snd c) (rect_y r + rect_h r).

Definition objects (ts : list Token) (r : Rect) : list Token :=
  filter (fun t => inRect r (centerOf t None)) ts.

(** A compiler knowing four script bodies. *)
Definition compile (params : list string) (body : string) : Compiled :=
  if String.eqb body "return Boolean(true);"
  then Code (fun _ => Returned (JsBool true))
  else if String.eqb body "return Boolean(false);"
  then Code (fun _ => Returned (JsBool false))
  else if String.eqb body "return Boolean(actor.missing.field);"
  then Code (fun _ => Threw (TypeError "actor.missing is undefined"))
  else CompileError (SyntaxError body).

(** A roller for formulas that name one roll-data entry. *)
Definition roll (formula : string) (data : RollData) : Q :=
  match find (fun p => String.eqb (fst p) formula) data with
  | Some p => snd p
  | None => 0
  end.

Definition host (gridless : bool) : Host :=
  mkHost gridless dist size
         (fun c => if gridless then c
                   else (fst c * size + size / 2, snd c * size + size / 2))
         measure centerOf cellsOf
         (fun t => width t * size / 2)
         (fun t => centerOf t None)
         backends objects compile roll (@js_sort Token).

Definition stopped (px : Q) : Movement :=
  mkMovement "stopped" None (mkPosition px 0 0).

(** A token of width one standing on the row [y = 0]. *)
Definition tokenAt (id actor : string) (px : Q) (disp : Z) : Token :=
  mkToken id (Some actor) px 0 0 1 disp false (stopped px).

Definition auraSystem (radius : Q) (scr : option string)
           (formula : option string) : AuraSystem :=
  mkAuraSystem radius 0 [] scr false "" formula false.

Definition aura (id nm owner : string) (sys : AuraSystem) (off : bool) : Effect :=
  mkEffect id nm aura_type None false off false owner sys.

Definition applied (id nm holder src : string) : Effect :=
  mkEffect id nm "base" (Some src) true false false holder
           (auraSystem 0 None None).

Definition world (acts : list Actor) (toks : list Token) : World :=
  mkWorld acts toks "user1" (Some "gm") true.

Definition start (w : World) : St := mkSt w false [].

(** *** Points and tokens used below *)

Definition pWest : ElevatedPoint := mkPoint (900, 0) 0.
Definition pEast : ElevatedPoint := mkPoint (1100, 0) 0.
Definition pNear : ElevatedPoint := mkPoint (700, 0) 0.

(** Two overlapping tokens, forty pixels apart. *)
Definition tokA : Token := tokenAt "A" "Actor.a" 0 1.
Definition tokB : Token := tokenAt "B" "Actor.b" 40 (-1).

(** A token two cells wide and a token three cells to its right. *)
Definition tokWide : Token :=
  mkToken "W" (Some "Actor.w") 0 0 0 2 1 false (stopped 0).
Definition tokFar : Token := tokenAt "F" "Actor.f" 400 1.

(** *** A source and a candidate, two hundred pixels apart *)

Definition tokSrc : Token := tokenAt "S" "Actor.a" 0 1.
Definition tokCand : Token := tokenAt "C" "Actor.b" 200 (-1).
(** A token whose actor is missing. *)
Definition tokGhost : Token :=
  mkToken "G" None 100 0 0 1 0 false (stopped 100).

Definition auraOf (scr : option string) : Effect :=
  aura "Actor.a.ActiveEffect.bless" "Bless" "Actor.a"
       (auraSystem 30 scr None) false.

(** The source's aura carries the conditional script [scr]. *)
Definition scriptWorld (scr : option string) : World :=
  world [mkActor "Actor.a" "Paladin" [auraOf scr] [];
         mkActor "Actor.b" "Goblin" [] []]
        [tokSrc; tokCand; tokGhost].

(** The same scene when no GM is connected. *)
Definition noGmWorld : World :=
  mkWorld (actors (scriptWorld None)) (tokens (scriptWorld None))
          "user1" None true.

(** *** Three emitters of "Bless" and an actor with two tokens *)

Definition bless (owner : string) (formula : option string) : Effect :=
  aura (owner ++ ".ActiveEffect.bless") "Bless" owner
       (auraSystem 30 None formula) false.


Definition tokP1 : Token := tokenAt "P1" "Actor.p1" 100 1.
Definition tokP2 : Token := tokenAt "P2" "Actor.p2" 0 1.


(** *** A disabled source whose clones are still on the scene *)

Definition blessOff : Effect :=
  aura "Actor.a.ActiveEffect.bless" "Bless" "Actor.a"
       (auraSystem 30 None None) true.

Definition selfClone : Effect :=
  applied "Actor.a.ActiveEffect.self" "Bless" "Actor.a"
          "Actor.a.ActiveEffect.bless".

Definition candClone : Effect :=
  applied "Actor.b.ActiveEffect.clone" "Bless" "Actor.b"
          "Actor.a.ActiveEffect.bless".

Definition disabledWorld : World :=
  world [mkActor "Actor.a" "Paladin" [blessOff; selfClone] [];
         mkActor "Actor.b" "Goblin" [candClone] []]
        [tokSrc; tokCand].

Definition disabling : EffectUpdates := mkEffectUpdates (Some true) false.

(** *** A token in the middle of a move *)

Definition blessNear (id : string) (off : bool) : Effect :=
  aura id "Bless" "Actor.m" (auraSystem 10 None None) off.

Definition lingering : Effect :=
  applied "Actor.t.ActiveEffect.linger" "Bless" "Actor.t"
          "Actor.m.ActiveEffect.old".

(** The mover stands at [x = 200], with forty units still to go. *)
Definition tokMover : Token :=
  mkToken "M" (Some "Actor.m") 200 0 0 1 1 false
          (mkMovement "pending" (Some 40) (mkPosition 1000 0 0)).

Definition tokTarget : Token := tokenAt "T" "Actor.t" 300 1.

(** The host before the animation: the mover's placeable is still where
    the move started, at [from]. *)
Definition hostBefore (from : Position) : Host :=
  mkHost true dist size (fun c => c) measure centerOf cellsOf
         (fun t => width t * size / 2)
         (fun t => centerOf t (if String.eqb (token_id t) "M"
                               then Some from else None))
         backends objects compile roll (@js_sort Token).

(** The mover's aura is [Actor.m.ActiveEffect.bless]; its disabled
    namesake [Actor.m.ActiveEffect.old] left an effect on the target. *)
Definition moveWorld : World :=
  world [mkActor "Actor.m" "Cleric"
                 [blessNear "Actor.m.ActiveEffect.bless" false;
                  blessNear "Actor.m.ActiveEffect.old" true] [];
         mkActor "Actor.t" "Squire" [lingering] []]
        [tokMover; tokTarget].

(** The move of [tokMover] began far to the left. *)
Definition farOrigin : Position := mkPosition (-2000) 0 0.

(** *** A token that has walked away from the holder of its aura *)

Definition tokLeaver : Token :=
  mkToken "M" (Some "Actor.m") 2000 0 0 1 1 false
          (mkMovement "pending" (Some 40) (mkPosition 3000 0 0)).

Definition nearOrigin : Position := mkPosition 200 0 0.

Definition leftClone : Effect :=
  applied "Actor.t.ActiveEffect.clone" "Bless" "Actor.t"
          "Actor.m.ActiveEffect.bless".

Definition leaveWorld : World :=
  world [mkActor "Actor.m" "Cleric"
                 [blessNear "Actor.m.ActiveEffect.bless" false] [];
         mkActor "Actor.t" "Squire" [leftClone] []]
        [tokLeaver; tokTarget].

(** *** A candidate that already holds the source's aura *)

Definition heldClone : Effect :=
  applied "Actor.b.ActiveEffect.held" "Bless" "Actor.b"
          "Actor.a.ActiveEffect.bless".

Definition heldWorld : World :=
  world [mkActor "Actor.a" "Paladin" [auraOf None] [];
         mkActor "Actor.b" "Goblin" [heldClone] []]
        [tokSrc; tokCand].

(** A token that has just been put on the scene near the candidate. *)
Definition tokNew : Token := tokenAt "N" "Actor.a" 100 1.

(** *** A candidate in range of an active aura, holding a clone of a
    disabled one *)

Definition shieldOff : Effect :=
  aura "Actor.a.ActiveEffect.shield" "Shield" "Actor.a"
       (auraSystem 30 None None) true.

Definition shieldClone : Effect :=
  applied "Actor.b.ActiveEffect.shield" "Shield" "Actor.b"
          "Actor.a.ActiveEffect.shield".

Definition mixedWorld : World :=
  world [mkActor "Actor.a" "Paladin" [auraOf (Some "true"); shieldOff] [];
         mkActor "Actor.b" "Goblin" [shieldClone] []]
        [tokSrc; tokCand; tokGhost].

End Demo.

(* ================================================================== *)
(** ** Sample sheets, scenes and requests *)

Module Samples.

Definition part (file : string) : HandlebarsTemplatePart := mkPart file [].

(** The parts of a configuration sheet, the footer last. *)
Definition sheetParts : JsObject HandlebarsTemplatePart :=
  [("header", part "header.hbs"); ("tabs", part "tabs.hbs");
   ("details", part "details.hbs"); ("changes", part "changes.hbs");
   ("footer", part "footer.hbs")].

Definition sheetTabs : JsObject TabGroup :=
  [("sheet", mkTabGroup (Some [mkTab "details" (Some "fa-solid fa-book") [];
                               mkTab "changes" (Some "fa-solid fa-gears") []])
                        [("initial", "details")])].

(** Two neutral tokens; the first carries an aura for allies. *)
Definition friendlyAura : Effect :=
  Demo.aura "Actor.a.ActiveEffect.guard" "Guard" "Actor.a"
            (mkAuraSystem 30 1 [] None false "" None false) false.

Definition neutralSrc : Token := Demo.tokenAt "S" "Actor.a" 0 0.
Definition neutralCand : Token := Demo.tokenAt "C" "Actor.b" 200 0.

Definition neutralWorld : World :=
  Demo.world [mkActor "Actor.a" "Paladin" [friendlyAura] [];
              mkActor "Actor.b" "Goblin" [] []]
             [neutralSrc; neutralCand].

(** Two emitters of "Bless", neither with a best formula. *)
Definition plainWorld : World :=
  Demo.world [mkActor "Actor.p1" "Cleric" [Demo.bless "Actor.p1" None] [];
              mkActor "Actor.p2" "Acolyte" [Demo.bless "Actor.p2" None] []]
             [Demo.tokP1; Demo.tokP2].

(** A suppressed aura marked "disable on hidden", and its clone. *)
Definition veil : Effect :=
  mkEffect "Actor.a.ActiveEffect.veil" "Veil" aura_type None false false true
           "Actor.a" (mkAuraSystem 30 0 [] None false "" None true).

Definition veilClone : Effect :=
  Demo.applied "Actor.b.ActiveEffect.veil" "Veil" "Actor.b"
               "Actor.a.ActiveEffect.veil".

Definition hiddenWorld : World :=
  Demo.world [mkActor "Actor.a" "Paladin" [veil] [];
              mkActor "Actor.b" "Goblin" [veilClone] []]
             [Demo.tokSrc; Demo.tokCand].

Definition hiding : TokenUpdates := mkTokenUpdates (Some true) false false false.




(** An applied effect that bears a name every object inherits. *)
Definition namedClone : Effect :=
  Demo.applied "Actor.b.ActiveEffect.held" "constructor" "Actor.b"
               "Actor.a.ActiveEffect.bless".

End Samples.
(* ================================================================== *)
(** * Properties *)

(* ------------------------------------------------------------------ *)
(** ** Numbers *)

Lemma leb_refl (a : Num.t) : Num.leb a a = true.
Proof.
  destruct a as [q|]; simpl; [|reflexivity].
  apply Qle_bool_iff. lra.
Qed.

Lemma leb_trans (a b c : Num.t) :
  Num.leb a b = true -> Num.leb b c = true -> Num.leb a c = true.
Proof.
  destruct a as [p|], b as [q|], c as [r|]; simpl; try congruence.
  rewrite !Qle_bool_iff. lra.
Qed.

Lemma leb_total (a b : Num.t) : Num.leb a b = false -> Num.leb b a = true.
Proof.
  destruct a as [p|], b as [q|]; simpl; try congruence.
  intros Hf. apply Qle_bool_iff.
  destruct (Qlt_le_dec q p) as [Hlt|Hle]; [lra|].
  apply Qle_bool_iff in Hle. congruence.
Qed.

Lemma ltb_infinity (r : Q) : Num.ltb (Num.Fin r) Num.Infinity = true.
Proof. reflexivity. Qed.

Lemma leb_infinity (r : Q) : Num.leb Num.Infinity (Num.Fin r) = false.
Proof. reflexivity. Qed.

Lemma min_cons (a : Num.t) (l : list Num.t) :
  Num.min (a :: l) = if Num.leb a (Num.min l) then a else Num.min l.
Proof. reflexivity. Qed.

Lemma min_le (l : list Num.t) (d : Num.t) :
  In d l -> Num.leb (Num.min l) d = true.
Proof.
  induction l as [|a l IH]; [simpl; tauto|].
  rewrite min_cons. intros [->|Hin].
  - destruct (Num.leb d (Num.min l)) eqn:E.
    + apply leb_refl.
    + now apply leb_total.
  - specialize (IH Hin).
    destruct (Num.leb a (Num.min l)) eqn:E; [|exact IH].
    eapply leb_trans; eauto.
Qed.

Lemma min_attained (l : list Num.t) :
  l <> [] -> In (Num.min l) l.
Proof.
  induction l as [|a l IH]; [congruence|]. intros _.
  rewrite min_cons.
  destruct (Num.leb a (Num.min l)) eqn:E; [now left|].
  right. apply IH. intros ->. simpl in E.
  destruct a; discriminate.
Qed.

Lemma min_nil : Num.min [] = Num.Infinity.
Proof. reflexivity. Qed.

Lemma equiv_sub_zero (a : Num.t) (z : Q) : z == 0 -> Num.equiv (Num.sub a z) a.
Proof.
  destruct a as [q|]; simpl; [|trivial]. intros Hz. rewrite Hz. ring.
Qed.

Lemma equiv_leb (a b c : Num.t) :
  Num.equiv a b -> Num.leb b c = true -> Num.leb a c = true.
Proof.
  destruct a as [p|], b as [q|], c as [r|]; simpl; try tauto; try congruence.
  intros He. rewrite !Qle_bool_iff. rewrite He. tauto.
Qed.

(* ------------------------------------------------------------------ *)
(** ** Geometry *)

Lemma getDistance_obstructed (H : Host) (a b : ElevatedPoint) (types : list string) :
  obstructed H a b types -> getDistance H a b types = Num.Infinity.
Proof.
  intros (ty & test & Hin & Hb & Ht).
  induction types as [|ty' types IH]; simpl in *; [tauto|].
  destruct Hin as [->|Hin].
  - now rewrite Hb, Ht.
  - destruct (polygonBackends H ty') as [test'|]; [|now apply IH].
    destruct (test' a b); [reflexivity|now apply IH].
Qed.

Lemma getDistance_clear (H : Host) (a b : ElevatedPoint) (types : list string) :
  ~ obstructed H a b types ->
  getDistance H a b types = Num.Fin (measurePath H a b).
Proof.
  induction types as [|ty types IH]; simpl; intros Hn; [reflexivity|].
  destruct (polygonBackends H ty) as [test|] eqn:Hb.
  - destruct (test a b) eqn:Ht.
    + exfalso. apply Hn. exists ty, test. simpl. tauto.
    + apply IH. intros (ty' & test' & Hin & Hb' & Ht').
      apply Hn. exists ty', test'. simpl. tauto.
  - apply IH. intros (ty' & test' & Hin & Hb' & Ht').
    apply Hn. exists ty', test'. simpl. tauto.
Qed.

(** C6.  Collision implies infinite distance: when a listed collision type
    reports an obstruction between the two points, [getDistance] is
    [Infinity], which is above every finite radius in both comparisons the
    engine makes (so the effect is removed, or not added); otherwise the
    result is the grid's measured path distance. *)
Theorem getDistance_collision_infinite
        (H : Host) (a b : ElevatedPoint) (types : list string) :
  (obstructed H a b types ->
     getDistance H a b types = Num.Infinity
     /\ forall radius : Q,
          Num.ltb (Num.Fin radius) (getDistance H a b types) = true
          /\ Num.leb (getDistance H a b types) (Num.Fin radius) = false)
  /\ (~ obstructed H a b types ->
        getDistance H a b types = Num.Fin (measurePath H a b)).
Proof.
  split.
  - intros Hobs. rewrite (getDistance_obstructed _ _ _ _ Hobs).
    split; [reflexivity|]. intros radius. split; reflexivity.
  - apply getDistance_clear.
Qed.

Lemma getDistance_witness_clear :
  ~ obstructed (Demo.host true) Demo.pWest Demo.pNear ["move"].
Proof.
  intros (ty & test & Hin & Hb & Ht).
  destruct Hin as [<-|[]]. vm_compute in Hb.
  injection Hb as <-. vm_compute in Ht. discriminate.
Defined.

Lemma getDistance_collision_infinite_witness :
  getDistance (Demo.host true) Demo.pWest Demo.pEast ["move"] = Num.Infinity
  /\ getDistance (Demo.host true) Demo.pWest Demo.pNear ["move"]
     = Num.Fin (Demo.measure Demo.pWest Demo.pNear).
Proof.
  split.
  - apply (proj1 (getDistance_collision_infinite
                    (Demo.host true) Demo.pWest Demo.pEast ["move"])).
    exists "move", Demo.wall. repeat split; simpl; auto.
  - apply (proj2 (getDistance_collision_infinite
                    (Demo.host true) Demo.pWest Demo.pNear ["move"])).
    exact getDistance_witness_clear.
Defined.

Lemma getDistance_cases (H : Host) (a b : ElevatedPoint) (types : list string) :
  getDistance H a b types = Num.Infinity
  \/ getDistance H a b types = Num.Fin (measurePath H a b).
Proof.
  induction types as [|ty types IH]; simpl; [now right|].
  destruct (polygonBackends H ty) as [test|]; [|exact IH].
  destruct (test a b); [now left|exact IH].
Qed.

Lemma leb_any_infinity (a : Num.t) : Num.leb a Num.Infinity = true.
Proof. now destruct a. Qed.

Lemma min_single (d : Num.t) : Num.min [d] = d.
Proof.
  rewrite min_cons, min_nil. now rewrite leb_any_infinity.
Qed.

Lemma pairDistances_in (H : Host) (A B : Token) (origin_ : option Position)
      (types : list string) (oa ob : Coord) :
  In oa (tokenOffsets H A origin_) -> In ob (tokenOffsets H B None) ->
  In (getDistance H
        (mkPoint (grid_getCenterPoint H oa) (tokenAElevation A origin_))
        (mkPoint (grid_getCenterPoint H ob) (elevation B)) types)
     (pairDistances H A B origin_ types).
Proof.
  intros Ha Hb. unfold pairDistances.
  apply in_flat_map. exists oa. split; [exact Ha|].
  apply in_map_iff. exists ob. split; [reflexivity|exact Hb].
Qed.

Lemma pairDistances_inv (H : Host) (A B : Token) (origin_ : option Position)
      (types : list string) (d : Num.t) :
  In d (pairDistances H A B origin_ types) ->
  exists oa ob,
    In oa (tokenOffsets H A origin_) /\ In ob (tokenOffsets H B None)
    /\ d = getDistance H
             (mkPoint (grid_getCenterPoint H oa) (tokenAElevation A origin_))
             (mkPoint (grid_getCenterPoint H ob) (elevation B)) types.
Proof.
  unfold pairDistances. intros Hin.
  apply in_flat_map in Hin. destruct Hin as (oa & Ha & Hin).
  apply in_map_iff in Hin. destruct Hin as (ob & Heq & Hb).
  exists oa, ob. auto.
Qed.

(** C5, as the code has it.  On a gridless scene the token-to-token
    distance is the measured centre-to-centre distance minus the first
    token's external radius in grid units, hence never below minus that
    correction when the grid measures non-negative distances.  On a gridded
    scene it is the least distance over all pairs of occupied cell centres
    (the first token's elevation taken from the origin override when there
    is one), with no correction; it is [Infinity] when there is no pair. *)
Theorem tokenToTokenDistance_spec
        (H : Host) (A B : Token) (origin_ : option Position)
        (types : list string) :
  let cell := fun (o : Coord) (e : Q) => mkPoint (grid_getCenterPoint H o) e in
  let elevA := match origin_ with
               | Some o => pos_elevation o
               | None => elevation A
               end in
  let result := getTokenToTokenDistance H A B origin_ types in
  (isGridless H = true ->
     let adjust := grid_distance H / grid_size H * externalRadius H A in
     result = Num.sub (getDistance H (cell (getCenterPoint H A origin_) elevA)
                                     (cell (getCenterPoint H B None) (elevation B))
                                     types)
                      adjust
     /\ ((forall a b, 0 <= measurePath H a b) ->
         Num.leb (Num.Fin (0 - adjust)) result = true))
  /\ (isGridless H = false ->
      (forall oa ob,
          In oa (getOccupiedGridSpaceOffsets H A origin_) ->
          In ob (getOccupiedGridSpaceOffsets H B None) ->
          Num.leb result
                  (getDistance H (cell oa elevA) (cell ob (elevation B)) types)
          = true)
      /\ (getOccupiedGridSpaceOffsets H A origin_ = []
          \/ getOccupiedGridSpaceOffsets H B None = [] ->
          result = Num.Infinity)
      /\ (getOccupiedGridSpaceOffsets H A origin_ <> [] ->
          getOccupiedGridSpaceOffsets H B None <> [] ->
          exists oa ob,
            In oa (getOccupiedGridSpaceOffsets H A origin_)
            /\ In ob (getOccupiedGridSpaceOffsets H B None)
            /\ Num.equiv result
                 (getDistance H (cell oa elevA) (cell ob (elevation B)) types))).
Proof.
  intros cell elevA result. split.
  - intros Hg adjust.
    assert (Hres : result
                   = Num.sub (getDistance H (cell (getCenterPoint H A origin_) elevA)
                                (cell (getCenterPoint H B None) (elevation B)) types)
                             adjust).
    { unfold result, getTokenToTokenDistance, pairDistances, tokenOffsets,
        externalAdjust. rewrite Hg. cbn [flat_map map app].
      rewrite min_single. reflexivity. }
    split; [exact Hres|].
    intros Hpos. rewrite Hres.
    destruct (getDistance_cases H (cell (getCenterPoint H A origin_) elevA)
                (cell (getCenterPoint H B None) (elevation B)) types) as [->| ->];
      simpl; [reflexivity|].
    apply Qle_bool_iff.
    specialize (Hpos (cell (getCenterPoint H A origin_) elevA)
                     (cell (getCenterPoint H B None) (elevation B))). lra.
  - intros Hg.
    assert (Hz : externalAdjust H A == 0).
    { unfold externalAdjust. rewrite Hg. ring. }
    assert (Heq : Num.equiv result
                    (Num.min (pairDistances H A B origin_ types))).
    { apply equiv_sub_zero, Hz. }
    assert (HoA : tokenOffsets H A origin_
                  = getOccupiedGridSpaceOffsets H A origin_).
    { unfold tokenOffsets. now rewrite Hg. }
    assert (HoB : tokenOffsets H B None
                  = getOccupiedGridSpaceOffsets H B None).
    { unfold tokenOffsets. now rewrite Hg. }
    repeat split.
    + intros oa ob Ha Hb. eapply equiv_leb; [exact Heq|].
      apply min_le. apply (pairDistances_in H A B origin_ types oa ob).
      * now rewrite HoA.
      * now rewrite HoB.
    + intros Hempty. unfold result, getTokenToTokenDistance.
      assert (Hnil : pairDistances H A B origin_ types = []).
      { unfold pairDistances. rewrite HoA, HoB.
        destruct Hempty as [-> | ->]; [reflexivity|].
        clear. induction (getOccupiedGridSpaceOffsets H A origin_) as [|o l IH];
          [reflexivity|exact IH]. }
      rewrite Hnil. reflexivity.
    + intros HA HB.
      assert (Hne : pairDistances H A B origin_ types <> []).
      { unfold pairDistances. rewrite HoA, HoB.
        destruct (getOccupiedGridSpaceOffsets H A origin_) as [|oa la];
          [congruence|].
        destruct (getOccupiedGridSpaceOffsets H B None) as [|ob lb];
          [congruence|]. simpl. discriminate. }
      apply min_attained in Hne.
      apply pairDistances_inv in Hne.
      destruct Hne as (oa & ob & Ha & Hb & Hd).
      exists oa, ob. rewrite <- HoA, <- HoB. repeat split; auto.
      unfold cell, elevA. fold (tokenAElevation A origin_).
      rewrite <- Hd. exact Heq.
Qed.

Lemma demo_measure_nonneg (a b : ElevatedPoint) : 0 <= Demo.measure a b.
Proof.
  unfold Demo.measure.
  assert (H1 : 0 <= Qabs (fst (pt a) - fst (pt b))) by apply Qabs_nonneg.
  assert (H2 : 0 <= Qabs (pt_elevation a - pt_elevation b)) by apply Qabs_nonneg.
  assert (H3 : Qabs (fst (pt a) - fst (pt b))
               <= Qmax (Qabs (fst (pt a) - fst (pt b)))
                       (Qabs (snd (pt a) - snd (pt b)))) by apply Q.le_max_l.
  assert (H4 : 0 <= Demo.dist / Demo.size) by (vm_compute; discriminate).
  assert (H5 : 0 <= Demo.dist / Demo.size
                    * Qmax (Qabs (fst (pt a) - fst (pt b)))
                           (Qabs (snd (pt a) - snd (pt b)))).
  { apply Qmult_le_0_compat; [exact H4|lra]. }
  lra.
Qed.

Lemma tokenToTokenDistance_spec_witness :
  (getTokenToTokenDistance (Demo.host true) Demo.tokA Demo.tokB None []
   = Num.sub (getDistance (Demo.host true)
                (mkPoint (Demo.centerOf Demo.tokA None) 0)
                (mkPoint (Demo.centerOf Demo.tokB None) 0) [])
             (Demo.dist / Demo.size * (1 * Demo.size / 2))
   /\ Num.leb (Num.Fin (0 - Demo.dist / Demo.size * (1 * Demo.size / 2)))
              (getTokenToTokenDistance (Demo.host true) Demo.tokA Demo.tokB
                                       None []) = true)
  /\ Num.leb (getTokenToTokenDistance (Demo.host false) Demo.tokWide Demo.tokFar
                                      None [])
             (getDistance (Demo.host false)
                (mkPoint (150, 50) 0) (mkPoint (450, 50) 0) []) = true.
Proof.
  split.
  - pose proof (proj1 (tokenToTokenDistance_spec
                         (Demo.host true) Demo.tokA Demo.tokB None [])
                      eq_refl) as [Heq Hlow].
    split; [exact Heq|].
    apply Hlow. exact demo_measure_nonneg.
  - pose proof (proj1 (proj2 (tokenToTokenDistance_spec
                         (Demo.host false) Demo.tokWide Demo.tokFar None [])
                      eq_refl)) as Hmin.
    specialize (Hmin (1, 0) (4, 0)).
    cbv zeta in Hmin.
    assert (HA : In (1, 0) (getOccupiedGridSpaceOffsets (Demo.host false)
                              Demo.tokWide None)).
    { vm_compute. right. right. left. reflexivity. }
    assert (HB : In (4, 0) (getOccupiedGridSpaceOffsets (Demo.host false)
                              Demo.tokFar None)).
    { vm_compute. left. reflexivity. }
    specialize (Hmin HA HB).
    vm_compute. vm_compute in Hmin. exact Hmin.
Defined.

(** C5, as stated, fails: two overlapping tokens on a gridless scene are at
    a negative token-to-token distance (here 2 - 2.5). *)
Lemma tokenToTokenDistance_negative :
  isGridless (Demo.host true) = true
  /\ Num.equiv (getTokenToTokenDistance (Demo.host true) Demo.tokA Demo.tokB
                                        None [])
               (Num.Fin (2 - 5 / 2))
  /\ Num.leb (Num.Fin 0)
             (getTokenToTokenDistance (Demo.host true) Demo.tokA Demo.tokB
                                      None []) = false.
Proof. vm_compute. repeat split. Qed.

(* ------------------------------------------------------------------ *)
(** ** Predicate evaluator *)

Section PredicateFacts.

Variable H : Host.
Variables (w : World) (sourceToken token : Token) (effect : Effect).

Let script_ : string :=
  match script (system effect) with
  | Some s => s
  | None => ""
  end.

Lemma executeScript_actorless :
  token_actor w token = None ->
  executeScript H w sourceToken token effect
  = (Threw (TypeError "actor.getRollData"), []).
Proof. unfold executeScript. now intros ->. Qed.

Lemma executeScript_blank (actor : Actor) :
  token_actor w token = Some actor ->
  String.length (trim script_) = 0%nat ->
  executeScript H w sourceToken token effect = (Returned (JsBool true), []).
Proof.
  unfold executeScript, script_. intros -> ->. reflexivity.
Qed.

Lemma executeScript_compile_error (actor : Actor) (e : JsError) :
  token_actor w token = Some actor ->
  String.length (trim script_) <> 0%nat ->
  js_Function H script_params ("return Boolean(" ++ script_ ++ ");")
  = CompileError e ->
  executeScript H w sourceToken token effect = (Threw e, []).
Proof.
  unfold executeScript, script_. intros -> Hlen ->.
  apply Nat.eqb_neq in Hlen. now rewrite Hlen.
Qed.

Lemma executeScript_value (actor : Actor) (f : ScriptScope -> Outcome JsValue)
      (v : JsValue) :
  token_actor w token = Some actor ->
  String.length (trim script_) <> 0%nat ->
  js_Function H script_params ("return Boolean(" ++ script_ ++ ");") = Code f ->
  f (mkScope actor token sourceToken (rollData actor)) = Returned v ->
  executeScript H w sourceToken token effect = (Returned v, []).
Proof.
  unfold executeScript, script_. intros -> Hlen -> ->.
  apply Nat.eqb_neq in Hlen. now rewrite Hlen.
Qed.

(** A run-time error of the script is caught, logged with the source
    actor, the effect name and the error, and answered by [true]. *)
Lemma executeScript_runtime_error (actor sourceActor : Actor)
      (f : ScriptScope -> Outcome JsValue) (error : JsError) :
  token_actor w token = Some actor ->
  token_actor w sourceToken = Some sourceActor ->
  String.length (trim script_) <> 0%nat ->
  js_Function H script_params ("return Boolean(" ++ script_ ++ ");") = Code f ->
  f (mkScope actor token sourceToken (rollData actor)) = Threw error ->
  executeScript H w sourceToken token effect
  = (Returned (JsBool true),
     [mkConsole script_error_key (actor_name sourceActor) (name effect) error]).
Proof.
  unfold executeScript, script_. intros -> Hsrc Hlen -> ->.
  apply Nat.eqb_neq in Hlen. now rewrite Hlen, Hsrc.
Qed.

(** With both actors present and a script that is blank or compiles, the
    call returns, and its callers get a condition. *)
Lemma executeScript_returns (actor sourceActor : Actor) :
  token_actor w token = Some actor ->
  token_actor w sourceToken = Some sourceActor ->
  compiles H effect ->
  exists b, runScript H w sourceToken token effect = Returned b.
Proof.
  intros Ha Hs Hc. unfold runScript.
  destruct (Nat.eq_dec (String.length (trim script_)) 0) as [Hz|Hnz].
  - rewrite (executeScript_blank actor Ha Hz). now exists true.
  - destruct Hc as [Hz|[f Hf]]; [contradiction|].
    destruct (f (mkScope actor token sourceToken (rollData actor)))
      as [v|error] eqn:Hrun.
    + rewrite (executeScript_value actor f v Ha Hnz Hf Hrun).
      now exists (truthy v).
    + rewrite (executeScript_runtime_error actor sourceActor f error
                 Ha Hs Hnz Hf Hrun). now exists true.
Qed.

End PredicateFacts.

Lemma getNearbyTokens_has_actor (H : Host) (w : World) (source : Token)
      (radius : Q) (origin_ : option Position) (disp : Z)
      (types : list string) (t : Token) :
  In t (getNearbyTokens H w source radius origin_ disp types) ->
  exists actor, token_actor w t = Some actor.
Proof.
  unfold getNearbyTokens. intros Hin.
  apply filter_In in Hin. destruct Hin as [Hin _].
  apply filter_In in Hin. destruct Hin as [_ Hkeep].
  destruct (token_actor w t) as [a|]; [now exists a|discriminate].
Qed.

(** C8, at the failing input.  A conditional script that does not compile
    makes [executeScript] throw: the [Function] constructor runs before the
    [try], so the syntax error reaches the caller and nothing is logged. *)
Theorem executeScript_syntax_error_escapes :
  executeScript (Demo.host true) (Demo.scriptWorld (Some "("))
                Demo.tokSrc Demo.tokCand (Demo.auraOf (Some "("))
  = (Threw (SyntaxError "return Boolean(();"), []).
Proof. reflexivity. Qed.

(** C10, at the failing input.  The candidate is one that [getNearbyTokens]
    returned, so it has an actor and its roll data are read without harm;
    the script of the aura does not compile, and the [Function] constructor,
    which stands before the [try], throws: an error path other than the
    catch block, on which nothing is logged. *)
Theorem executeScript_candidate_syntax_error :
  In Demo.tokCand
     (getNearbyTokens (Demo.host true) (Demo.scriptWorld (Some "("))
                      Demo.tokSrc 30 None 0 [])
  /\ token_actor (Demo.scriptWorld (Some "(")) Demo.tokCand
     = Some (mkActor "Actor.b" "Goblin" [] [])
  /\ executeScript (Demo.host true) (Demo.scriptWorld (Some "("))
                   Demo.tokSrc Demo.tokCand (Demo.auraOf (Some "("))
     = (Threw (SyntaxError "return Boolean(();"), []).
Proof.
  split; [|split].
  - vm_compute. right. left. reflexivity.
  - reflexivity.
  - reflexivity.
Qed.


(* ------------------------------------------------------------------ *)
(** ** The warning about the missing GM *)

Section Preservation.

Variable P : St -> Prop.

Lemma preserves_ret {A} (a : A) : preserves P (ret a).
Proof. intros s Hs. exact Hs. Qed.

Lemma preserves_lift {A} (o : Outcome A) : preserves P (lift o).
Proof. intros s Hs. exact Hs. Qed.

Lemma preserves_getWorld : preserves P getWorld.
Proof. intros s Hs. exact Hs. Qed.

Lemma preserves_bind {A B} (m : M A) (f : A -> M B) :
  preserves P m -> (forall a, preserves P (f a)) -> preserves P (bind m f).
Proof.
  intros Hm Hf s Hs. unfold bind.
  specialize (Hm s Hs). destruct (m s) as [[a|e] s']; simpl in *.
  - now apply Hf.
  - exact Hm.
Qed.

Lemma preserves_mfold {A S} (body : S -> A -> M S) (l : list A) :
  (forall acc a, preserves P (body acc a)) ->
  forall acc, preserves P (mfold body l acc).
Proof.
  intros Hbody. induction l as [|a l IH]; intros acc; simpl.
  - apply preserves_ret.
  - apply preserves_bind; [apply Hbody|exact IH].
Qed.

End Preservation.

Lemma warnings_app (tr tr' : list Event) :
  warnings (tr ++ tr') = (warnings tr + warnings tr')%nat.
Proof. unfold warnings. now rewrite filter_app, length_app. Qed.

Lemma warnedOnce_noActiveGM : preserves warnedOnce noActiveGM.
Proof.
  intros s Hs. unfold noActiveGM, warnedOnce in *.
  destruct (seenWarning s) eqn:Hseen; simpl in *.
  - now rewrite Hseen.
  - rewrite warnings_app. change (warnings [Warned no_gm_key]) with 1%nat. lia.
Qed.

Lemma warnedOnce_queryDelete (GM : Authority) (l : list string) :
  preserves warnedOnce (queryDelete GM l).
Proof.
  intros s Hs. unfold queryDelete, warnedOnce in *.
  destruct (activeGM (world s)); simpl; [|exact Hs].
  rewrite warnings_app. unfold warnings at 2. simpl. lia.
Qed.

Lemma warnedOnce_queryApply (GM : Authority) (by_ : Issuer) (m : ApplyMap) :
  preserves warnedOnce (queryApply GM by_ m).
Proof.
  intros s Hs. unfold queryApply, warnedOnce in *.
  destruct (activeGM (world s)); simpl; [|exact Hs].
  rewrite warnings_app. unfold warnings at 2. simpl. lia.
Qed.

(** Walks through a handler: sequencing, loops, branches, queries. *)
Ltac preserve_step :=
  first
    [ apply preserves_ret
    | apply preserves_lift
    | apply preserves_getWorld
    | apply warnedOnce_noActiveGM
    | apply warnedOnce_queryDelete
    | apply warnedOnce_queryApply
    | apply preserves_bind; [|intros ?]
    | apply preserves_mfold; intros ? ?
    | match goal with
      | |- preserves _ (if ?b then _ else _) => destruct b
      | |- preserves _ (match ?x with _ => _ end) => destruct x
      | |- preserves _ (let (_, _) := ?x in _) => destruct x
      end ].

Ltac preserve := repeat preserve_step.

Section WarnedOnce.

Variable H : Host.
Variable Hpre : Host.
Variable GM : Authority.

Lemma warnedOnce_removeAndReplaceAuras (l : list Effect) :
  preserves warnedOnce (removeAndReplaceAuras H GM l).
Proof. unfold removeAndReplaceAuras. preserve. Qed.

Hint Resolve warnedOnce_removeAndReplaceAuras : core.

Lemma warnedOnce_createToken t u : preserves warnedOnce (createToken H GM t u).
Proof. unfold createToken. preserve. Qed.

Lemma warnedOnce_deleteToken t u : preserves warnedOnce (deleteToken H GM t u).
Proof. unfold deleteToken. preserve; auto. Qed.

Lemma warnedOnce_updateToken t upd u :
  preserves warnedOnce (updateToken H GM t upd u).
Proof. unfold updateToken. preserve; auto. Qed.

Lemma warnedOnce_moveToken t o u :
  preserves warnedOnce (moveToken H Hpre GM t o u).
Proof. unfold moveToken, moveStep. preserve; auto. Qed.

Lemma warnedOnce_addRemoveEffect e u :
  preserves warnedOnce (addRemoveEffect H GM e u).
Proof. unfold addRemoveEffect. preserve; auto. Qed.

Lemma warnedOnce_updateActiveEffect e upd u :
  preserves warnedOnce (updateActiveEffect H GM e upd u).
Proof. unfold updateActiveEffect, reevaluateEffect. preserve; auto. Qed.

Lemma warnedOnce_deleteActiveEffect e u :
  preserves warnedOnce (deleteActiveEffect H GM e u).
Proof. unfold deleteActiveEffect. preserve; auto. Qed.

Lemma warnedOnce_handlers (ev : HookEvent) (h : M unit) :
  In h (handlers H Hpre GM ev) -> preserves warnedOnce h.
Proof.
  destruct ev; simpl; intros Hin;
    repeat (destruct Hin as [<-|Hin]);
    try contradiction;
    auto using warnedOnce_createToken, warnedOnce_deleteToken,
      warnedOnce_updateToken, warnedOnce_moveToken, warnedOnce_addRemoveEffect,
      warnedOnce_updateActiveEffect, warnedOnce_deleteActiveEffect.
Qed.

Lemma warnedOnce_runHandlers (hs : list (M unit)) :
  (forall h, In h hs -> preserves warnedOnce h) ->
  forall s, warnedOnce s -> warnedOnce (runHandlers hs s).
Proof.
  unfold runHandlers. induction hs as [|h hs IH]; intros Hall s Hs; simpl.
  - exact Hs.
  - apply IH.
    + intros h' Hin. apply Hall. now right.
    + apply (Hall h); [now left|exact Hs].
Qed.

Lemma warnedOnce_runSession (steps : list (World * HookEvent)) (s : St) :
  warnedOnce s -> warnedOnce (runSession H Hpre GM steps s).
Proof.
  unfold runSession. revert s.
  induction steps as [|[w ev] steps IH]; intros s Hs; simpl; [exact Hs|].
  apply IH. unfold sessionStep. simpl.
  apply warnedOnce_runHandlers.
  - intros h Hin. now apply (warnedOnce_handlers ev).
  - exact Hs.
Qed.

End WarnedOnce.

Lemma noMutation_refl (s : St) : noMutation s s.
Proof. split; auto. Qed.

Lemma noMutation_noActiveGM (s : St) :
  fst (noActiveGM s) = Returned tt /\ noMutation s (snd (noActiveGM s)).
Proof.
  unfold noActiveGM, noMutation.
  destruct (seenWarning s) eqn:Hseen; simpl; auto 6.
Qed.

(** Runs a handler up to its test of [game.users.activeGM]. *)
Ltac until_gm Hgm :=
  unfold bind, getWorld, ret; cbn [fst snd];
  repeat
    (rewrite ?Hgm;
     match goal with
     | |- fst (noActiveGM ?s) = _ /\ _ => apply noMutation_noActiveGM
     | |- fst (Returned tt, ?s) = _ /\ _ =>
         split; [reflexivity|apply noMutation_refl]
     | |- context [if ?b then _ else _] => destruct b
     | |- context [match ?x with _ => _ end] => destruct x
     end).

Section NoAuthority.

Variable H : Host.
Variable Hpre : Host.
Variable GM : Authority.
Variable s : St.
Hypothesis Hgm : activeGM (world s) = None.

Lemma createToken_without_gm t u :
  fst (createToken H GM t u s) = Returned tt
  /\ noMutation s (snd (createToken H GM t u s)).
Proof. unfold createToken. until_gm Hgm. Qed.

Lemma deleteToken_without_gm t u :
  fst (deleteToken H GM t u s) = Returned tt
  /\ noMutation s (snd (deleteToken H GM t u s)).
Proof. unfold deleteToken. until_gm Hgm. Qed.

Lemma updateToken_without_gm t upd u :
  fst (updateToken H GM t upd u s) = Returned tt
  /\ noMutation s (snd (updateToken H GM t upd u s)).
Proof. unfold updateToken. until_gm Hgm. Qed.

Lemma moveToken_without_gm t o u :
  fst (moveToken H Hpre GM t o u s) = Returned tt
  /\ noMutation s (snd (moveToken H Hpre GM t o u s)).
Proof. unfold moveToken. until_gm Hgm. Qed.

Lemma addRemoveEffect_without_gm e u :
  fst (addRemoveEffect H GM e u s) = Returned tt
  /\ noMutation s (snd (addRemoveEffect H GM e u s)).
Proof. unfold addRemoveEffect. until_gm Hgm. Qed.

Lemma updateActiveEffect_without_gm e upd u :
  fst (updateActiveEffect H GM e upd u s) = Returned tt
  /\ noMutation s (snd (updateActiveEffect H GM e upd u s)).
Proof. unfold updateActiveEffect. until_gm Hgm. Qed.

Lemma deleteActiveEffect_without_gm e u :
  fst (deleteActiveEffect H GM e u s) = Returned tt
  /\ noMutation s (snd (deleteActiveEffect H GM e u s)).
Proof. unfold deleteActiveEffect. until_gm Hgm. Qed.

End NoAuthority.

(** C9.  No-authority behaviour: a handler that runs while there is no
    active GM returns normally, sends no query and leaves every document as
    it was; at most it shows the warning, and over a whole session (any
    sequence of hooks, with any changes of the documents and of the GM's
    presence in between) the warning is shown at most once. *)
Theorem no_authority_no_mutation (H Hpre : Host) (GM : Authority) :
  (forall (ev : HookEvent) (h : M unit) (s : St),
      In h (handlers H Hpre GM ev) ->
      activeGM (world s) = None ->
      fst (h s) = Returned tt /\ noMutation s (snd (h s)))
  /\ (forall (w : World) (steps : list (World * HookEvent)),
         (warnings (trace (runSession H Hpre GM steps (mkSt w false [])))
          <= 1)%nat).
Proof.
  split.
  - intros ev h s Hin Hgm.
    destruct ev; simpl in Hin;
      repeat (destruct Hin as [<-|Hin]); try contradiction;
      auto using createToken_without_gm, deleteToken_without_gm,
        updateToken_without_gm, moveToken_without_gm,
        addRemoveEffect_without_gm, updateActiveEffect_without_gm,
        deleteActiveEffect_without_gm.
  - intros w steps.
    assert (Hstart : warnedOnce (mkSt w false [])).
    { unfold warnedOnce. simpl. unfold warnings. simpl. lia. }
    pose proof (warnedOnce_runSession H Hpre GM steps (mkSt w false []) Hstart)
      as Hinv.
    unfold warnedOnce in Hinv.
    destruct (seenWarning (runSession H Hpre GM steps (mkSt w false []))); lia.
Qed.

Lemma no_authority_no_mutation_witness :
  noMutation (Demo.start Demo.noGmWorld)
             (snd (moveToken (Demo.host true) (Demo.host true) specAuthority
                             Demo.tokSrc None "user1"
                             (Demo.start Demo.noGmWorld)))
  /\ trace (snd (moveToken (Demo.host true) (Demo.host true) specAuthority
                           Demo.tokSrc None "user1"
                           (Demo.start Demo.noGmWorld)))
     = [Warned no_gm_key].
Proof.
  split.
  - apply (proj1 (no_authority_no_mutation (Demo.host true) (Demo.host true)
                                           specAuthority)
                 (MoveToken Demo.tokSrc None "user1")).
    + simpl. left. reflexivity.
    + reflexivity.
  - reflexivity.
Defined.

(* ------------------------------------------------------------------ *)
(** ** Aura registry *)


Lemma partitionAuras_inactive (l : list Effect) (e : Effect) :
  In e (snd (partitionAuras l))
  <-> In e l /\ is_aura e = true /\ active e = false.
Proof.
  unfold active. induction l as [|e' l IH]; simpl; [tauto|].
  destruct (partitionAuras l) as [act inact]. simpl in IH.
  destruct (is_aura e') eqn:Ha; simpl.
  - destruct (negb (disabled e') && negb (isSuppressed e')) eqn:Hact; simpl.
    + rewrite IH. split; [tauto|].
      intros ([<-|Hin] & Haura & Hact'); [congruence|tauto].
    + rewrite IH. split.
      * intros [<-|Hin]; [|tauto]. auto.
      * tauto.
  - rewrite IH. split; [tauto|].
    intros ([<-|Hin] & Haura & Hact'); [congruence|tauto].
Qed.

(* ------------------------------------------------------------------ *)
(** ** Best-of arbiter: the sort *)

Section SortGeneric.

Context {A : Type}.








End SortGeneric.

Section SortFacts.

Context {A : Type}.
Variable key : A -> option Q.








Lemma filter_none {B} (p : B -> bool) (l : list B) :
  (forall c, In c l -> p c = false) -> filter p l = [].
Proof.
  induction l as [|c l IH]; intros Hall; [reflexivity|].
  simpl. rewrite (Hall c (or_introl eq_refl)).
  apply IH. intros d Hd. apply Hall. now right.
Qed.




End SortFacts.

(* ------------------------------------------------------------------ *)
(** ** The insertion sort meets what is promised of [sort] *)

Section InsertionSort.

Context {A : Type}.
Variable cmp : A -> A -> Q.









End InsertionSort.

(* ------------------------------------------------------------------ *)
(** ** Objects used as maps *)

Section ObjectFacts.

Context {V : Type}.

Lemma obj_get_app (key : string) (l1 l2 : JsObject V) :
  obj_get key (l1 ++ l2)
  = match obj_get key l1 with
    | Some v => Some v
    | None => obj_get key l2
    end.
Proof.
  unfold obj_get. induction l1 as [|[k v] l1 IH]; simpl; [reflexivity|].
  destruct (String.eqb k key); [reflexivity|exact IH].
Qed.

Lemma obj_get_set (obj : JsObject V) (key k : string) (v : V) :
  obj_get key (obj_set obj k v)
  = if String.eqb k key then Some v else obj_get key obj.
Proof.
  induction obj as [|[k' old] obj IH]; simpl.
  - unfold obj_get. simpl. now destruct (String.eqb k key).
  - destruct (String.eqb k' k) eqn:Hk.
    + apply String.eqb_eq in Hk. subst k'. unfold obj_get. simpl.
      now destruct (String.eqb k key).
    + unfold obj_get in *. simpl.
      destruct (String.eqb k' key) eqn:Hkey; [|exact IH].
      destruct (String.eqb k key) eqn:Hkk; [|reflexivity].
      apply String.eqb_eq in Hkey, Hkk. subst.
      now rewrite String.eqb_refl in Hk.
Qed.

Lemma obj_get_single (key k : string) (v : V) :
  obj_get key [(k, v)] = if String.eqb k key then Some v else None.
Proof. unfold obj_get. simpl. now destruct (String.eqb k key). Qed.

Lemma obj_get_cons (key k : string) (v : V) (l : JsObject V) :
  obj_get key ((k, v) :: l)
  = if String.eqb k key then Some v else obj_get key l.
Proof. unfold obj_get. simpl. now destruct (String.eqb k key). Qed.

(** After [Object.fromEntries], a key holds the value of its last entry. *)
Lemma fold_set_get (key : string) (l : list (string * V)) :
  forall acc,
    obj_get key (fold_left (fun obj p => obj_set obj (fst p) (snd p)) l acc)
    = match obj_get key (rev l) with
      | Some v => Some v
      | None => obj_get key acc
      end.
Proof.
  induction l as [|[k v] l IH]; intros acc; simpl; [reflexivity|].
  rewrite IH, obj_get_app, obj_get_set.
  destruct (obj_get key (rev l)); [reflexivity|].
  rewrite obj_get_single.
  now destruct (String.eqb k key).
Qed.

Lemma obj_get_in (key : string) (v : V) (l : JsObject V) :
  NoDup (map fst l) -> (obj_get key l = Some v <-> In (key, v) l).
Proof.
  unfold obj_get. induction l as [|[k x] l IH]; simpl; intros Hnd.
  - split; [discriminate|tauto].
  - inversion Hnd as [|? ? Hnotin Hrest]; subst.
    destruct (String.eqb k key) eqn:Hk.
    + apply String.eqb_eq in Hk. subst k. simpl. split.
      * intros [= ->]. now left.
      * intros [[= ->]|Hin]; [reflexivity|].
        exfalso. apply Hnotin. now apply (in_map fst) in Hin.
    + rewrite (IH Hrest). split; [tauto|].
      intros [[= -> ->]|Hin]; [|exact Hin].
      now rewrite String.eqb_refl in Hk.
Qed.

Lemma obj_get_perm (key : string) (l l' : JsObject V) :
  NoDup (map fst l) -> Permutation l l' -> obj_get key l = obj_get key l'.
Proof.
  intros Hnd Hperm.
  assert (Hnd' : NoDup (map fst l')).
  { eapply Permutation_NoDup; [|exact Hnd]. now apply Permutation_map. }
  destruct (obj_get key l) as [v|] eqn:Hl.
  - symmetry. apply (obj_get_in key v l' Hnd').
    eapply Permutation_in; [exact Hperm|]. now apply obj_get_in.
  - destruct (obj_get key l') as [v'|] eqn:Hl'; [|reflexivity].
    apply (obj_get_in key v' l' Hnd') in Hl'.
    apply Permutation_sym in Hperm.
    apply (Permutation_in _ Hperm) in Hl'.
    apply (obj_get_in key v' l Hnd) in Hl'. congruence.
Qed.

Lemma insertByIndex_perm (p : string * V) (l : list (string * V)) :
  Permutation (insertByIndex p l) (p :: l).
Proof.
  induction l as [|q l IH]; simpl; [reflexivity|].
  destruct (indexOf (fst p) <=? indexOf (fst q))%N; [reflexivity|].
  rewrite IH. apply perm_swap.
Qed.

Lemma filter_split_perm (f : string * V -> bool) (l : list (string * V)) :
  Permutation (filter f l ++ filter (fun p => negb (f p)) l) l.
Proof.
  induction l as [|a l IH]; simpl; [reflexivity|].
  destruct (f a); simpl.
  - now apply perm_skip.
  - rewrite <- Permutation_middle. now apply perm_skip.
Qed.

Lemma entries_perm (obj : JsObject V) : Permutation (entries obj) obj.
Proof.
  unfold entries.
  rewrite <- (filter_split_perm (fun p => isArrayIndex (fst p)) obj) at 3.
  apply Permutation_app_tail.
  induction (filter (fun p => isArrayIndex (fst p)) obj) as [|a l IH];
    simpl; [reflexivity|].
  rewrite insertByIndex_perm. now apply perm_skip.
Qed.

Lemma entries_plain (obj : JsObject V) :
  (forall k, In k (map fst obj) -> isArrayIndex k = false) ->
  entries obj = obj.
Proof.
  intros Hplain. unfold entries.
  rewrite (filter_none (fun p => isArrayIndex (fst p)) obj).
  - simpl. apply forallb_filter_id. apply forallb_forall.
    intros p Hp. rewrite (Hplain (fst p)); [reflexivity|now apply in_map].
  - intros p Hp. apply Hplain. now apply in_map.
Qed.

Lemma obj_set_fresh (obj : JsObject V) (k : string) (v : V) :
  ~ In k (map fst obj) -> obj_set obj k v = obj ++ [(k, v)].
Proof.
  induction obj as [|[k' old] obj IH]; simpl; intros Hfresh; [reflexivity|].
  destruct (String.eqb k' k) eqn:Hk.
  - apply String.eqb_eq in Hk. tauto.
  - rewrite IH; [reflexivity|tauto].
Qed.

Lemma fold_set_fresh (l : list (string * V)) :
  forall acc,
    NoDup (map fst (acc ++ l)) ->
    fold_left (fun obj p => obj_set obj (fst p) (snd p)) l acc = acc ++ l.
Proof.
  induction l as [|[k v] l IH]; intros acc Hnd; simpl.
  - now rewrite app_nil_r.
  - rewrite obj_set_fresh.
    + rewrite IH; rewrite <- app_assoc; [reflexivity|exact Hnd].
    + rewrite map_app in Hnd. simpl in Hnd.
      apply NoDup_remove_2 in Hnd. intros Hin. apply Hnd.
      apply in_app_iff. now left.
Qed.

End ObjectFacts.

(** What a request holds after [obj[key] = (obj[key] ?? []).concat(v)]. *)
Lemma map_concat_in (m : ApplyMap) (k v a u : string) (us : list string) :
  In (a, us) (map_concat m k v) -> In u us ->
  (exists us0, In (a, us0) m /\ In u us0) \/ (a = k /\ u = v).
Proof.
  induction m as [|[k' vs] m IH]; simpl.
  - intros [[= <- <-]|[]] [<-|[]]. now right.
  - destruct (String.eqb k' k) eqn:Hk; simpl.
    + intros [[= <- <-]|Hin] Hu.
      * apply in_app_iff in Hu. destruct Hu as [Hu|[<-|[]]].
        -- left. exists vs. auto.
        -- right. apply String.eqb_eq in Hk. auto.
      * left. exists us. auto.
    + intros [[= <- <-]|Hin] Hu.
      * left. exists vs. auto.
      * destruct (IH Hin Hu) as [(us0 & Hin0 & Hu0)|Hnew]; [|now right].
        left. exists us0. auto.
Qed.



(* ------------------------------------------------------------------ *)
(** ** Best-of arbiter: the replacement *)

Section BestOfFacts.

Variable H : Host.
Variable w : World.




















(** *** Where the pairs of the request come from *)

Section Served.

Variable P : string -> string -> Prop.

Lemma requestOf_map_concat (m : ApplyMap) (k v : string) :
  requestOf P m -> P k v -> requestOf P (map_concat m k v).
Proof.
  intros Hm Hk a us u Hin Hu.
  destruct (map_concat_in m k v a u us Hin Hu) as [(us0 & Hin0 & Hu0)|[-> ->]].
  - now apply (Hm a us0).
  - exact Hk.
Qed.




End Served.

(** *** Every target that some emitter qualifies for is served *)






End BestOfFacts.

(** *** The removal map *)

Section RemovedMap.

Variable w : World.





(** The map is built when no effect carries a name that objects inherit,
    and only then. *)
Lemma effectToRemovedMap_plain (l : list Effect) :
  plainNames l ->
  exists removed, effectToRemovedMap w l = Returned removed.
Proof.
  unfold effectToRemovedMap. generalize (@nil (string * list Token)).
  induction l as [|e l IH]; intros acc Hplain; simpl.
  - now exists acc.
  - unfold removedStep at 1. rewrite (Hplain e (or_introl eq_refl)). simpl.
    apply IH. intros e' He'. apply Hplain. now right.
Qed.

Lemma effectToRemovedMap_returned (l : list Effect)
      (removed : JsObject (list Token)) :
  effectToRemovedMap w l = Returned removed -> plainNames l.
Proof.
  unfold effectToRemovedMap. generalize (@nil (string * list Token)).
  induction l as [|e l IH]; intros acc; simpl.
  - intros _ e [].
  - unfold removedStep at 1.
    destruct (inherited (name e)) eqn:Hname; simpl; [discriminate|].
    intros Hrest e' [<-|He']; [exact Hname|].
    now apply (IH _ Hrest).
Qed.

Lemma effectToRemovedMap_threw (l : list Effect) (err : JsError) :
  effectToRemovedMap w l = Threw err ->
  err = TypeError "acc[effect.name].push is not a function"
  /\ exists e, In e l /\ inherited (name e) = true.
Proof.
  unfold effectToRemovedMap. generalize (@nil (string * list Token)).
  induction l as [|e l IH]; intros acc; simpl; [discriminate|].
  unfold removedStep at 1.
  destruct (inherited (name e)) eqn:Hname; simpl.
  - intros [= <-]. split; [reflexivity|]. exists e. auto.
  - intros Hrest. destruct (IH _ Hrest) as (Herr & e' & He' & Hn).
    split; [exact Herr|]. exists e'. auto.
Qed.






End RemovedMap.

(** *** The run of a removal *)

Lemma bestOfApplies_app (tr tr' : list Event) :
  bestOfApplies (tr ++ tr') = bestOfApplies tr ++ bestOfApplies tr'.
Proof. unfold bestOfApplies. apply flat_map_app. Qed.

Section RemovalRun.

Variable H : Host.
Variable GM : Authority.

(** A removal throws before it has sent anything, or sends its deletion
    and then at most the best-of request, which is never empty. *)
Lemma removeAndReplaceAuras_cases (l : list Effect) (s : St) :
  let run := removeAndReplaceAuras H GM l s in
  let s1 := mkSt (deleteEffects GM (map uuid l) (world s)) (seenWarning s)
                 (trace s ++ [DeleteEffects (map uuid l)]) in
  (snd run = s /\ exists err, fst run = Threw err)
  \/ exists removed,
       effectToRemovedMap (world s) l = Returned removed
       /\ activeGM (world s) <> None
       /\ ((snd run = s1
            /\ ((exists err, fst run = Threw err)
                \/ (fst run = Returned tt
                    /\ newBestApplyMap H (world s1) removed = Returned [])))
           \/ exists best,
                best <> []
                /\ newBestApplyMap H (world s1) removed = Returned best
                /\ run = (Returned tt,
                          mkSt (applyAuraEffects GM best (world s1))
                               (seenWarning s)
                               (trace s1 ++ [ApplyAuraEffects ByBestOf best]))).
Proof.
  intros run s1. unfold run, removeAndReplaceAuras, bind, getWorld, lift.
  cbn [fst snd].
  destruct (effectToRemovedMap (world s) l) as [removed|err] eqn:Hmap;
    cbn [fst snd]; [|left; split; [reflexivity|now exists err]].
  unfold queryDelete.
  destruct (activeGM (world s)) as [gm|] eqn:Hgm; cbn [fst snd];
    [|left; split; [reflexivity|eexists; reflexivity]].
  right. exists removed. split; [reflexivity|]. split; [discriminate|].
  fold s1. cbn [world].
  destruct (newBestApplyMap H (world s1) removed) as [best|err] eqn:Hbest;
    cbn [fst snd]; [|left; split; [reflexivity|left; now exists err]].
  destruct best as [|entry best]; cbn [isEmpty negb].
  - left. split; [reflexivity|]. right. split; reflexivity.
  - unfold queryApply.
    destruct (activeGM (world s1)) as [gm'|]; cbn [fst snd].
    + right. exists (entry :: best).
      split; [discriminate|]. split; reflexivity.
    + left. split; [reflexivity|]. left. eexists. reflexivity.
Qed.

End RemovalRun.





(* ------------------------------------------------------------------ *)
(** ** Requests built by the per-source addition paths *)






Section AdditionPaths.

Variable H : Host.







End AdditionPaths.

(* ------------------------------------------------------------------ *)
(** ** What a removal sends *)

Lemma handlerApplies_app (tr tr' : list Event) :
  handlerApplies (tr ++ tr') = handlerApplies tr ++ handlerApplies tr'.
Proof. unfold handlerApplies. apply flat_map_app. Qed.

Lemma deletions_app (tr tr' : list Event) :
  deletions (tr ++ tr') = deletions tr ++ deletions tr'.
Proof. unfold deletions. apply flat_map_app. Qed.

Section Quiet.

Variable tr0 : list Event.

Lemma quiet_noActiveGM : preserves (sameHandlerApplies tr0) noActiveGM.
Proof.
  intros s Hs. unfold noActiveGM, sameHandlerApplies in *.
  destruct (seenWarning s); simpl; [exact Hs|].
  rewrite handlerApplies_app. simpl. now rewrite app_nil_r.
Qed.

Lemma quiet_queryDelete (GM : Authority) (l : list string) :
  preserves (sameHandlerApplies tr0) (queryDelete GM l).
Proof.
  intros s Hs. unfold queryDelete, sameHandlerApplies in *.
  destruct (activeGM (world s)); simpl; [|exact Hs].
  rewrite handlerApplies_app. simpl. now rewrite app_nil_r.
Qed.

Lemma quiet_queryApply_bestOf (GM : Authority) (m : ApplyMap) :
  preserves (sameHandlerApplies tr0) (queryApply GM ByBestOf m).
Proof.
  intros s Hs. unfold queryApply, sameHandlerApplies in *.
  destruct (activeGM (world s)); simpl; [|exact Hs].
  rewrite handlerApplies_app. simpl. now rewrite app_nil_r.
Qed.

Lemma quiet_removeAndReplaceAuras (H : Host) (GM : Authority) (l : list Effect) :
  preserves (sameHandlerApplies tr0) (removeAndReplaceAuras H GM l).
Proof.
  unfold removeAndReplaceAuras.
  repeat first
    [ apply preserves_ret | apply preserves_lift | apply preserves_getWorld
    | apply quiet_queryDelete | apply quiet_queryApply_bestOf
    | apply preserves_bind; [|intros ?]
    | match goal with
      | |- preserves _ (if ?b then _ else _) => destruct b
      end ].
Qed.

Lemma extends_refl (s : St) : extendsTrace (trace s) s.
Proof. exists []. now rewrite app_nil_r. Qed.

Lemma extends_noActiveGM : preserves (extendsTrace tr0) noActiveGM.
Proof.
  intros s [rest Hs]. unfold noActiveGM, extendsTrace.
  destruct (seenWarning s); simpl; [now exists rest|].
  exists (rest ++ [Warned no_gm_key]). now rewrite Hs, app_assoc.
Qed.

Lemma extends_queryDelete (GM : Authority) (l : list string) :
  preserves (extendsTrace tr0) (queryDelete GM l).
Proof.
  intros s [rest Hs]. unfold queryDelete, extendsTrace.
  destruct (activeGM (world s)); simpl; [|now exists rest].
  exists (rest ++ [DeleteEffects l]). now rewrite Hs, app_assoc.
Qed.

Lemma extends_queryApply (GM : Authority) (by_ : Issuer) (m : ApplyMap) :
  preserves (extendsTrace tr0) (queryApply GM by_ m).
Proof.
  intros s [rest Hs]. unfold queryApply, extendsTrace.
  destruct (activeGM (world s)); simpl; [|now exists rest].
  exists (rest ++ [ApplyAuraEffects by_ m]). now rewrite Hs, app_assoc.
Qed.

End Quiet.

(** Walks through a handler whose trace only grows. *)
Ltac extend :=
  repeat first
    [ apply preserves_ret | apply preserves_lift | apply preserves_getWorld
    | apply extends_noActiveGM | apply extends_queryDelete
    | apply extends_queryApply
    | apply preserves_bind; [|intros ?]
    | apply preserves_mfold; intros ? ?
    | match goal with
      | |- preserves _ (if ?b then _ else _) => destruct b
      | |- preserves _ (match ?x with _ => _ end) => destruct x
      | |- preserves _ (let (_, _) := ?x in _) => destruct x
      end ].

Section RemovalFacts.

Variable H : Host.
Variable GM : Authority.

Lemma extends_removeAndReplaceAuras (tr0 : list Event) (l : list Effect) :
  preserves (extendsTrace tr0) (removeAndReplaceAuras H GM l).
Proof. unfold removeAndReplaceAuras. extend. Qed.

(** With a GM present and no name that objects inherit among the effects,
    a removal first sends the deletion of exactly the effects it was
    given. *)
Lemma removeAndReplaceAuras_deletes (l : list Effect) (s : St) (gm : string) :
  activeGM (world s) = Some gm ->
  plainNames l ->
  exists rest,
    trace (snd (removeAndReplaceAuras H GM l s))
    = trace s ++ DeleteEffects (map uuid l) :: rest.
Proof.
  intros Hgm Hplain. unfold removeAndReplaceAuras.
  unfold bind at 1. unfold getWorld at 1. cbn [fst snd].
  unfold bind at 1. unfold lift at 1.
  destruct (effectToRemovedMap_plain (world s) l Hplain) as [removed ->].
  unfold bind at 1. unfold queryDelete at 1. rewrite Hgm.
  set (s1 := mkSt _ _ _).
  match goal with
  | |- exists rest, trace (snd (?k s1)) = _ =>
      assert (Hext : extendsTrace (trace s1) (snd (k s1)))
  end.
  { apply (preserves_bind (extendsTrace (trace s1)));
      [apply preserves_getWorld| |apply extends_refl].
    intros w. extend. }
  destruct Hext as [rest Hrest]. exists rest. rewrite Hrest.
  unfold s1. simpl. now rewrite <- app_assoc.
Qed.

(** Without a GM, a removal called on its own throws before it has sent
    anything, and changes nothing. *)
Lemma removeAndReplaceAuras_without_gm (l : list Effect) (s : St) :
  activeGM (world s) = None ->
  snd (removeAndReplaceAuras H GM l s) = s
  /\ exists err, fst (removeAndReplaceAuras H GM l s) = Threw err.
Proof.
  intros Hgm. unfold removeAndReplaceAuras, bind, getWorld, lift, queryDelete.
  cbn [fst snd].
  destruct (effectToRemovedMap (world s) l) as [removed|err]; cbn [fst snd].
  - rewrite Hgm. split; [reflexivity|eexists; reflexivity].
  - split; [reflexivity|now exists err].
Qed.

(** Given an effect whose name objects inherit, a removal throws while it
    builds its map, before it has sent anything. *)
Lemma removeAndReplaceAuras_inherited (l : list Effect) (s : St) (e : Effect) :
  In e l -> inherited (name e) = true ->
  removeAndReplaceAuras H GM l s
  = (Threw (TypeError "acc[effect.name].push is not a function"), s).
Proof.
  intros He Hname. unfold removeAndReplaceAuras, bind, getWorld, lift.
  cbn [fst snd].
  destruct (effectToRemovedMap (world s) l) as [removed|err] eqn:Hmap.
  - apply effectToRemovedMap_returned in Hmap.
    rewrite (Hmap e He) in Hname. discriminate.
  - apply effectToRemovedMap_threw in Hmap. destruct Hmap as [-> _].
    reflexivity.
Qed.

End RemovalFacts.

(* ------------------------------------------------------------------ *)
(** ** Cleanup when a source is invalidated *)

Lemma appliedFrom_complete (w : World) (actor : string) (effect : Effect)
      (t : Token) (holder : Actor) (e : Effect) :
  In t (tokens w) ->
  token_actor w t = Some holder ->
  actor_uuid holder <> actor ->
  In e (appliedEffects holder) ->
  fromAura e = true ->
  origin e = Some (uuid effect) ->
  In e (appliedFrom w actor effect).
Proof.
  intros Ht Hholder Hneq He Hflag Horigin.
  unfold appliedFrom. apply filter_In. split.
  - unfold sceneAppliedEffects. apply in_flat_map. exists t. split.
    + apply filter_In. split; [exact Ht|]. rewrite Hholder.
      unfold tokenActorUuid. rewrite Hholder. simpl.
      apply negb_true_iff. now apply String.eqb_neq.
    + now rewrite Hholder.
  - rewrite Hflag, Horigin. simpl. now rewrite String.eqb_refl.
Qed.

Lemma appliedFrom_sound (w : World) (actor : string) (effect : Effect)
      (e : Effect) :
  In e (appliedFrom w actor effect) ->
  fromAura e = true /\ origin e = Some (uuid effect)
  /\ exists t holder,
       In t (tokens w) /\ token_actor w t = Some holder
       /\ actor_uuid holder <> actor /\ In e (appliedEffects holder).
Proof.
  unfold appliedFrom, sceneAppliedEffects. intros Hin.
  apply filter_In in Hin. destruct Hin as [Hin Hkeep].
  apply andb_prop in Hkeep. destruct Hkeep as [Hflag Horigin].
  split; [exact Hflag|]. split.
  - unfold opt_eqb in Horigin. destruct (origin e) as [o|]; [|discriminate].
    apply String.eqb_eq in Horigin. now subst.
  - apply in_flat_map in Hin. destruct Hin as (t & Ht & He).
    apply filter_In in Ht. destruct Ht as [Ht Hkeep].
    destruct (token_actor w t) as [holder|] eqn:Hholder; [|discriminate].
    exists t, holder. repeat split; auto.
    unfold tokenActorUuid in Hkeep. rewrite Hholder in Hkeep. simpl in Hkeep.
    apply negb_true_iff in Hkeep. now apply String.eqb_neq.
Qed.

Section Cleanup.

Variable H : Host.
Variable GM : Authority.

Lemma deleteActiveEffect_deletes (s : St) (effect : Effect) (userId : string)
      (source : Actor) (gm : string) :
  currentUser (world s) = userId ->
  is_aura effect = true ->
  canvasScene (world s) = true ->
  lookup_actor (world s) (parent effect) = Some source ->
  activeGM (world s) = Some gm ->
  plainNames (appliedFrom (world s) (actor_uuid source) effect) ->
  exists rest,
    trace (snd (deleteActiveEffect H GM effect userId s))
    = trace s
      ++ DeleteEffects
           (map uuid (appliedFrom (world s) (actor_uuid source) effect))
      :: rest.
Proof.
  intros Hu Ha Hc Hs Hgm Hplain. unfold deleteActiveEffect.
  unfold bind at 1. unfold getWorld. cbn [fst snd].
  rewrite Hu, String.eqb_refl, Ha, Hc, Hs, Hgm. cbn [negb].
  eapply removeAndReplaceAuras_deletes; eauto.
Qed.

Lemma updateActiveEffect_disabled_deletes
      (s : St) (effect : Effect) (updates : EffectUpdates) (userId : string)
      (source : Actor) (gm : string) (token : Token) (others : list Token) :
  currentUser (world s) = userId ->
  is_aura effect = true ->
  upd_disabled updates = Some true ->
  canvasScene (world s) = true ->
  lookup_actor (world s) (parent effect) = Some source ->
  getActiveTokens (world s) (actor_uuid source) = token :: others ->
  activeGM (world s) = Some gm ->
  plainNames (appliedFrom (world s) (actor_uuid source) effect) ->
  appliedFrom (world s) (actor_uuid source) effect <> [] ->
  exists rest,
    trace (snd (updateActiveEffect H GM effect updates userId s))
    = trace s
      ++ DeleteEffects
           (map uuid (appliedFrom (world s) (actor_uuid source) effect))
      :: rest.
Proof.
  intros Hu Ha Hd Hc Hs Ht Hgm Hplain Hne. unfold updateActiveEffect.
  unfold bind at 1. unfold getWorld. cbn [fst snd].
  rewrite Hu, String.eqb_refl, Ha, Hd, Hc, Hs, Ht, Hgm. cbn [negb andb].
  destruct (appliedFrom (world s) (actor_uuid source) effect) as [|e l] eqn:Hl;
    [congruence|].
  cbn [isEmpty negb].
  eapply removeAndReplaceAuras_deletes; eauto.
Qed.

(** The closing loop of the scene delta: every applied, aura-derived effect
    of the token's actor whose origin is gone, disabled or suppressed is
    listed for removal. *)
Lemma getChangingSceneAuras_stale (w : World) (token : Token) (actor : Actor)
      (toRemove toAdd : list Effect) (e : Effect) :
  token_actor w token = Some actor ->
  getChangingSceneAuras H w token = Returned (toRemove, toAdd) ->
  In e (appliedEffects actor) ->
  fromAura e = true ->
  (forall sourceEffect,
      match origin e with
      | Some o => fromUuidSync w o
      | None => None
      end = Some sourceEffect ->
      disabled sourceEffect = true \/ isSuppressed sourceEffect = true) ->
  In e toRemove.
Proof.
  intros Ha Hrun He Hflag Hstale. unfold getChangingSceneAuras in Hrun.
  rewrite Ha in Hrun.
  destruct (ofold _ _ _) as [[r d]|err]; simpl in Hrun; [|discriminate].
  injection Hrun as <- <-. apply in_app_iff. right.
  unfold staleApplied. apply filter_In. split; [exact He|].
  rewrite Hflag. simpl.
  destruct (match origin e with
            | Some o => fromUuidSync w o
            | None => None
            end) as [sourceEffect|]; [|reflexivity].
  destruct (Hstale sourceEffect eq_refl) as [-> | ->]; [reflexivity|].
  apply orb_true_r.
Qed.

End Cleanup.

(** C7, as the code has it.  When the initiating user deletes or disables
    an aura source effect (scene shown, GM active, and for the disabling a
    token of the source actor on the scene), and none of the applied,
    aura-derived effects with that origin held by the other actors of the
    scene carries a name that objects inherit, every one of them is named in
    the deletion sent to the GM.  The clones left aside (on the source's own
    actor, or of a source that became suppressed) fall to the scene delta of
    the token that holds them: it lists for removal every applied,
    aura-derived effect whose origin is gone, disabled or suppressed. *)
Theorem source_invalidation_cleanup
        (H : Host) (GM : Authority) (s : St) (effect : Effect)
        (userId : string) (source : Actor) (gm : string) :
  currentUser (world s) = userId ->
  is_aura effect = true ->
  canvasScene (world s) = true ->
  lookup_actor (world s) (parent effect) = Some source ->
  activeGM (world s) = Some gm ->
  plainNames (appliedFrom (world s) (actor_uuid source) effect) ->
  (forall (t : Token) (holder : Actor) (e : Effect),
      In t (tokens (world s)) ->
      token_actor (world s) t = Some holder ->
      actor_uuid holder <> actor_uuid source ->
      In e (appliedEffects holder) ->
      fromAura e = true ->
      origin e = Some (uuid effect) ->
      (exists uuids rest,
          trace (snd (deleteActiveEffect H GM effect userId s))
          = trace s ++ DeleteEffects uuids :: rest
          /\ In (uuid e) uuids)
      /\ (forall updates : EffectUpdates,
             upd_disabled updates = Some true ->
             getActiveTokens (world s) (actor_uuid source) <> [] ->
             exists uuids rest,
               trace (snd (updateActiveEffect H GM effect updates userId s))
               = trace s ++ DeleteEffects uuids :: rest
               /\ In (uuid e) uuids))
  /\ (forall (token : Token) (actor : Actor) (toRemove toAdd : list Effect)
             (e : Effect),
         token_actor (world s) token = Some actor ->
         getChangingSceneAuras H (world s) token = Returned (toRemove, toAdd) ->
         In e (appliedEffects actor) ->
         fromAura e = true ->
         (forall sourceEffect,
             match origin e with
             | Some o => fromUuidSync (world s) o
             | None => None
             end = Some sourceEffect ->
             disabled sourceEffect = true \/ isSuppressed sourceEffect = true) ->
         In e toRemove).
Proof.
  intros Hu Ha Hc Hs Hgm Hplain. split.
  - intros t holder e Ht Hholder Hneq He Hflag Horigin.
    assert (Hin : In e (appliedFrom (world s) (actor_uuid source) effect)).
    { eapply appliedFrom_complete; eauto. }
    split.
    + destruct (deleteActiveEffect_deletes H GM s effect userId source gm
                  Hu Ha Hc Hs Hgm Hplain) as [rest Hrest].
      eexists _, rest. split; [exact Hrest|]. now apply in_map.
    + intros updates Hd Htok.
      destruct (getActiveTokens (world s) (actor_uuid source))
        as [|token others] eqn:Htokens; [congruence|].
      destruct (updateActiveEffect_disabled_deletes H GM s effect updates
                  userId source gm token others Hu Ha Hd Hc Hs Htokens Hgm
                  Hplain)
        as [rest Hrest].
      * intros Hnil. rewrite Hnil in Hin. contradiction.
      * eexists _, rest. split; [exact Hrest|]. now apply in_map.
  - intros token actor toRemove toAdd e.
    apply getChangingSceneAuras_stale.
Qed.

Lemma source_invalidation_cleanup_witness :
  (exists uuids rest,
      trace (snd (updateActiveEffect (Demo.host true) specAuthority
                    Demo.blessOff Demo.disabling "user1"
                    (Demo.start Demo.disabledWorld)))
      = [] ++ DeleteEffects uuids :: rest
      /\ In (uuid Demo.candClone) uuids)
  /\ (forall toRemove toAdd,
         getChangingSceneAuras (Demo.host true) Demo.disabledWorld Demo.tokSrc
         = Returned (toRemove, toAdd) ->
         In Demo.selfClone toRemove).
Proof.
  destruct (source_invalidation_cleanup
              (Demo.host true) specAuthority (Demo.start Demo.disabledWorld)
              Demo.blessOff "user1"
              (mkActor "Actor.a" "Paladin" [Demo.blessOff; Demo.selfClone] [])
              "gm" eq_refl eq_refl eq_refl eq_refl eq_refl)
    as [Hothers Hdelta].
  { intros e He. vm_compute in He. destruct He as [<-|[]]. reflexivity. }
  split.
  - refine (proj2 (Hothers Demo.tokCand
                     (mkActor "Actor.b" "Goblin" [Demo.candClone] [])
                     Demo.candClone _ eq_refl _ _ eq_refl eq_refl)
                  Demo.disabling eq_refl _).
    + simpl. right. left. reflexivity.
    + simpl. discriminate.
    + simpl. left. reflexivity.
    + simpl. discriminate.
  - intros toRemove toAdd Hrun.
    refine (Hdelta Demo.tokSrc
              (mkActor "Actor.a" "Paladin" [Demo.blessOff; Demo.selfClone] [])
              toRemove toAdd Demo.selfClone eq_refl Hrun _ eq_refl _).
    + simpl. left. reflexivity.
    + intros sourceEffect Hsrc. vm_compute in Hsrc.
      injection Hsrc as <-. left. reflexivity.
Defined.

(** C7, as stated, fails: the source is disabled; the clone held by the
    other actor is deleted, the clone held by the source's own actor is
    not asked for and stays on the scene. *)
Lemma disabled_source_keeps_own_clone :
  let run := updateActiveEffect (Demo.host true) specAuthority
               Demo.blessOff Demo.disabling "user1"
               (Demo.start Demo.disabledWorld) in
  fst run = Returned tt
  /\ trace (snd run) = [DeleteEffects ["Actor.b.ActiveEffect.clone"]]
  /\ sceneAppliedEffects (world (snd run)) (fun _ => true) = [Demo.selfClone]
  /\ fromAura Demo.selfClone = true
  /\ origin Demo.selfClone = Some (uuid Demo.blessOff).
Proof. vm_compute. repeat split. Qed.
(* ------------------------------------------------------------------ *)
(** ** The worlds a run goes through *)

Lemma bind_returned {A B} (m : M A) (f : A -> M B) (s : St) (b : B) :
  fst (bind m f s) = Returned b ->
  exists a, fst (m s) = Returned a /\ bind m f s = f a (snd (m s)).
Proof.
  unfold bind. destruct (m s) as [[a|err] s1]; cbn [fst snd].
  - intros _. now exists a.
  - discriminate.
Qed.

Lemma ofilter_in {A} (p : A -> Outcome bool) (l ts : list A) (t : A) :
  ofilter p l = Returned ts -> In t ts -> In t l /\ p t = Returned true.
Proof.
  revert ts. induction l as [|a l IH]; intros ts; cbn [ofilter].
  - intros [= <-] [].
  - destruct (p a) as [keep|err] eqn:Hp; cbn [obind]; [|discriminate].
    destruct (ofilter p l) as [rest|err]; cbn [obind]; [|discriminate].
    intros [= <-]. destruct keep.
    + intros [<-|Hin]; [split; [now left|exact Hp]|].
      destruct (IH rest eq_refl Hin). split; [now right|assumption].
    + intros Hin. destruct (IH rest eq_refl Hin).
      split; [now right|assumption].
Qed.

Lemma defined_inv {A} (l : list (option A)) (a : A) :
  In a (defined l) -> In (Some a) l.
Proof.
  induction l as [|[b|] l IH]; simpl; [tauto| |].
  - intros [->|Hin]; [now left|right; now apply IH].
  - intros Hin. right. now apply IH.
Qed.

Lemma actorsOf_in (w : World) (ts : list Token) (a : string) :
  In a (actorsOf w ts) -> exists t, In t ts /\ tokenActorUuid w t = Some a.
Proof.
  unfold actorsOf. intros Hin. apply defined_inv in Hin.
  apply in_map_iff in Hin. destruct Hin as (t & Heq & Hin).
  exists t. split; [exact Hin|exact Heq].
Qed.

Lemma to_set_in (l : list string) (a : string) : In a (to_set l) -> In a l.
Proof.
  induction l as [|b l IH]; simpl; [tauto|].
  intros [->|Hin]; [now left|].
  apply filter_In in Hin. right. now apply IH.
Qed.

Lemma to_set_mem (l : list string) (a : string) : In a l -> In a (to_set l).
Proof.
  induction l as [|b l IH]; simpl; [tauto|].
  intros [->|Hin]; [now left|].
  destruct (String.eqb a b) eqn:Hab.
  - apply String.eqb_eq in Hab. now left.
  - right. apply filter_In. split; [now apply IH|]. now rewrite Hab.
Qed.

Lemma replay_app (GM : Authority) (w : World) (evs evs' : list Event) :
  replay GM w (evs ++ evs') = replay GM (replay GM w evs) evs'.
Proof. unfold replay. apply fold_left_app. Qed.





Lemma requestOf_fold (P : string -> string -> Prop) (v : string)
      (l : list string) (m : ApplyMap) :
  requestOf P m ->
  (forall a, In a l -> P a v) ->
  requestOf P (fold_left (fun m a => map_concat m a v) l m).
Proof.
  revert m. induction l as [|a l IH]; intros m Hm Hl; simpl; [exact Hm|].
  apply IH.
  - apply requestOf_map_concat; [exact Hm|]. apply Hl. now left.
  - intros b Hb. apply Hl. now right.
Qed.

Section Quietly.

Variable GM : Authority.
Variable s0 : St.
Variable evs0 : list Event.

Lemma sentQuietly_start : sentQuietly GM s0 [] s0.
Proof. exists []. simpl. now rewrite app_nil_r. Qed.

Lemma quietly_noActiveGM : preserves (sentQuietly GM s0 evs0) noActiveGM.
Proof.
  intros s (more & Htr & Hw & Hq). unfold noActiveGM.
  destruct (seenWarning s); cbn [snd]; [now exists more|].
  exists (more ++ [Warned no_gm_key]). cbn [trace world]. split; [|split].
  - now rewrite Htr, <- !app_assoc.
  - rewrite Hw, !app_assoc, (replay_app GM _ _ [Warned no_gm_key]).
    reflexivity.
  - rewrite handlerApplies_app, Hq. reflexivity.
Qed.

Lemma quietly_queryDelete (l : list string) :
  preserves (sentQuietly GM s0 evs0) (queryDelete GM l).
Proof.
  intros s (more & Htr & Hw & Hq). unfold queryDelete.
  destruct (activeGM (world s)); cbn [snd]; [|now exists more].
  exists (more ++ [DeleteEffects l]). cbn [trace world]. split; [|split].
  - now rewrite Htr, <- !app_assoc.
  - rewrite Hw, !app_assoc, (replay_app GM _ _ [DeleteEffects l]).
    reflexivity.
  - rewrite handlerApplies_app, Hq. reflexivity.
Qed.

Lemma quietly_queryApply_bestOf (m : ApplyMap) :
  preserves (sentQuietly GM s0 evs0) (queryApply GM ByBestOf m).
Proof.
  intros s (more & Htr & Hw & Hq). unfold queryApply.
  destruct (activeGM (world s)); cbn [snd]; [|now exists more].
  exists (more ++ [ApplyAuraEffects ByBestOf m]). cbn [trace world].
  split; [|split].
  - now rewrite Htr, <- !app_assoc.
  - rewrite Hw, !app_assoc, (replay_app GM _ _ [ApplyAuraEffects ByBestOf m]).
    reflexivity.
  - rewrite handlerApplies_app, Hq. reflexivity.
Qed.

Lemma quietly_removeAndReplaceAuras (H : Host) (l : list Effect) :
  preserves (sentQuietly GM s0 evs0) (removeAndReplaceAuras H GM l).
Proof.
  unfold removeAndReplaceAuras.
  repeat first
    [ apply preserves_ret | apply preserves_lift | apply preserves_getWorld
    | apply quietly_queryDelete | apply quietly_queryApply_bestOf
    | apply preserves_bind; [|intros ?]
    | match goal with
      | |- preserves _ (if ?b then _ else _) => destruct b
      end ].
Qed.

Lemma quietly_moveStep (H : Host) (token : Token)
      (ranges : list (string * list string)) (inactiveUuids : list string)
      (m : ApplyMap) (effect : Effect) :
  preserves (sentQuietly GM s0 evs0)
            (moveStep H GM token ranges inactiveUuids m effect).
Proof.
  unfold moveStep.
  repeat first
    [ apply preserves_ret | apply preserves_lift | apply preserves_getWorld
    | apply quietly_removeAndReplaceAuras
    | apply preserves_bind; [|intros ?]
    | match goal with
      | |- preserves _ (if ?b then _ else _) => destruct b
      end ].
Qed.

End Quietly.

(** A loop that was run to its end went through each of its steps. *)
Lemma mfold_through {A S} (body : S -> A -> M S) (l1 l2 : list A) (a : A)
      (acc accL : S) (s sL : St) :
  mfold body (l1 ++ a :: l2) acc s = (Returned accL, sL) ->
  exists acc1 s1 acc2 s2,
    mfold body l1 acc s = (Returned acc1, s1)
    /\ body acc1 a s1 = (Returned acc2, s2)
    /\ mfold body l2 acc2 s2 = (Returned accL, sL).
Proof.
  revert acc s. induction l1 as [|b l1 IH]; intros acc s; simpl.
  - unfold bind at 1.
    destruct (body acc a s) as [[acc2|err] s2] eqn:Hstep; [|discriminate].
    intros Hrest. exists acc, s, acc2, s2. auto.
  - unfold bind at 1.
    destruct (body acc b s) as [[acc'|err] s'] eqn:Hstep; [|discriminate].
    intros Hrest. destruct (IH acc' s' Hrest)
      as (acc1 & s1 & acc2 & s2 & H1 & H2 & H3).
    exists acc1, s1, acc2, s2. split; [|auto].
    unfold bind. now rewrite Hstep.
Qed.

(* ------------------------------------------------------------------ *)
(** ** Following a run step by step *)









(* ------------------------------------------------------------------ *)
(** ** Token movement *)

Lemma defined_in {A} (l : list (option A)) (a : A) :
  In (Some a) l -> In a (defined l).
Proof.
  induction l as [|[b|] l IH]; simpl; [tauto| |].
  - intros [[= ->]|Hin]; [now left|right; now apply IH].
  - intros [Heq|Hin]; [discriminate|now apply IH].
Qed.

Lemma find_fold_preMove (H : Host) (w : World) (token : Token)
      (origin_ : option Position) (u : string) (l : list Effect)
      (acc : list (string * list string)) :
  (forall e, In e l -> falsy (distance (system e)) = false -> uuid e <> u) ->
  find (fun p => String.eqb (fst p) u)
       (fold_left (fun acc effect =>
                     if falsy (distance (system effect)) then acc
                     else (uuid effect,
                           to_set (actorsOf w
                             (getNearbyTokens H w token
                                (distance (system effect)) origin_
                                (sys_disposition (system effect))
                                (collisionTypes (system effect)))))
                          :: acc) l acc)
  = find (fun p => String.eqb (fst p) u) acc.
Proof.
  revert acc. induction l as [|e l IH]; intros acc Hne; simpl; [reflexivity|].
  rewrite IH by (intros e' He'; apply Hne; now right).
  destruct (falsy (distance (system e))) eqn:Hf; [reflexivity|].
  simpl. specialize (Hne e (or_introl eq_refl) Hf).
  apply String.eqb_neq in Hne. now rewrite Hne.
Qed.

(** The range recorded at the start of the move is the set of the actors
    of the tokens in range of the movement's origin. *)
Lemma preMoveRange_spec (H : Host) (w : World) (token : Token)
      (origin_ : option Position) (effs : list Effect) (effect : Effect) :
  NoDup (map uuid effs) ->
  In effect effs ->
  falsy (distance (system effect)) = false ->
  preMoveRange (preMoveRanges H w token origin_ effs) (uuid effect)
  = to_set (actorsOf w
      (getNearbyTokens H w token (distance (system effect)) origin_
                       (sys_disposition (system effect))
                       (collisionTypes (system effect)))).
Proof.
  unfold preMoveRange, preMoveRanges. generalize (@nil (string * list string)).
  induction effs as [|e effs IH]; intros acc Hnd Hin Hf; [contradiction|].
  simpl in Hnd. apply NoDup_cons_iff in Hnd. destruct Hnd as [Hfresh Hnd].
  destruct Hin as [->|Hin].
  - simpl. rewrite Hf. rewrite find_fold_preMove.
    + simpl. now rewrite String.eqb_refl.
    + intros e' He' _ Heq. apply Hfresh. rewrite <- Heq. now apply in_map.
  - simpl. now apply IH.
Qed.

(** When the movement counts as complete. *)
Lemma isFinalMovementComplete_spec (token : Token) :
  isFinalMovementComplete token = true
  <-> state (movement token) = "stopped"
      \/ ((pending (movement token) = None
           \/ exists d, pending (movement token) = Some d /\ d == 0)
          /\ pos_x (destination (movement token)) == x token
          /\ pos_y (destination (movement token)) == y token
          /\ pos_elevation (destination (movement token)) == elevation token).
Proof.
  unfold isFinalMovementComplete, falsy.
  rewrite orb_true_iff, !andb_true_iff, !Qeq_bool_iff, String.eqb_eq.
  destruct (pending (movement token)) as [d|].
  - rewrite Qeq_bool_iff. split.
    + intros [Hs|(((Hd & Hx) & Hy) & He)]; [now left|right].
      repeat split; auto. right. now exists d.
    + intros [Hs|([Hn|(d' & [= <-] & Hd)] & Hx & Hy & He)];
        [now left|discriminate|right; auto].
  - split.
    + intros [Hs|(((_ & Hx) & Hy) & He)]; [now left|right]. auto.
    + intros [Hs|(_ & Hx & Hy & He)]; [now left|right; auto].
Qed.

Section Movement.

Variable H : Host.
Variable Hpre : Host.
Variable GM : Authority.

(** A leg that returns has sent the deletion of the effect of each actor
    that was in range at the origin and is not in range any more. *)
Lemma moveStep_removes (s : St) (token : Token)
      (ranges : list (string * list string)) (inactiveUuids : list string)
      (m m' : ApplyMap) (effect : Effect) (s' : St) :
  falsy (distance (system effect)) = false ->
  moveStep H GM token ranges inactiveUuids m effect s = (Returned m', s') ->
  exists post uuids rest,
    scriptedRange H (world s) token effect = Returned post
    /\ trace s' = trace s ++ DeleteEffects uuids :: rest
    /\ forall a c,
         In a (difference (preMoveRange ranges (uuid effect)) post) ->
         find_origin (uuid effect) (actorEffects (world s) a) = Some c ->
         In (uuid c) uuids.
Proof.
  intros Hf. unfold moveStep. rewrite Hf.
  unfold bind at 1. unfold getWorld at 1. cbn [fst snd].
  unfold bind at 1. unfold lift at 1.
  destruct (scriptedRange H (world s) token effect) as [post|err] eqn:Hpost;
    [|discriminate].
  set (toDelete := defined _).
  unfold bind at 1.
  destruct (removeAndReplaceAuras H GM toDelete s) as [[[]|err] s1] eqn:Hrun;
    [|discriminate].
  intros Hrest.
  assert (Hs' : s' = s1).
  { destruct (isFinalMovementComplete token).
    - unfold bind, getWorld, ret in Hrest. now injection Hrest.
    - unfold ret in Hrest. now injection Hrest. }
  subst s'.
  exists post, (map uuid toDelete).
  assert (Htrace : exists rest,
             trace s1 = trace s ++ DeleteEffects (map uuid toDelete) :: rest).
  { pose proof (removeAndReplaceAuras_cases H GM toDelete s) as Hcases.
    cbv zeta in Hcases. rewrite Hrun in Hcases. cbn [fst snd] in Hcases.
    destruct Hcases
      as [[_ [err Herr]]
         |(removed & _ & _ & [[-> _]|(best & _ & _ & Hbest)])].
    - discriminate.
    - exists []. reflexivity.
    - injection Hbest as ->. cbn [trace].
      exists [ApplyAuraEffects ByBestOf best]. now rewrite <- app_assoc. }
  destruct Htrace as [rest Htrace]. exists rest.
  split; [reflexivity|]. split; [exact Htrace|].
  intros a c Ha Hc. apply in_map. unfold toDelete. apply defined_in.
  apply in_app_iff. left. unfold leftRange.
  rewrite <- Hc. apply in_map_iff. exists a. auto.
Qed.

Lemma extends_moveStep (tr0 : list Event) (token : Token)
      (ranges : list (string * list string)) (inactiveUuids : list string)
      (m : ApplyMap) (effect : Effect) :
  preserves (extendsTrace tr0)
            (moveStep H GM token ranges inactiveUuids m effect).
Proof.
  unfold moveStep.
  repeat first
    [ apply preserves_ret | apply preserves_lift | apply preserves_getWorld
    | apply extends_removeAndReplaceAuras
    | apply preserves_bind; [|intros ?]
    | match goal with
      | |- preserves _ (if ?b then _ else _) => destruct b
      end ].
Qed.

(** On every leg that [moveToken] completes, each active aura with a
    radius has its deletion sent, naming the effect of every actor that was
    in range of the movement's origin and is not in the range read on that
    leg. *)
Lemma moveToken_removes (s : St) (token : Token)
      (movement_origin : option Position) (user gm : string)
      (actor : Actor) (effect : Effect) :
  currentUser (world s) = user ->
  activeGM (world s) = Some gm ->
  token_actor (world s) token = Some actor ->
  NoDup (map uuid (fst (getAllAuraEffects (Some actor)))) ->
  In effect (fst (getAllAuraEffects (Some actor))) ->
  falsy (distance (system effect)) = false ->
  fst (moveToken H Hpre GM token movement_origin user s) = Returned tt ->
  exists before uuids after,
    trace (snd (moveToken H Hpre GM token movement_origin user s))
    = trace s ++ before ++ DeleteEffects uuids :: after
    /\ forall (a : string) (c : Effect) (post : list string),
         In a (actorsOf (world s)
                 (getNearbyTokens Hpre (world s) token
                    (distance (system effect)) movement_origin
                    (sys_disposition (system effect))
                    (collisionTypes (system effect)))) ->
         scriptedRange H (replay GM (world s) before) token effect
         = Returned post ->
         ~ In a post ->
         find_origin (uuid effect)
                     (actorEffects (replay GM (world s) before) a) = Some c ->
         In (uuid c) uuids.
Proof.
  intros Hu Hgm Hactor Hnd Hin Hf.
  remember (moveToken H Hpre GM token movement_origin user s) as run eqn:Hdef.
  unfold moveToken in Hdef. unfold bind at 1 in Hdef.
  unfold getWorld at 1 in Hdef. cbn [fst snd] in Hdef.
  rewrite Hu, String.eqb_refl, Hgm, Hactor in Hdef. cbn [negb] in Hdef.
  destruct (getAllAuraEffects (Some actor)) as [act inact] eqn:Hall.
  cbn [fst] in Hnd, Hin.
  set (ranges := preMoveRanges Hpre (world s) token movement_origin act) in *.
  set (inactiveUuids := map uuid inact) in *.
  intros Hret. rewrite Hdef in Hret.
  destruct (bind_returned _ _ _ _ Hret) as (accL & Hloop & Heq).
  rewrite Heq in Hdef. subst run. clear Heq Hret.
  destruct (mfold (moveStep H GM token ranges inactiveUuids) act [] s)
    as [r sL] eqn:Hrun.
  cbn [fst snd] in *. subst r.
  destruct (in_split effect act Hin) as (l1 & l2 & Hsplit).
  rewrite Hsplit in Hrun.
  destruct (mfold_through _ l1 l2 effect [] accL s sL Hrun)
    as (acc1 & s1 & acc2 & s2 & Hl1 & Hstep & Hl2).
  assert (Hq1 : sentQuietly GM s [] s1).
  { pose proof (f_equal snd Hl1) as E. cbn [snd] in E. rewrite <- E.
    apply preserves_mfold; [|apply sentQuietly_start].
    intros acc a. apply quietly_moveStep. }
  destruct Hq1 as (before & Htr1 & Hw1 & _). cbn [app] in Htr1, Hw1.
  destruct (moveStep_removes s1 token ranges inactiveUuids acc1 acc2 effect s2
              Hf Hstep) as (post1 & uuids & rest1 & Hpost1 & Htr2 & Hdel).
  assert (Hext2 : extendsTrace (trace s2) sL).
  { pose proof (f_equal snd Hl2) as E. cbn [snd] in E. rewrite <- E.
    apply preserves_mfold; [|apply extends_refl].
    intros acc a. apply extends_moveStep. }
  destruct Hext2 as [rest2 Htr3].
  match goal with
  | |- exists _ _ _, trace (snd (?K sL)) = _ /\ _ =>
      assert (Hext3 : extendsTrace (trace sL) (snd (K sL)));
      [assert (Hk : preserves (extendsTrace (trace sL)) K)
         by (extend; apply extends_removeAndReplaceAuras);
       apply Hk, extends_refl|]
  end.
  destruct Hext3 as [rest3 Htr4].
  exists before, uuids, (rest1 ++ rest2 ++ rest3). split.
  - rewrite Htr4, Htr3, Htr2, Htr1. now rewrite <- !app_assoc.
  - intros a c post Ha Hpost Hout Hc. rewrite <- Hw1 in Hpost, Hc.
    rewrite Hpost1 in Hpost. injection Hpost as <-.
    apply (Hdel a c); [|exact Hc].
    unfold difference. apply filter_In. split.
    + unfold ranges. rewrite (preMoveRange_spec Hpre (world s) token
                                movement_origin act effect Hnd Hin Hf).
      now apply to_set_mem.
    + apply negb_true_iff. apply not_true_is_false. intros Hinc.
      apply Hout. unfold includes in Hinc. apply existsb_exists in Hinc.
      destruct Hinc as (b & Hb & Heq). apply String.eqb_eq in Heq. now subst.
Qed.

(** While the movement is not complete, the handler sends no request of
    its own: whatever is applied on that leg comes from the best-of
    search run after a removal. *)
Lemma moveToken_gated (s : St) (token : Token)
      (movement_origin : option Position) (user : string) :
  isFinalMovementComplete token = false ->
  handlerApplies (trace (snd (moveToken H Hpre GM token movement_origin user s)))
  = handlerApplies (trace s).
Proof.
  intros Hfinal.
  assert (Hquiet : preserves (sameHandlerApplies (trace s))
                             (moveToken H Hpre GM token movement_origin user)).
  { unfold moveToken, moveStep. rewrite Hfinal.
    repeat first
      [ apply preserves_ret | apply preserves_lift | apply preserves_getWorld
      | apply quiet_noActiveGM | apply quiet_removeAndReplaceAuras
      | apply preserves_bind; [|intros ?]
      | apply preserves_mfold; intros ? ?
      | rewrite andb_false_r
      | match goal with
        | |- preserves _ (if ?b then _ else _) => destruct b
        | |- preserves _ (match ?x with _ => _ end) => destruct x
        | |- preserves _ (let (_, _) := ?x in _) => destruct x
        end ]. }
  apply Hquiet. reflexivity.
Qed.

End Movement.

(** C3, as the code has it.  When [moveToken] completes a leg (it is run
    for the initiating user, with a GM and a token that has an actor, and
    returns), each active source aura of the moving token with a radius has
    had its deletion sent on that leg: it names the effect of that origin
    of every actor that was in range of the movement's origin, as read
    before the animation, and is not in the range read, with the predicate,
    just before that deletion.  The handler's own additions wait for the
    end of the movement (state stopped, or no pending distance and the
    destination reached in x, y and elevation): before that it sends no
    request of its own, and what is applied on the leg comes only from the
    best-of search that follows a removal. *)
Theorem movement_atomicity (H Hpre : Host) (GM : Authority) (token : Token) :
  (forall (s : St) (movement_origin : option Position) (user gm : string)
          (actor : Actor) (effect : Effect),
      currentUser (world s) = user ->
      activeGM (world s) = Some gm ->
      token_actor (world s) token = Some actor ->
      NoDup (map uuid (fst (getAllAuraEffects (Some actor)))) ->
      In effect (fst (getAllAuraEffects (Some actor))) ->
      falsy (distance (system effect)) = false ->
      fst (moveToken H Hpre GM token movement_origin user s) = Returned tt ->
      exists before uuids after,
        trace (snd (moveToken H Hpre GM token movement_origin user s))
        = trace s ++ before ++ DeleteEffects uuids :: after
        /\ forall (a : string) (c : Effect) (post : list string),
             In a (actorsOf (world s)
                     (getNearbyTokens Hpre (world s) token
                        (distance (system effect)) movement_origin
                        (sys_disposition (system effect))
                        (collisionTypes (system effect)))) ->
             scriptedRange H (replay GM (world s) before) token effect
             = Returned post ->
             ~ In a post ->
             find_origin (uuid effect)
                         (actorEffects (replay GM (world s) before) a)
             = Some c ->
             In (uuid c) uuids)
  /\ (forall (s : St) (movement_origin : option Position) (user : string),
         isFinalMovementComplete token = false ->
         handlerApplies
           (trace (snd (moveToken H Hpre GM token movement_origin user s)))
         = handlerApplies (trace s))
  /\ (isFinalMovementComplete token = true
      <-> state (movement token) = "stopped"
          \/ ((pending (movement token) = None
               \/ exists d, pending (movement token) = Some d /\ d == 0)
              /\ pos_x (destination (movement token)) == x token
              /\ pos_y (destination (movement token)) == y token
              /\ pos_elevation (destination (movement token))
                 == elevation token)).
Proof.
  split; [intros; eapply moveToken_removes; eauto|].
  split; [intros; now apply moveToken_gated|].
  apply isFinalMovementComplete_spec.
Qed.

Lemma movement_atomicity_witness :
  (exists before uuids after,
      trace (snd (moveToken (Demo.host true) (Demo.hostBefore Demo.nearOrigin)
                    specAuthority Demo.tokLeaver (Some Demo.nearOrigin)
                    "user1" (Demo.start Demo.leaveWorld)))
      = [] ++ before ++ DeleteEffects uuids :: after
      /\ In (uuid Demo.leftClone) uuids)
  /\ handlerApplies
       (trace (snd (moveToken (Demo.host true)
                      (Demo.hostBefore Demo.nearOrigin) specAuthority
                      Demo.tokLeaver (Some Demo.nearOrigin) "user1"
                      (Demo.start Demo.leaveWorld))))
     = [].
Proof.
  destruct (movement_atomicity (Demo.host true)
              (Demo.hostBefore Demo.nearOrigin) specAuthority Demo.tokLeaver)
    as (Hremoves & Hgated & _).
  split.
  - destruct (Hremoves (Demo.start Demo.leaveWorld) (Some Demo.nearOrigin)
                "user1" "gm"
                (mkActor "Actor.m" "Cleric"
                         [Demo.blessNear "Actor.m.ActiveEffect.bless" false] [])
                (Demo.blessNear "Actor.m.ActiveEffect.bless" false)
                eq_refl eq_refl eq_refl)
      as (before & uuids & after & Htrace & Hnamed).
    + repeat constructor. simpl. tauto.
    + left. reflexivity.
    + reflexivity.
    + reflexivity.
    + exists before, uuids, after. split; [exact Htrace|].
      assert (Hnone : before = []).
      { change (trace (snd (moveToken (Demo.host true)
                              (Demo.hostBefore Demo.nearOrigin) specAuthority
                              Demo.tokLeaver (Some Demo.nearOrigin) "user1"
                              (Demo.start Demo.leaveWorld))))
          with [DeleteEffects ["Actor.t.ActiveEffect.clone"]] in Htrace.
        destruct before as [|ev before]; [reflexivity|].
        simpl in Htrace. injection Htrace as _ Hrest.
        destruct before; discriminate. }
      subst before.
      apply (Hnamed "Actor.t" Demo.leftClone ["Actor.m"]).
      * vm_compute. left. reflexivity.
      * reflexivity.
      * simpl. intros [Heq|[]]. discriminate.
      * reflexivity.
  - apply (Hgated (Demo.start Demo.leaveWorld)). reflexivity.
Defined.

(** C3, as stated, fails: the mover is in the middle of its move (forty
    units pending); the target was out of range of the mover's aura at the
    origin and is in range now; the leg removes the target's lingering
    effect of the mover's disabled aura of the same name, and the best-of
    search asks for the mover's aura on the target at once. *)
Lemma intermediate_leg_applies :
  let run := moveToken (Demo.host true) (Demo.hostBefore Demo.farOrigin)
               specAuthority Demo.tokMover (Some Demo.farOrigin) "user1"
               (Demo.start Demo.moveWorld) in
  isFinalMovementComplete Demo.tokMover = false
  /\ preMoveRange
       (preMoveRanges (Demo.hostBefore Demo.farOrigin) Demo.moveWorld
          Demo.tokMover (Some Demo.farOrigin)
          [Demo.blessNear "Actor.m.ActiveEffect.bless" false])
       "Actor.m.ActiveEffect.bless" = []
  /\ scriptedRange (Demo.host true) Demo.moveWorld Demo.tokMover
       (Demo.blessNear "Actor.m.ActiveEffect.bless" false)
     = Returned ["Actor.m"; "Actor.t"]
  /\ fst run = Returned tt
  /\ trace (snd run)
     = [DeleteEffects ["Actor.t.ActiveEffect.linger"];
        ApplyAuraEffects ByBestOf
          [("Actor.t", ["Actor.m.ActiveEffect.bless"])]].
Proof. vm_compute. repeat split. Qed.

(* ------------------------------------------------------------------ *)
(** ** The requests of the per-source addition paths *)

Lemma handlerApplies_snoc (tr : list Event) (m m' : ApplyMap) :
  In m (handlerApplies (tr ++ [ApplyAuraEffects ByHandler m'])) ->
  In m (handlerApplies tr) \/ m = m'.
Proof.
  rewrite handlerApplies_app. intros Hin. apply in_app_iff in Hin.
  destruct Hin as [Hin|[<-|[]]]; auto.
Qed.

Section Additions.

Variable H : Host.
Variable Hpre : Host.
Variable GM : Authority.


Lemma noActiveGM_applies (s : St) :
  handlerApplies (trace (snd (noActiveGM s))) = handlerApplies (trace s).
Proof. apply quiet_noActiveGM. reflexivity. Qed.











End Additions.




(* ------------------------------------------------------------------ *)
(** ** Scene delta calculator *)

Section DeltaSteps.

Variable H : Host.
Variable w : World.
Variable token : Token.
Variable C : list Effect.

Lemma deltaEffectStep_cases (s : Token) (r d r' d' : list Effect)
      (cur : Effect) :
  deltaEffectStep H w token s C (r, d) cur = Returned (r', d') ->
  (rejects H w token s cur /\ d' = d
   /\ r' = r ++ match find_origin (uuid cur) C with
                | Some c => [c]
                | None => []
                end)
  \/ (accepts H w token s cur /\ r' = r /\ d' = d ++ [cur]).
Proof.
  unfold deltaEffectStep, rejects, accepts.
  destruct (Num.ltb _ _) eqn:Hfar; simpl.
  - destruct (find_origin (uuid cur) C); intros [= <- <-]; left;
      rewrite ?app_nil_r; auto.
  - destruct (runScript H w s token cur) as [[|]|err]; simpl;
      [| |discriminate].
    + intros [= <- <-]. right. auto.
    + destruct (find_origin (uuid cur) C); intros [= <- <-]; left;
        rewrite ?app_nil_r; auto.
Qed.

(** The token step, without its two shortcuts. *)
Lemma deltaTokenStep_eq (r d : list Effect) (s : Token) :
  deltaTokenStep H w token C (r, d) s
  = if same_actor (token_actor w s) (token_actor w token)
    then Returned (r, d)
    else ofold (deltaEffectStep H w token s C) (matchingAuras w token s)
               (r ++ inactiveHits w s C, d).
Proof.
  unfold deltaTokenStep, matchingAuras, inactiveHits.
  destruct (same_actor _ _); [reflexivity|].
  destruct (getAllAuraEffects (token_actor w s)) as [act inact]. simpl.
  assert (Hr : match inact with
               | [] => r
               | _ :: _ =>
                   r ++ filter (fun appliedEffect =>
                                  existsb (fun inactiveEffect =>
                                             opt_eqb (origin appliedEffect)
                                                     (uuid inactiveEffect))
                                          inact) C
               end
               = r ++ filter (fun appliedEffect =>
                                existsb (fun inactiveEffect =>
                                           opt_eqb (origin appliedEffect)
                                                   (uuid inactiveEffect))
                                        inact) C).
  { destruct inact; [|reflexivity]. simpl.
    rewrite (filter_none (fun _ => false) C) by reflexivity.
    now rewrite app_nil_r. }
  rewrite Hr.
  destruct (filter _ act); reflexivity.
Qed.

(** What the loop over one source token's auras leaves in the lists. *)
Lemma effectSteps_spec (s : Token) (l : list Effect) :
  forall r d r' d',
    ofold (deltaEffectStep H w token s C) l (r, d) = Returned (r', d') ->
    incl r r'
    /\ (forall cur c, In cur l -> rejects H w token s cur ->
                      find_origin (uuid cur) C = Some c -> In c r')
    /\ (forall cur, In cur l ->
                    rejects H w token s cur \/ accepts H w token s cur)
    /\ (forall e, In e d' -> In e d \/ (In e l /\ accepts H w token s e))
    /\ (forall e, In e r' ->
                  In e r
                  \/ exists cur, In cur l /\ rejects H w token s cur
                                 /\ find_origin (uuid cur) C = Some e).
Proof.
  induction l as [|cur l IH]; intros r d r' d'; cbn [ofold].
  - intros [= <- <-]. repeat split; auto using incl_refl.
    + intros cur c [].
    + intros cur [].
  - destruct (deltaEffectStep H w token s C (r, d) cur) as [[r1 d1]|err]
      eqn:Hstep; cbn [obind]; [|discriminate].
    intros Hrest. apply IH in Hrest.
    destruct Hrest as (Hincl & Hrej & Hdec & Hadd & Hrem).
    apply deltaEffectStep_cases in Hstep.
    destruct Hstep as [(Hr & -> & ->)|(Ha & -> & ->)].
    + repeat split.
      * intros e He. apply Hincl. apply in_app_iff. now left.
      * intros cur' c [<-|Hin] Hrej' Hfind; [|eauto].
        apply Hincl. rewrite Hfind. apply in_app_iff. right. now left.
      * intros cur' [<-|Hin]; [now left|auto].
      * intros e He. destruct (Hadd e He) as [Hd|[Hl Hacc]]; [now left|].
        right. split; [now right|exact Hacc].
      * intros e He. destruct (Hrem e He) as [Hold|(cur' & Hin & Hr' & Hf)].
        -- apply in_app_iff in Hold. destruct Hold as [Hold|Hnew]; [now left|].
           right. exists cur. split; [now left|]. split; [exact Hr|].
           destruct (find_origin (uuid cur) C) as [c|]; [|destruct Hnew].
           destruct Hnew as [<-|[]]. reflexivity.
        -- right. exists cur'. split; [now right|]. auto.
    + repeat split.
      * exact Hincl.
      * intros cur' c [<-|Hin] Hrej' Hfind; [|eauto].
        exfalso. destruct Ha as [Hfar Hok].
        destruct Hrej' as [Hfar'|Hno]; congruence.
      * intros cur' [<-|Hin]; [now right|auto].
      * intros e He. destruct (Hadd e He) as [Hd|[Hl Hacc]].
        -- apply in_app_iff in Hd. destruct Hd as [Hd|[<-|[]]]; [now left|].
           right. split; [now left|exact Ha].
        -- right. split; [now right|exact Hacc].
      * intros e He. destruct (Hrem e He) as [Hold|(cur' & Hin & Hr' & Hf)];
          [now left|].
        right. exists cur'. split; [now right|]. auto.
Qed.

End DeltaSteps.

Section Lists.

Context {A B : Type}.

Lemma NoDup_app_disjoint (l l' : list A) (a : A) :
  NoDup (l ++ l') -> In a l -> In a l' -> False.
Proof.
  induction l as [|b l IH]; simpl; intros Hnd Hl Hl'; [contradiction|].
  inversion Hnd as [|? ? Hnotin Hrest]; subst.
  destruct Hl as [->|Hl].
  - apply Hnotin. apply in_app_iff. now right.
  - now apply IH.
Qed.

Lemma NoDup_map_injective (f : A -> B) (l : list A) (x y : A) :
  NoDup (map f l) -> In x l -> In y l -> f x = f y -> x = y.
Proof.
  induction l as [|a l IH]; simpl; intros Hnd Hx Hy Hxy; [contradiction|].
  inversion Hnd as [|? ? Hnotin Hrest]; subst.
  destruct Hx as [->|Hx], Hy as [->|Hy]; auto.
  - exfalso. apply Hnotin. rewrite Hxy. now apply in_map.
  - exfalso. apply Hnotin. rewrite <- Hxy. now apply in_map.
Qed.

Lemma find_map (p : A -> bool) (g : A -> A) (l : list A) :
  (forall a, p (g a) = p a) ->
  find p (map g l) = option_map g (find p l).
Proof.
  intros Hp. induction l as [|a l IH]; [reflexivity|].
  simpl. rewrite Hp. destruct (p a); [reflexivity|exact IH].
Qed.

Lemma find_found (p : A -> bool) (l : list A) (a : A) :
  In a l -> p a = true -> exists b, find p l = Some b.
Proof.
  intros Hin Hp. destruct (find p l) as [b|] eqn:Hfind; [now exists b|].
  pose proof (find_none p l Hfind a Hin). congruence.
Qed.

End Lists.

Lemma opt_eqb_eq (o : option string) (u : string) :
  opt_eqb o u = true <-> o = Some u.
Proof.
  unfold opt_eqb. destruct o as [s|].
  - rewrite String.eqb_eq. split; congruence.
  - split; discriminate.
Qed.

Lemma find_origin_some (u : string) (l : list Effect) (e : Effect) :
  find_origin u l = Some e -> In e l /\ origin e = Some u.
Proof.
  unfold find_origin. intros Hfind. apply find_some in Hfind.
  now rewrite opt_eqb_eq in Hfind.
Qed.

Lemma find_origin_found (u : string) (l : list Effect) (e : Effect) :
  In e l -> origin e = Some u -> exists c, find_origin u l = Some c.
Proof.
  intros Hin Ho. apply (find_found _ l e Hin). now apply opt_eqb_eq.
Qed.

(** With unique identifiers, an effect sits on one actor only. *)
Lemma unique_holder (l : list Actor) :
  NoDup (map uuid (flat_map effects l)) ->
  forall a1 a2 e1 e2,
    In a1 l -> In a2 l -> In e1 (effects a1) -> In e2 (effects a2) ->
    uuid e1 = uuid e2 -> e1 = e2 /\ a1 = a2.
Proof.
  induction l as [|a l IH]; simpl; intros Hnd a1 a2 e1 e2 H1 H2 He1 He2 Hu;
    [contradiction|].
  rewrite map_app in Hnd.
  assert (Hcross : forall x y b,
             In x (effects a) -> In b l -> In y (effects b) ->
             uuid x = uuid y -> False).
  { intros x y b Hx Hb Hy Hxy.
    apply (NoDup_app_disjoint _ _ (uuid x) Hnd).
    - now apply in_map.
    - rewrite Hxy. apply in_map. apply in_flat_map. now exists b. }
  destruct H1 as [<-|H1], H2 as [<-|H2].
  - split; [|reflexivity].
    apply NoDup_app_remove_r in Hnd.
    now apply (NoDup_map_injective uuid (effects a)).
  - exfalso. now apply (Hcross e1 e2 a2).
  - exfalso. now apply (Hcross e2 e1 a1 He2 H1 He1).
  - apply IH; auto. now apply NoDup_app_remove_l in Hnd.
Qed.

Lemma lookup_actor_in (w : World) (id : string) (a : Actor) :
  lookup_actor w id = Some a -> In a (actors w) /\ actor_uuid a = id.
Proof.
  unfold lookup_actor. intros Hfind. apply find_some in Hfind.
  now rewrite String.eqb_eq in Hfind.
Qed.

Lemma token_actor_in (w : World) (t : Token) (a : Actor) :
  token_actor w t = Some a ->
  In a (actors w) /\ actorId t = Some (actor_uuid a).
Proof.
  unfold token_actor. destruct (actorId t) as [id|]; [|discriminate].
  intros Hfind. apply lookup_actor_in in Hfind. destruct Hfind as [Hin <-].
  auto.
Qed.

Lemma fromUuidSync_some (w : World) (u : string) (e : Effect) :
  fromUuidSync w u = Some e ->
  In e (flat_map effects (actors w)) /\ uuid e = u.
Proof.
  unfold fromUuidSync. intros Hfind. apply find_some in Hfind.
  now rewrite String.eqb_eq in Hfind.
Qed.

Lemma fromUuidSync_unique (w : World) (a : Actor) (e : Effect) :
  uniqueUuids w -> In a (actors w) -> In e (effects a) ->
  fromUuidSync w (uuid e) = Some e.
Proof.
  intros Hnd Ha He.
  assert (Hin : In e (flat_map effects (actors w))).
  { apply in_flat_map. now exists a. }
  destruct (find_found (fun x => String.eqb (uuid x) (uuid e)) _ e Hin
                       (String.eqb_refl _)) as [b Hb].
  unfold fromUuidSync. rewrite Hb. f_equal.
  apply find_some in Hb. destruct Hb as [Hbin Hbu].
  apply String.eqb_eq in Hbu.
  now apply (NoDup_map_injective uuid (flat_map effects (actors w))).
Qed.

(** The auras read by the delta are effects of the source's actor. *)
Lemma partitionAuras_in (l : list Effect) (e : Effect) :
  (In e (fst (partitionAuras l)) -> In e l /\ active e = true)
  /\ (In e (snd (partitionAuras l)) -> In e l /\ active e = false).
Proof.
  induction l as [|x l IH]; simpl; [tauto|].
  destruct (partitionAuras l) as [act inact]. simpl in IH.
  destruct (negb (is_aura x)); simpl; [tauto|].
  unfold active.
  destruct (negb (disabled x) && negb (isSuppressed x)) eqn:Hact; simpl.
  - split; [|tauto]. intros [<-|Hin]; [auto|tauto].
  - split; [tauto|]. intros [<-|Hin]; [auto|tauto].
Qed.

Lemma matchingAuras_in (w : World) (token s : Token) (e : Effect) :
  In e (matchingAuras w token s) ->
  exists a, token_actor w s = Some a /\ In e (effects a) /\ active e = true.
Proof.
  unfold matchingAuras, getAllAuraEffects. intros Hin.
  apply filter_In in Hin. destruct Hin as [Hin _].
  destruct (token_actor w s) as [a|]; [|destruct Hin].
  exists a. split; [reflexivity|].
  now apply partitionAuras_in.
Qed.

Lemma inactiveHits_in (w : World) (s : Token) (l : list Effect) (e : Effect) :
  In e (inactiveHits w s l) <->
  In e l /\ exists i, In i (snd (getAllAuraEffects (token_actor w s)))
                      /\ origin e = Some (uuid i).
Proof.
  unfold inactiveHits. rewrite filter_In, existsb_exists.
  split; intros [Hin (i & Hi & Ho)]; (split; [exact Hin|]); exists i;
    (split; [exact Hi|]); now apply opt_eqb_eq.
Qed.

Lemma inactive_in (w : World) (s : Token) (i : Effect) :
  In i (snd (getAllAuraEffects (token_actor w s))) ->
  exists a, token_actor w s = Some a /\ In i (effects a) /\ active i = false.
Proof.
  unfold getAllAuraEffects. intros Hin.
  destruct (token_actor w s) as [a|]; [|destruct Hin].
  exists a. split; [reflexivity|]. now apply partitionAuras_in.
Qed.

Section DeltaRun.

Variable H : Host.
Variable w : World.
Variable token : Token.
Variable C : list Effect.

(** What the loop over the scene's tokens leaves in the lists. *)
Lemma tokenSteps_spec (l : list Token) :
  forall r d r' d',
    ofold (deltaTokenStep H w token C) l (r, d) = Returned (r', d') ->
    incl r r'
    /\ (forall s e, In s l ->
           same_actor (token_actor w s) (token_actor w token) = false ->
           In e (inactiveHits w s C) -> In e r')
    /\ (forall s cur c, In s l ->
           same_actor (token_actor w s) (token_actor w token) = false ->
           In cur (matchingAuras w token s) -> rejects H w token s cur ->
           find_origin (uuid cur) C = Some c -> In c r')
    /\ (forall e, In e d' ->
           In e d
           \/ exists s, In s l
                /\ same_actor (token_actor w s) (token_actor w token) = false
                /\ In e (matchingAuras w token s) /\ accepts H w token s e)
    /\ (forall e, In e r' -> In e r \/ In e C).
Proof.
  induction l as [|a l IH]; intros r d r' d'; cbn [ofold].
  - intros [= <- <-]. repeat split; auto using incl_refl.
    + intros s e [].
    + intros s cur c [].
  - destruct (deltaTokenStep H w token C (r, d) a) as [[r1 d1]|err] eqn:Hstep;
      cbn [obind]; [|discriminate].
    intros Hrest. apply IH in Hrest.
    destruct Hrest as (Hincl & Hhits & Hrej & Hadd & Hrem).
    rewrite deltaTokenStep_eq in Hstep.
    destruct (same_actor (token_actor w a) (token_actor w token)) eqn:Hsame.
    + injection Hstep as <- <-. repeat split.
      * exact Hincl.
      * intros s e [<-|Hin] Hs; [congruence|eauto].
      * intros s cur c [<-|Hin] Hs; [congruence|eauto].
      * intros e He. destruct (Hadd e He) as [Hd|(s & Hin & Hs)];
          [now left|].
        right. exists s. split; [now right|exact Hs].
      * exact Hrem.
    + apply effectSteps_spec in Hstep.
      destruct Hstep as (Hincl1 & Hrej1 & _ & Hadd1 & Hrem1).
      repeat split.
      * intros e He. apply Hincl, Hincl1. apply in_app_iff. now left.
      * intros s e [<-|Hin] Hs He; [|eauto].
        apply Hincl, Hincl1. apply in_app_iff. now right.
      * intros s cur c [<-|Hin] Hs Hcur Hr Hfind; [|eauto].
        apply Hincl. eauto.
      * intros e He. destruct (Hadd e He) as [Hd|(s & Hin & Hs)].
        -- destruct (Hadd1 e Hd) as [Hold|[Hm Hacc]]; [now left|].
           right. exists a. split; [now left|]. auto.
        -- right. exists s. split; [now right|exact Hs].
      * intros e He. destruct (Hrem e He) as [Hold|HC]; [|now right].
        destruct (Hrem1 e Hold) as [Hold1|(cur & _ & _ & Hfind)].
        -- apply in_app_iff in Hold1. destruct Hold1 as [Hr|Hhit];
             [now left|].
           right. now apply inactiveHits_in in Hhit.
        -- right. now apply find_origin_some in Hfind.
Qed.

(** The delta of a token that has an actor, by its parts. *)
Lemma getChangingSceneAuras_parts (actor : Actor) (R D : list Effect) :
  token_actor w token = Some actor ->
  getChangingSceneAuras H w token = Returned (R, D) ->
  exists r,
    ofold (deltaTokenStep H w token (filter fromAura (appliedEffects actor)))
          (tokens w) ([], [])
    = Returned (r, D)
    /\ R = r ++ staleApplied w (appliedEffects actor).
Proof.
  intros Ha. unfold getChangingSceneAuras. rewrite Ha.
  destruct (ofold _ _ _) as [[r d]|err]; simpl; [|discriminate].
  intros [= <- <-]. now exists r.
Qed.

Section Again.

Variable w2 : World.
Variable C2 : list Effect.

Hypothesis same_actor_same :
  forall s, same_actor (token_actor w2 s) (token_actor w2 token)
            = same_actor (token_actor w s) (token_actor w token).
Hypothesis auras_same :
  forall s, same_actor (token_actor w s) (token_actor w token) = false ->
            token_actor w2 s = token_actor w s.

Lemma effectSteps_again (s : Token) (l : list Effect) :
  (forall cur, In cur l ->
      runScript H w2 s token cur = runScript H w s token cur) ->
  (forall cur, In cur l -> rejects H w token s cur ->
      find_origin (uuid cur) C2 = None) ->
  forall r d r' d' r2,
    ofold (deltaEffectStep H w token s C) l (r, d) = Returned (r', d') ->
    ofold (deltaEffectStep H w2 token s C2) l (r2, d) = Returned (r2, d').
Proof.
  induction l as [|cur l IH]; intros Hscript Hnone r d r' d' r2; cbn [ofold].
  - now intros [= <- <-].
  - destruct (deltaEffectStep H w token s C (r, d) cur) as [[r1 d1]|err]
      eqn:Hstep; cbn [obind]; [|discriminate].
    intros Hrest.
    assert (Hstep2 : deltaEffectStep H w2 token s C2 (r2, d) cur
                     = Returned (r2, d1)).
    { pose proof (Hnone cur (or_introl eq_refl)) as Hn.
      apply deltaEffectStep_cases in Hstep.
      unfold deltaEffectStep, rejects, accepts in *.
      rewrite (Hscript cur (or_introl eq_refl)).
      destruct Hstep as [(Hr & -> & _)|((Hfar & Hok) & _ & ->)].
      - rewrite (Hn Hr).
        destruct Hr as [Hfar|Hno].
        + now rewrite Hfar.
        + rewrite Hno. now destruct (Num.ltb _ _).
      - now rewrite Hfar, Hok. }
    rewrite Hstep2. cbn [obind].
    eapply IH; eauto.
    + intros c Hc. apply Hscript. now right.
    + intros c Hc. apply Hnone. now right.
Qed.

Lemma tokenSteps_again (l : list Token) :
  (forall s, In s l ->
      same_actor (token_actor w s) (token_actor w token) = false ->
      inactiveHits w s C2 = []
      /\ forall cur, In cur (matchingAuras w token s) ->
            runScript H w2 s token cur = runScript H w s token cur
            /\ (rejects H w token s cur -> find_origin (uuid cur) C2 = None)) ->
  forall r d r' d' r2,
    ofold (deltaTokenStep H w token C) l (r, d) = Returned (r', d') ->
    ofold (deltaTokenStep H w2 token C2) l (r2, d) = Returned (r2, d').
Proof.
  induction l as [|a l IH]; intros Hall r d r' d' r2; cbn [ofold].
  - now intros [= <- <-].
  - destruct (deltaTokenStep H w token C (r, d) a) as [[r1 d1]|err] eqn:Hstep;
      cbn [obind]; [|discriminate].
    intros Hrest.
    assert (Hstep2 : deltaTokenStep H w2 token C2 (r2, d) a
                     = Returned (r2, d1)).
    { rewrite deltaTokenStep_eq in *. rewrite same_actor_same.
      destruct (same_actor (token_actor w a) (token_actor w token)) eqn:Hsame.
      - now injection Hstep as <- <-.
      - destruct (Hall a (or_introl eq_refl) Hsame) as [Hhits Hcur].
        unfold matchingAuras, inactiveHits in *.
        rewrite (auras_same a Hsame), Hhits, app_nil_r.
        eapply effectSteps_again; [| |exact Hstep].
        + intros cur Hin. now apply Hcur.
        + intros cur Hin. now apply Hcur. }
    rewrite Hstep2. cbn [obind].
    eapply IH; eauto.
    intros s Hs. apply Hall. now right.
Qed.

End Again.

End DeltaRun.

Lemma includes_in (l : list string) (s : string) :
  includes l s = true <-> In s l.
Proof.
  unfold includes. rewrite existsb_exists. split.
  - intros (x & Hin & Heq). apply String.eqb_eq in Heq. now subst.
  - intros Hin. exists s. split; [exact Hin|apply String.eqb_refl].
Qed.

Lemma addClones_uuid (sources : list Effect) :
  forall a, actor_uuid (addClones sources a) = actor_uuid a.
Proof.
  induction sources as [|x l IH]; intros a; simpl; [reflexivity|].
  now rewrite IH.
Qed.

Lemma addClones_keeps (sources : list Effect) :
  forall a e, In e (effects a) -> In e (effects (addClones sources a)).
Proof.
  induction sources as [|x l IH]; intros a e Hin; simpl; [exact Hin|].
  apply IH. simpl. apply in_app_iff. now left.
Qed.

Lemma addClones_effects (sources : list Effect) :
  forall a e,
    In e (effects (addClones sources a)) ->
    In e (effects a)
    \/ exists source fresh,
         In source sources /\ e = cloneOnto (actor_uuid a) fresh source.
Proof.
  induction sources as [|x l IH]; intros a e; simpl; [now left|].
  intros Hin. apply IH in Hin. simpl in Hin.
  destruct Hin as [Hin|(source & fresh & Hin & ->)].
  - apply in_app_iff in Hin. destruct Hin as [Hin|[<-|[]]]; [now left|].
    right. exists x, (freshUuid a x). auto.
  - right. exists source, fresh. auto.
Qed.

Lemma deltaUpdate_uuid (delta : list Effect * list Effect) (a : Actor) :
  actor_uuid (deltaUpdate delta a) = actor_uuid a.
Proof. unfold deltaUpdate. now rewrite addClones_uuid. Qed.

Lemma deltaUpdate_effects (R D : list Effect) (a : Actor) (e : Effect) :
  In e (effects (deltaUpdate (R, D) a)) ->
  (In e (effects a) /\ ~ In (uuid e) (map uuid R))
  \/ exists source fresh,
       In source D /\ e = cloneOnto (actor_uuid a) fresh source.
Proof.
  unfold deltaUpdate. intros Hin. apply addClones_effects in Hin.
  destruct Hin as [Hin|Hclone]; [left|now right].
  simpl in Hin. apply filter_In in Hin. destruct Hin as [Hin Hkeep].
  split; [exact Hin|].
  apply negb_true_iff in Hkeep. rewrite <- includes_in. congruence.
Qed.

Lemma deltaUpdate_keeps (R D : list Effect) (a : Actor) (e : Effect) :
  In e (effects a) -> ~ In (uuid e) (map uuid R) ->
  In e (effects (deltaUpdate (R, D) a)).
Proof.
  intros Hin Hnot. unfold deltaUpdate. apply addClones_keeps. simpl.
  apply filter_In. split; [exact Hin|].
  apply negb_true_iff. rewrite <- includes_in in Hnot.
  now destruct (includes (map uuid R) (uuid e)).
Qed.

Lemma accepts_rejects (H : Host) (w : World) (token s : Token) (e : Effect) :
  accepts H w token s e -> rejects H w token s e -> False.
Proof. unfold accepts, rejects. intros [Hfar Hok] [Hfar'|Hno]; congruence. Qed.

Section Reapply.

Variable H : Host.
Variable w : World.
Variable token : Token.
Variable A : Actor.
Variable delta : list Effect * list Effect.
Hypothesis HA : token_actor w token = Some A.

Lemma applyDelta_actors :
  actors (applyDelta w token delta)
  = map (updated (deltaUpdate delta) (actor_uuid A)) (actors w).
Proof. unfold applyDelta. now rewrite HA. Qed.

Lemma applyDelta_tokens : tokens (applyDelta w token delta) = tokens w.
Proof. unfold applyDelta. now rewrite HA. Qed.

Lemma updated_uuid (a : Actor) :
  actor_uuid (updated (deltaUpdate delta) (actor_uuid A) a) = actor_uuid a.
Proof.
  unfold updated. destruct (String.eqb _ _); [|reflexivity].
  apply deltaUpdate_uuid.
Qed.

Lemma token_actor_applyDelta (s : Token) :
  token_actor (applyDelta w token delta) s
  = option_map (updated (deltaUpdate delta) (actor_uuid A)) (token_actor w s).
Proof.
  unfold token_actor, lookup_actor. rewrite applyDelta_actors.
  destruct (actorId s) as [id|]; [|reflexivity].
  apply find_map. intros a. now rewrite updated_uuid.
Qed.

Lemma token_actor_self :
  token_actor (applyDelta w token delta) token = Some (deltaUpdate delta A).
Proof.
  rewrite token_actor_applyDelta, HA. simpl. unfold updated.
  now rewrite String.eqb_refl.
Qed.

Lemma same_actor_applyDelta (s : Token) :
  same_actor (token_actor (applyDelta w token delta) s)
             (token_actor (applyDelta w token delta) token)
  = same_actor (token_actor w s) (token_actor w token).
Proof.
  rewrite !token_actor_applyDelta.
  destruct (token_actor w s), (token_actor w token); simpl;
    rewrite ?updated_uuid; reflexivity.
Qed.

Lemma token_actor_other (s : Token) :
  same_actor (token_actor w s) (token_actor w token) = false ->
  token_actor (applyDelta w token delta) s = token_actor w s.
Proof.
  rewrite token_actor_applyDelta, HA.
  destruct (token_actor w s) as [b|]; simpl; [|reflexivity].
  intros Hneq. unfold updated. now rewrite Hneq.
Qed.

Lemma applyDelta_in (b : Actor) :
  In b (actors w) ->
  In (updated (deltaUpdate delta) (actor_uuid A) b)
     (actors (applyDelta w token delta)).
Proof. rewrite applyDelta_actors. apply in_map. Qed.

End Reapply.


(** C2, as the code has it.  When the output of the scene delta for a
    token is applied to the token's actor (every effect to remove deleted,
    every source effect to add cloned on with its origin set), running the
    delta again on the same token returns an empty removal list and the
    same list of additions: nothing is left to remove, and every source
    that is in range and passes its script is listed again, applied or not.
    This holds on a world where effects have their own uuids before and
    after, no actor has two tokens on the scene, the actor's applied
    aura-derived effects have distinct origins and none of them comes from
    an aura-derived effect, and the scripts answer the same after the
    change. *)
Theorem delta_reapplied (H : Host) (w : World) (token : Token) (A : Actor)
        (R D : list Effect) :
  token_actor w token = Some A ->
  getChangingSceneAuras H w token = Returned (R, D) ->
  uniqueUuids w ->
  uniqueUuids (applyDelta w token (R, D)) ->
  oneTokenPerActor w ->
  distinctAppliedOrigins A ->
  sourcesNotDerived w A ->
  (forall s e,
      In s (tokens w) -> In e (matchingAuras w token s) ->
      runScript H (applyDelta w token (R, D)) s token e
      = runScript H w s token e) ->
  getChangingSceneAuras H (applyDelta w token (R, D)) token
  = Returned ([], D).
Proof.
  intros HA Hrun Hu Hu2 Hone Hnd Hsrc Hscript.
  destruct (getChangingSceneAuras_parts H w token A R D HA Hrun)
    as (r & Hfold & HR).
  set (C := filter fromAura (appliedEffects A)) in *.
  destruct (tokenSteps_spec H w token C _ _ _ _ _ Hfold)
    as (_ & Hhits & Hrej & Hadd & Hrem).
  set (w2 := applyDelta w token (R, D)) in *.
  set (A2 := deltaUpdate (R, D) A).
  set (C2 := filter fromAura (appliedEffects A2)).
  assert (HAin : In A (actors w)) by now apply token_actor_in in HA.
  (* what the first run removed *)
  assert (HRC : forall x, In x R -> In x C).
  { intros x Hx. rewrite HR in Hx. apply in_app_iff in Hx.
    destruct Hx as [Hx|Hx].
    - destruct (Hrem x Hx) as [[]|HC]. exact HC.
    - unfold staleApplied in Hx. apply filter_In in Hx.
      destruct Hx as [Hx Hflag]. apply andb_prop in Hflag.
      unfold C. apply filter_In. tauto. }
  assert (HCA : forall x, In x C ->
                  In x (effects A) /\ active x = true /\ fromAura x = true).
  { intros x Hx. unfold C, appliedEffects, allApplicableEffects in Hx.
    rewrite !filter_In in Hx. tauto. }
  (* what the first run added *)
  assert (HD : forall source, In source D ->
             exists s a, In s (tokens w)
                         /\ token_actor w s = Some a
                         /\ actor_uuid a <> actor_uuid A
                         /\ In a (actors w)
                         /\ In source (effects a)
                         /\ active source = true
                         /\ accepts H w token s source).
  { intros source Hin.
    destruct (Hadd source Hin) as [[]|(s & Hs & Hsame & Hm & Hacc)].
    destruct (matchingAuras_in w token s source Hm) as (a & Ha & He & Hact).
    exists s, a. rewrite Ha, HA in Hsame. simpl in Hsame.
    apply String.eqb_neq in Hsame.
    repeat (split; [assumption|]).
    split; [now apply token_actor_in in Ha|]. auto. }
  (* what the actor holds afterwards *)
  assert (HC2 : forall e, In e C2 ->
             (In e C /\ ~ In (uuid e) (map uuid R))
             \/ exists source, In source D /\ origin e = Some (uuid source)).
  { intros e He. unfold C2, appliedEffects, allApplicableEffects in He.
    rewrite !filter_In in He. destruct He as [[He Hact] Hflag].
    apply deltaUpdate_effects in He.
    destruct He as [[He Hnot]|(source & fresh & Hin & ->)].
    - left. split; [|exact Hnot].
      unfold C, appliedEffects, allApplicableEffects. rewrite !filter_In.
      auto.
    - right. exists source. auto. }
  assert (Hstale : staleApplied w2 (appliedEffects A2) = []).
  { unfold staleApplied. apply filter_none. intros e He.
    unfold appliedEffects, allApplicableEffects in He.
    apply filter_In in He. destruct He as [He Hact].
    apply deltaUpdate_effects in He.
    destruct He as [[He Hnot]|(source & fresh & Hin & ->)].
    - destruct (fromAura e) eqn:Hflag; [|reflexivity]. simpl.
      destruct (match match origin e with
                      | Some o => fromUuidSync w o
                      | None => None
                      end with
                | Some sourceEffect =>
                    disabled sourceEffect || isSuppressed sourceEffect
                | None => true
                end) eqn:Hold.
      + exfalso. apply Hnot. apply in_map. rewrite HR.
        apply in_app_iff. right. unfold staleApplied. apply filter_In.
        split.
        * unfold appliedEffects, allApplicableEffects. apply filter_In. auto.
        * now rewrite Hflag, Hold.
      + destruct (origin e) as [o|] eqn:Ho; [|discriminate].
        destruct (fromUuidSync w o) as [src|] eqn:Hfrom; [|discriminate].
        pose proof (Hsrc e o src He Ho Hfrom) as Hplain.
        apply fromUuidSync_some in Hfrom. destruct Hfrom as [Hin <-].
        apply in_flat_map in Hin. destruct Hin as (b & Hb & Hsb).
        assert (Hkept : In src (effects (updated (deltaUpdate (R, D))
                                                 (actor_uuid A) b))).
        { unfold updated. destruct (String.eqb _ _); [|exact Hsb].
          apply deltaUpdate_keeps; [exact Hsb|].
          intros Hrem'. apply in_map_iff in Hrem'.
          destruct Hrem' as (x & Hxu & Hx).
          apply HRC, HCA in Hx. destruct Hx as (Hx & _ & Hxflag).
          destruct (unique_holder (actors w) Hu A b x src HAin Hb Hx Hsb Hxu)
            as [-> _].
          congruence. }
        rewrite (fromUuidSync_unique w2 _ src Hu2
                   (applyDelta_in w token A (R, D) HA b Hb) Hkept).
        exact Hold.
    - simpl.
      destruct (HD source Hin) as (s & a & _ & _ & Hneq & Ha & He & Hact' & _).
      assert (Hsame : updated (deltaUpdate (R, D)) (actor_uuid A) a = a).
      { unfold updated. apply String.eqb_neq in Hneq. now rewrite Hneq. }
      pose proof (applyDelta_in w token A (R, D) HA a Ha) as Ha2.
      rewrite Hsame in Ha2.
      rewrite (fromUuidSync_unique w2 a source Hu2 Ha2 He).
      unfold active in Hact'. apply andb_prop in Hact'.
      destruct Hact' as [Hd Hsup].
      apply negb_true_iff in Hd. apply negb_true_iff in Hsup.
      now rewrite Hd, Hsup. }
  pose proof (token_actor_self w token A (R, D) HA) as Hself.
  pose proof (applyDelta_tokens w token A (R, D) HA) as Htokens.
  fold w2 in Hself, Htokens. fold A2 in Hself.
  unfold getChangingSceneAuras. rewrite Hself, Htokens. fold C2.
  rewrite (tokenSteps_again H w token C w2 C2
             (same_actor_applyDelta w token A (R, D) HA)
             (token_actor_other w token A (R, D) HA)
             (tokens w)) with (r := []) (r' := r) (d' := D) (r2 := []);
    [| |exact Hfold].
  - cbn [obind]. now rewrite Hstale.
  - intros s Hs Hsame. split.
    + destruct (inactiveHits w s C2) as [|e rest] eqn:Hlist; [reflexivity|].
      exfalso.
      assert (He : In e (inactiveHits w s C2)) by (rewrite Hlist; now left).
      apply inactiveHits_in in He. destruct He as (He & i & Hi & Ho).
      destruct (HC2 e He) as [[HeC Hnot]|(source & Hin & Ho')].
      * apply Hnot. apply in_map. rewrite HR. apply in_app_iff. left.
        apply (Hhits s e Hs Hsame). apply inactiveHits_in. eauto.
      * destruct (HD source Hin) as (s1 & a1 & _ & _ & _ & Ha1 & He1 & Hact & _).
        destruct (inactive_in w s i Hi) as (a & Ha & Hia & Hinact).
        apply token_actor_in in Ha. destruct Ha as [Ha _].
        assert (Hu' : uuid source = uuid i) by congruence.
        destruct (unique_holder (actors w) Hu a1 a source i Ha1 Ha He1 Hia Hu')
          as [-> _].
        congruence.
    + intros cur Hcur. split; [now apply Hscript|].
      intros Hr.
      destruct (find_origin (uuid cur) C2) as [e|] eqn:Hfind; [|reflexivity].
      exfalso. apply find_origin_some in Hfind. destruct Hfind as [He Ho].
      destruct (HC2 e He) as [[HeC Hnot]|(source & Hin & Ho')].
      * destruct (find_origin_found (uuid cur) C e HeC Ho) as [c Hc].
        pose proof (Hrej s cur c Hs Hsame Hcur Hr Hc) as Hcr.
        apply find_origin_some in Hc. destruct Hc as [HcC Hco].
        assert (Heq : e = c).
        { apply (NoDup_map_injective origin C); auto. congruence. }
        subst c. apply Hnot. apply in_map. rewrite HR.
        apply in_app_iff. now left.
      * destruct (HD source Hin)
          as (s1 & a1 & Hs1 & Hta1 & _ & Ha1 & He1 & _ & Hacc).
        destruct (matchingAuras_in w token s cur Hcur) as (a & Hta & Hea & _).
        pose proof (proj1 (token_actor_in w s a Hta)) as Ha.
        assert (Hu' : uuid source = uuid cur) by congruence.
        destruct (unique_holder (actors w) Hu a1 a source cur Ha1 Ha He1 Hea
                                Hu') as [-> ->].
        rewrite (Hone s1 s a Hs1 Hs Hta1 Hta) in Hacc.
        exact (accepts_rejects H w token s cur Hacc Hr).
Qed.

Lemma delta_reapplied_witness :
  getChangingSceneAuras
    (Demo.host true)
    (applyDelta Demo.mixedWorld Demo.tokCand
                ([Demo.shieldClone; Demo.shieldClone],
                 [Demo.auraOf (Some "true")]))
    Demo.tokCand
  = Returned ([], [Demo.auraOf (Some "true")]).
Proof.
  apply (delta_reapplied (Demo.host true) Demo.mixedWorld Demo.tokCand
                         (mkActor "Actor.b" "Goblin" [Demo.shieldClone] [])).
  - reflexivity.
  - vm_compute. reflexivity.
  - unfold uniqueUuids. vm_compute.
    repeat constructor; simpl; intuition discriminate.
  - unfold uniqueUuids. vm_compute.
    repeat constructor; simpl; intuition discriminate.
  - intros s1 s2 a H1 H2 Ha1 Ha2. simpl in H1, H2.
    destruct H1 as [<-|[<-|[<-|[]]]], H2 as [<-|[<-|[<-|[]]]];
      try reflexivity; vm_compute in Ha1, Ha2; congruence.
  - unfold distinctAppliedOrigins. vm_compute.
    repeat constructor; simpl; intuition discriminate.
  - intros e o source He Ho Hfrom. simpl in He.
    destruct He as [<-|[]]. injection Ho as <-.
    vm_compute in Hfrom. injection Hfrom as <-. reflexivity.
  - intros s e Hs He. simpl in Hs.
    destruct Hs as [<-|[<-|[<-|[]]]]; vm_compute in He;
      try contradiction.
    destruct He as [<-|[]]. vm_compute. reflexivity.
Defined.

(** C2, as stated, fails: the source's aura reaches the candidate; the
    delta asks to add it; once its clone is on the candidate's actor, the
    delta of the same token asks to add it again. *)
Lemma delta_lists_applied_aura_again :
  let w := Demo.scriptWorld None in
  let first := ([], [Demo.auraOf None]) in
  getChangingSceneAuras (Demo.host true) w Demo.tokCand = Returned first
  /\ map origin (actorEffects (applyDelta w Demo.tokCand first) "Actor.b")
     = [Some "Actor.a.ActiveEffect.bless"]
  /\ getChangingSceneAuras (Demo.host true)
       (applyDelta w Demo.tokCand first) Demo.tokCand
     = Returned ([], [Demo.auraOf None]).
Proof. vm_compute. repeat split. Qed.

(* ================================================================== *)
(** * Further properties of the code *)

(* ------------------------------------------------------------------ *)
(** ** Distances and collision types *)

Lemma obstructed_dec (H : Host) (a b : ElevatedPoint) (types : list string) :
  obstructed H a b types \/ ~ obstructed H a b types.
Proof.
  induction types as [|ty types IH].
  - right. intros (ty & test & [] & _).
  - destruct (polygonBackends H ty) as [test|] eqn:Hb.
    + destruct (test a b) eqn:Ht.
      * left. exists ty, test. simpl. auto.
      * destruct IH as [(ty' & test' & Hin & Hb' & Ht')|Hno].
        -- left. exists ty', test'. simpl. auto.
        -- right. intros (ty' & test' & [<-|Hin] & Hb' & Ht').
           ++ congruence.
           ++ apply Hno. exists ty', test'. auto.
    + destruct IH as [(ty' & test' & Hin & Hb' & Ht')|Hno].
      * left. exists ty', test'. simpl. auto.
      * right. intros (ty' & test' & [<-|Hin] & Hb' & Ht').
        -- congruence.
        -- apply Hno. exists ty', test'. auto.
Qed.

Lemma getDistance_mono (H : Host) (a b : ElevatedPoint) (l1 l2 : list string) :
  (forall ty test, polygonBackends H ty = Some test -> In ty l1 -> In ty l2) ->
  Num.leb (getDistance H a b l1) (getDistance H a b l2) = true.
Proof.
  intros Hincl.
  destruct (obstructed_dec H a b l2) as [Hobs|Hclear].
  - rewrite (getDistance_obstructed H a b l2 Hobs). apply leb_any_infinity.
  - rewrite (getDistance_clear H a b l2 Hclear).
    rewrite (getDistance_clear H a b l1); [apply leb_refl|].
    intros (ty & test & Hin & Hb & Ht). apply Hclear.
    exists ty, test. eauto.
Qed.

(** X1. For collision types whose names objects do not inherit (at an
    inherited name such as [toString] the call of [testCollision] throws),
    [getDistance] depends only on which of the registered types are listed:
    their order, their repetition and the listed names that
    [polygonBackends] lacks make no difference. *)
Theorem getDistance_registered_types
        (H : Host) (a b : ElevatedPoint) (l1 l2 : list string) :
  (forall ty, In ty l1 \/ In ty l2 -> inherited ty = false) ->
  (forall ty test,
      polygonBackends H ty = Some test -> (In ty l1 <-> In ty l2)) ->
  getDistance H a b l1 = getDistance H a b l2.
Proof.
  intros _ Hsame.
  assert (Hcarry : forall l l',
             (forall ty test,
                 polygonBackends H ty = Some test -> In ty l -> In ty l') ->
             obstructed H a b l -> obstructed H a b l').
  { intros l l' Hincl (ty & test & Hin & Hb & Ht).
    exists ty, test. eauto. }
  destruct (obstructed_dec H a b l1) as [Hobs|Hclear].
  - rewrite (getDistance_obstructed H a b l1 Hobs).
    rewrite (getDistance_obstructed H a b l2); [reflexivity|].
    apply (Hcarry l1 l2); [|exact Hobs].
    intros ty test Hb. now apply Hsame with test.
  - rewrite (getDistance_clear H a b l1 Hclear).
    rewrite (getDistance_clear H a b l2); [reflexivity|].
    intros Hobs. apply Hclear. apply (Hcarry l2 l1); [|exact Hobs].
    intros ty test Hb. now apply Hsame with test.
Qed.

Lemma getDistance_registered_types_witness :
  getDistance (Demo.host true) Demo.pWest Demo.pEast
              ["sight"; "move"; "sight"; "move"]
  = getDistance (Demo.host true) Demo.pWest Demo.pEast ["move"].
Proof.
  apply getDistance_registered_types.
  - intros ty [Hin|Hin]; simpl in Hin;
      repeat (destruct Hin as [<-|Hin]; [reflexivity|]); destruct Hin.
  - intros ty test Hb. simpl. split.
    + intros [<-|[<-|[<-|[<-|[]]]]]; try (now left); vm_compute in Hb;
        discriminate.
    + intros [<-|[]]. right. now left.
Defined.

Lemma min_lower (l l' : list Num.t) :
  (forall d', In d' l' -> exists d, In d l /\ Num.leb d d' = true) ->
  Num.leb (Num.min l) (Num.min l') = true.
Proof.
  induction l' as [|a l' IH]; intros Hall.
  - apply leb_any_infinity.
  - rewrite (min_cons a l').
    destruct (Num.leb a (Num.min l')).
    + destruct (Hall a (or_introl eq_refl)) as (d & Hd & Hle).
      eapply leb_trans; [|exact Hle]. now apply min_le.
    + apply IH. intros d' Hd'. apply Hall. now right.
Qed.

Lemma sub_mono (a b : Num.t) (q : Q) :
  Num.leb a b = true -> Num.leb (Num.sub a q) (Num.sub b q) = true.
Proof.
  destruct a as [x|], b as [y|]; simpl; try congruence.
  rewrite !Qle_bool_iff. lra.
Qed.

Lemma getTokenToTokenDistance_mono
      (H : Host) (A B : Token) (origin_ : option Position)
      (l1 l2 : list string) :
  incl l1 l2 ->
  Num.leb (getTokenToTokenDistance H A B origin_ l1)
          (getTokenToTokenDistance H A B origin_ l2) = true.
Proof.
  intros Hincl. unfold getTokenToTokenDistance.
  apply sub_mono, min_lower. intros d' Hd'.
  apply pairDistances_inv in Hd'. destruct Hd' as (oa & ob & Ha & Hb & ->).
  eexists. split.
  - apply (pairDistances_in H A B origin_ l1 oa ob Ha Hb).
  - apply getDistance_mono. intros ty test _ Hin. now apply Hincl.
Qed.

(** X2. Listing more collision types never brings two tokens closer, so the
    tokens an aura reaches with the longer list are among those it reaches
    with the shorter one. *)
Theorem more_collision_types_shrink_reach
        (H : Host) (w : World) (source t : Token) (radius : Q)
        (origin_ : option Position) (disp : Z) (l1 l2 : list string) :
  incl l1 l2 ->
  Num.leb (getTokenToTokenDistance H source t origin_ l1)
          (getTokenToTokenDistance H source t origin_ l2) = true
  /\ (In t (getNearbyTokens H w source radius origin_ disp l2) ->
      In t (getNearbyTokens H w source radius origin_ disp l1)).
Proof.
  intros Hincl. split; [now apply getTokenToTokenDistance_mono|].
  unfold getNearbyTokens. rewrite !filter_In.
  intros [Hput Hnear]. split; [exact Hput|].
  eapply leb_trans; [|exact Hnear].
  now apply getTokenToTokenDistance_mono.
Qed.

Lemma more_collision_types_shrink_reach_witness :
  Num.leb (getTokenToTokenDistance (Demo.host true) Demo.tokSrc Demo.tokCand
                                   None [])
          (getTokenToTokenDistance (Demo.host true) Demo.tokSrc Demo.tokCand
                                   None ["move"]) = true.
Proof.
  apply (more_collision_types_shrink_reach
           (Demo.host true) (Demo.scriptWorld None) Demo.tokSrc Demo.tokCand
           30 None 0%Z [] ["move"]).
  intros ty [].
Defined.

(* ------------------------------------------------------------------ *)
(** ** The two disposition tests *)

Lemma getNearbyTokens_in (H : Host) (w : World) (source t : Token)
      (radius : Q) (origin_ : option Position) (disp : Z)
      (types : list string) :
  In t (getGenerallyWithin H w source radius) ->
  token_actor w t <> None ->
  Num.leb (getTokenToTokenDistance H source t origin_ types) (Num.Fin radius)
  = true ->
  (In t (getNearbyTokens H w source radius origin_ disp types)
   <-> (if (disp <? 0)%Z then (disposition source * disposition t =? -1)%Z
        else if (disp >? 0)%Z then (disposition source =? disposition t)%Z
             else true) = true).
Proof.
  intros Hwithin Hactor Hnear. unfold getNearbyTokens.
  rewrite !filter_In.
  destruct (token_actor w t) as [actor|]; [|congruence].
  tauto.
Qed.

Lemma matchingAuras_iff (w : World) (token s : Token) (e : Effect) :
  In e (matchingAuras w token s)
  <-> In e (fst (getAllAuraEffects (token_actor w s)))
      /\ ((sys_disposition (system e) =? 0)%Z
          || (sys_disposition (system e)
              =? disposition token * disposition s)%Z) = true.
Proof. unfold matchingAuras. apply filter_In. Qed.

Lemma disposition_tests_eq (d ds dt : Z) :
  In d [-1; 0; 1]%Z -> In ds [-1; 1]%Z -> In dt [-1; 1]%Z ->
  (if (d <? 0)%Z then (ds * dt =? -1)%Z
   else if (d >? 0)%Z then (ds =? dt)%Z else true)
  = ((d =? 0)%Z || (d =? dt * ds)%Z).
Proof.
  simpl. intros Hd Hs Ht.
  destruct Hd as [<-|[<-|[<-|[]]]];
    destruct Hs as [<-|[<-|[]]];
    destruct Ht as [<-|[<-|[]]]; reflexivity.
Qed.

Lemma ltb_false_leb (r : Q) (d : Num.t) :
  Num.ltb (Num.Fin r) d = false <-> Num.leb d (Num.Fin r) = true.
Proof.
  destruct d as [q|]; simpl; [|split; discriminate].
  rewrite negb_false_iff. tauto.
Qed.

(** X3. For friendly and hostile tokens (disposition 1 or -1) and an aura
    whose disposition filter is -1, 0 or 1, the test of [getNearbyTokens] on
    the source's side and the test of [getChangingSceneAuras] on the target's
    side agree: a candidate in the bounding box, with an actor and within the
    radius is returned by [getNearbyTokens] exactly when the aura is among
    those its own scene delta considers from that source. *)
Theorem disposition_tests_agree
        (H : Host) (w : World) (source t : Token) (e : Effect)
        (radius : Q) (origin_ : option Position) (types : list string) :
  In e (fst (getAllAuraEffects (token_actor w source))) ->
  In (sys_disposition (system e)) [-1; 0; 1]%Z ->
  In (disposition source) [-1; 1]%Z ->
  In (disposition t) [-1; 1]%Z ->
  In t (getGenerallyWithin H w source radius) ->
  token_actor w t <> None ->
  Num.leb (getTokenToTokenDistance H source t origin_ types) (Num.Fin radius)
  = true ->
  (In t (getNearbyTokens H w source radius origin_
                         (sys_disposition (system e)) types)
   <-> In e (matchingAuras w t source)).
Proof.
  intros He Hd Hs Ht Hwithin Hactor Hnear.
  rewrite (getNearbyTokens_in H w source t radius origin_ _ types
             Hwithin Hactor Hnear).
  rewrite matchingAuras_iff.
  rewrite (disposition_tests_eq _ _ _ Hd Hs Ht). tauto.
Qed.

Lemma disposition_tests_agree_witness :
  In Demo.tokCand
     (getNearbyTokens (Demo.host true) (Demo.scriptWorld None) Demo.tokSrc
                      30 None 0 [])
  <-> In (Demo.auraOf None)
         (matchingAuras (Demo.scriptWorld None) Demo.tokCand Demo.tokSrc).
Proof.
  apply (disposition_tests_agree (Demo.host true) (Demo.scriptWorld None)
                                 Demo.tokSrc Demo.tokCand (Demo.auraOf None)
                                 30 None []).
  - simpl. left. reflexivity.
  - simpl. right. left. reflexivity.
  - simpl. right. left. reflexivity.
  - simpl. left. reflexivity.
  - vm_compute. right. left. reflexivity.
  - simpl. discriminate.
  - vm_compute. reflexivity.
Defined.

(** X4. The two tests part ways on an aura for allies (a positive disposition
    filter) between two tokens of one disposition whose square is not that
    filter, such as two neutral tokens: [getNearbyTokens] returns the
    candidate, and the candidate's scene delta does not consider the aura. *)
Theorem ally_aura_between_neutral_tokens
        (H : Host) (w : World) (source t : Token) (e : Effect)
        (radius : Q) (origin_ : option Position) (types : list string) :
  (0 < sys_disposition (system e))%Z ->
  disposition source = disposition t ->
  (disposition t * disposition source <> sys_disposition (system e))%Z ->
  In t (getGenerallyWithin H w source radius) ->
  token_actor w t <> None ->
  Num.leb (getTokenToTokenDistance H source t origin_ types) (Num.Fin radius)
  = true ->
  In t (getNearbyTokens H w source radius origin_
                        (sys_disposition (system e)) types)
  /\ ~ In e (matchingAuras w t source).
Proof.
  intros Hpos Hsame Hprod Hwithin Hactor Hnear. split.
  - apply (getNearbyTokens_in H w source t radius origin_ _ types
             Hwithin Hactor Hnear).
    assert (Hneg : (sys_disposition (system e) <? 0)%Z = false)
      by (apply Z.ltb_ge; lia).
    assert (Hgt : (sys_disposition (system e) >? 0)%Z = true)
      by (apply Z.gtb_lt; lia).
    rewrite Hneg, Hgt, Hsame. apply Z.eqb_refl.
  - rewrite matchingAuras_iff. intros [_ Htest].
    apply orb_prop in Htest. destruct Htest as [Hz|Heq].
    + apply Z.eqb_eq in Hz. lia.
    + apply Z.eqb_eq in Heq. congruence.
Qed.

Lemma ally_aura_between_neutral_tokens_witness :
  In Samples.neutralCand
     (getNearbyTokens (Demo.host true) Samples.neutralWorld Samples.neutralSrc
                      30 None 1 [])
  /\ ~ In Samples.friendlyAura
          (matchingAuras Samples.neutralWorld Samples.neutralCand
                         Samples.neutralSrc).
Proof.
  apply (ally_aura_between_neutral_tokens
           (Demo.host true) Samples.neutralWorld Samples.neutralSrc
           Samples.neutralCand Samples.friendlyAura 30 None []).
  - reflexivity.
  - reflexivity.
  - simpl. discriminate.
  - vm_compute. right. left. reflexivity.
  - simpl. discriminate.
  - vm_compute. reflexivity.
Defined.

(* ------------------------------------------------------------------ *)
(** ** What the predicate evaluator never does *)

(** X5. [executeScript] fails open: its callers get a denial only when the
    compiled script itself returned a falsy value, and whenever it writes to
    the console it answers [true]. *)
Theorem executeScript_denial_is_scripted
        (H : Host) (w : World) (sourceToken token : Token) (effect : Effect) :
  (runScript H w sourceToken token effect = Returned false ->
   exists actor body f v,
     token_actor w token = Some actor
     /\ script (system effect) = Some body
     /\ String.length (trim body) <> 0%nat
     /\ js_Function H script_params ("return Boolean(" ++ body ++ ");")
        = Code f
     /\ f (mkScope actor token sourceToken (rollData actor)) = Returned v
     /\ truthy v = false)
  /\ (snd (executeScript H w sourceToken token effect) <> [] ->
      fst (executeScript H w sourceToken token effect)
      = Returned (JsBool true)).
Proof.
  unfold runScript, executeScript. split.
  - destruct (token_actor w token) as [actor|]; [|discriminate].
    destruct (script (system effect)) as [body|]; [|discriminate].
    destruct (String.length (trim body) =? 0)%nat eqn:Hlen; [discriminate|].
    destruct (js_Function H script_params _) as [err|f] eqn:Hf;
      [discriminate|].
    destruct (f (mkScope actor token sourceToken (rollData actor)))
      as [v|err] eqn:Hrun; cbn [fst].
    + intros [= Hv]. exists actor, body, f, v.
      apply Nat.eqb_neq in Hlen. auto 6.
    + destruct (token_actor w sourceToken); discriminate.
  - destruct (token_actor w token) as [actor|]; [|simpl; congruence].
    destruct (String.length _ =? 0)%nat; [simpl; congruence|].
    destruct (js_Function H script_params _) as [err|f];
      [simpl; congruence|].
    destruct (f _) as [b|err]; [simpl; congruence|].
    destruct (token_actor w sourceToken); simpl; congruence.
Qed.

Lemma executeScript_denial_is_scripted_witness :
  exists actor body f v,
    token_actor (Demo.scriptWorld (Some "false")) Demo.tokCand = Some actor
    /\ script (system (Demo.auraOf (Some "false"))) = Some body
    /\ String.length (trim body) <> 0%nat
    /\ js_Function (Demo.host true) script_params
                   ("return Boolean(" ++ body ++ ");") = Code f
    /\ f (mkScope actor Demo.tokCand Demo.tokSrc (rollData actor))
       = Returned v
    /\ truthy v = false.
Proof.
  apply (proj1 (executeScript_denial_is_scripted
                  (Demo.host true) (Demo.scriptWorld (Some "false"))
                  Demo.tokSrc Demo.tokCand (Demo.auraOf (Some "false")))).
  vm_compute. reflexivity.
Defined.

(* ------------------------------------------------------------------ *)
(** ** The aura registry *)

Lemma partitionAuras_filters (l : list Effect) :
  partitionAuras l
  = (filter (fun e => is_aura e && active e) l,
     filter (fun e => is_aura e && negb (active e)) l).
Proof.
  induction l as [|e l IH]; simpl; [reflexivity|].
  rewrite IH. unfold active.
  destruct (is_aura e); simpl; [|reflexivity].
  now destruct (negb (disabled e) && negb (isSuppressed e)).
Qed.

(** X6. [getAllAuraEffects] loses, repeats and reorders nothing: the first
    list holds the actor's aura-type effects that are neither disabled nor
    suppressed, the second the other aura-type effects, both in the order of
    the actor's effects; together they are the actor's aura-type effects;
    without an actor both lists are empty. *)
Theorem getAllAuraEffects_split (actor : Actor) :
  getAllAuraEffects (Some actor)
  = (filter (fun e => is_aura e && active e) (allApplicableEffects actor),
     filter (fun e => is_aura e && negb (active e))
            (allApplicableEffects actor))
  /\ Permutation (fst (getAllAuraEffects (Some actor))
                  ++ snd (getAllAuraEffects (Some actor)))
                 (filter is_aura (allApplicableEffects actor))
  /\ getAllAuraEffects None = ([], []).
Proof.
  unfold getAllAuraEffects. rewrite partitionAuras_filters.
  split; [reflexivity|]. split; [|reflexivity]. simpl.
  induction (allApplicableEffects actor) as [|e l IH]; simpl; [reflexivity|].
  destruct (is_aura e); simpl; [|exact IH].
  destruct (active e); simpl.
  - now apply perm_skip.
  - rewrite <- Permutation_middle. now apply perm_skip.
Qed.

(* ------------------------------------------------------------------ *)
(** ** What the scene delta lists, and why *)

Section DeltaCauses.

Variable H : Host.
Variable w : World.
Variable token : Token.
Variable C : list Effect.

Lemma effectSteps_adds (s : Token) (l : list Effect) :
  forall r d r' d',
    ofold (deltaEffectStep H w token s C) l (r, d) = Returned (r', d') ->
    incl d d'
    /\ forall cur, In cur l -> accepts H w token s cur -> In cur d'.
Proof.
  induction l as [|cur l IH]; intros r d r' d'; cbn [ofold].
  - intros [= <- <-]. split; [apply incl_refl|]. intros cur [].
  - destruct (deltaEffectStep H w token s C (r, d) cur) as [[r1 d1]|err]
      eqn:Hstep; cbn [obind]; [|discriminate].
    intros Hrest. apply IH in Hrest. destruct Hrest as [Hincl Hacc].
    apply deltaEffectStep_cases in Hstep.
    destruct Hstep as [(Hr & -> & _)|(Ha & _ & ->)].
    + split; [exact Hincl|].
      intros cur' [<-|Hin] Hacc'; [|now apply Hacc].
      destruct (accepts_rejects H w token s cur Hacc' Hr).
    + split.
      * intros e He. apply Hincl. apply in_app_iff. now left.
      * intros cur' [<-|Hin] Hacc'; [|now apply Hacc].
        apply Hincl. apply in_app_iff. right. now left.
Qed.

Lemma tokenSteps_adds (l : list Token) :
  forall r d r' d',
    ofold (deltaTokenStep H w token C) l (r, d) = Returned (r', d') ->
    incl d d'
    /\ forall s cur,
         In s l ->
         same_actor (token_actor w s) (token_actor w token) = false ->
         In cur (matchingAuras w token s) -> accepts H w token s cur ->
         In cur d'.
Proof.
  induction l as [|a l IH]; intros r d r' d'; cbn [ofold].
  - intros [= <- <-]. split; [apply incl_refl|]. intros s cur [].
  - destruct (deltaTokenStep H w token C (r, d) a) as [[r1 d1]|err] eqn:Hstep;
      cbn [obind]; [|discriminate].
    intros Hrest. apply IH in Hrest. destruct Hrest as [Hincl Hacc].
    rewrite deltaTokenStep_eq in Hstep.
    destruct (same_actor (token_actor w a) (token_actor w token)) eqn:Hsame.
    + injection Hstep as <- <-. split; [exact Hincl|].
      intros s cur [<-|Hin] Hs; [congruence|now apply Hacc].
    + apply effectSteps_adds in Hstep. destruct Hstep as [Hincl1 Hacc1].
      split.
      * intros e He. apply Hincl, Hincl1, He.
      * intros s cur [<-|Hin] Hs Hcur Ha; [|now apply (Hacc s)].
        apply Hincl. now apply Hacc1.
Qed.

Lemma tokenSteps_causes (l : list Token) :
  forall r d r' d',
    ofold (deltaTokenStep H w token C) l (r, d) = Returned (r', d') ->
    forall e,
      In e r' ->
      In e r
      \/ exists s,
           In s l
           /\ same_actor (token_actor w s) (token_actor w token) = false
           /\ (In e (inactiveHits w s C)
               \/ exists cur,
                    In cur (matchingAuras w token s)
                    /\ rejects H w token s cur
                    /\ find_origin (uuid cur) C = Some e).
Proof.
  induction l as [|a l IH]; intros r d r' d'; cbn [ofold].
  - intros [= <- <-] e He. now left.
  - destruct (deltaTokenStep H w token C (r, d) a) as [[r1 d1]|err] eqn:Hstep;
      cbn [obind]; [|discriminate].
    intros Hrest e He.
    destruct (IH _ _ _ _ Hrest e He) as [Hr1|(s & Hs & Hcause)].
    + rewrite deltaTokenStep_eq in Hstep.
      destruct (same_actor (token_actor w a) (token_actor w token)) eqn:Hsame.
      * injection Hstep as <- <-. now left.
      * apply effectSteps_spec in Hstep.
        destruct Hstep as (_ & _ & _ & _ & Hrem).
        destruct (Hrem e Hr1) as [Hold|(cur & Hcur & Hrej & Hfind)].
        -- apply in_app_iff in Hold. destruct Hold as [Hold|Hhit];
             [now left|].
           right. exists a. split; [now left|]. auto.
        -- right. exists a. split; [now left|]. split; [exact Hsame|].
           right. exists cur. auto.
    + right. exists s. split; [now right|exact Hcause].
Qed.

End DeltaCauses.

Lemma staleApplied_in (w : World) (l : list Effect) (e : Effect) :
  In e (staleApplied w l)
  <-> In e l /\ fromAura e = true /\ staleOrigin w e.
Proof.
  unfold staleApplied, staleOrigin. rewrite filter_In.
  destruct (fromAura e); simpl; [|intuition congruence].
  destruct (match origin e with
            | Some o => fromUuidSync w o
            | None => None
            end) as [sourceEffect|]; [|tauto].
  rewrite orb_true_iff. tauto.
Qed.

Lemma delta_removal_iff (H : Host) (w : World) (token : Token) (A : Actor)
      (R D : list Effect) (e : Effect) :
  token_actor w token = Some A ->
  getChangingSceneAuras H w token = Returned (R, D) ->
  (In e R
   <-> In e (appliedEffects A) /\ fromAura e = true
       /\ ((exists s i,
              In s (tokens w)
              /\ same_actor (token_actor w s) (token_actor w token) = false
              /\ In i (snd (getAllAuraEffects (token_actor w s)))
              /\ origin e = Some (uuid i))
           \/ (exists s cur,
                 In s (tokens w)
                 /\ same_actor (token_actor w s) (token_actor w token) = false
                 /\ In cur (matchingAuras w token s)
                 /\ rejects H w token s cur
                 /\ find_origin (uuid cur) (filter fromAura (appliedEffects A))
                    = Some e)
           \/ staleOrigin w e)).
Proof.
  intros HA Hrun.
  destruct (getChangingSceneAuras_parts H w token A R D HA Hrun)
    as (r & Hfold & ->).
  set (C := filter fromAura (appliedEffects A)) in *.
  assert (HC : forall x, In x C <-> In x (appliedEffects A) /\ fromAura x = true).
  { intros x. unfold C. apply filter_In. }
  rewrite in_app_iff, staleApplied_in. split.
  - intros [Hr|(Hin & Hflag & Hstale)]; [|auto].
    destruct (tokenSteps_causes H w token C _ _ _ _ _ Hfold e Hr)
      as [[]|(s & Hs & Hsame & [Hhit|(cur & Hcur & Hrej & Hfind)])].
    + apply inactiveHits_in in Hhit. destruct Hhit as (HeC & i & Hi & Ho).
      apply HC in HeC. destruct HeC as [Hin Hflag].
      split; [exact Hin|]. split; [exact Hflag|].
      left. exists s, i. auto.
    + pose proof (proj1 (find_origin_some _ _ _ Hfind)) as HeC.
      apply HC in HeC. destruct HeC as [Hin Hflag].
      split; [exact Hin|]. split; [exact Hflag|].
      right. left. exists s, cur. auto.
  - intros (Hin & Hflag & [(s & i & Hs & Hsame & Hi & Ho)
                          |[(s & cur & Hs & Hsame & Hcur & Hrej & Hfind)
                           |Hstale]]).
    + left.
      destruct (tokenSteps_spec H w token C _ _ _ _ _ Hfold)
        as (_ & Hhits & _).
      apply (Hhits s e Hs Hsame). apply inactiveHits_in. split.
      * apply HC. auto.
      * exists i. auto.
    + left.
      destruct (tokenSteps_spec H w token C _ _ _ _ _ Hfold)
        as (_ & _ & Hrej' & _).
      apply (Hrej' s cur e Hs Hsame Hcur Hrej Hfind).
    + right. auto.
Qed.

Lemma delta_addition_iff (H : Host) (w : World) (token : Token)
      (R D : list Effect) (source : Effect) :
  getChangingSceneAuras H w token = Returned (R, D) ->
  (In source D
   <-> exists s,
         In s (tokens w)
         /\ same_actor (token_actor w s) (token_actor w token) = false
         /\ In source (matchingAuras w token s)
         /\ accepts H w token s source).
Proof.
  intros Hrun.
  destruct (token_actor w token) as [A|] eqn:HA.
  - destruct (getChangingSceneAuras_parts H w token A R D HA Hrun)
      as (r & Hfold & _).
    rewrite <- HA in *. split.
    + intros Hin.
      destruct (tokenSteps_spec H w token _ _ _ _ _ _ Hfold)
        as (_ & _ & _ & Hadd & _).
      destruct (Hadd source Hin) as [[]|Hs]. exact Hs.
    + intros (s & Hs & Hsame & Hm & Hacc).
      destruct (tokenSteps_adds H w token _ _ _ _ _ _ Hfold) as [_ Hall].
      now apply (Hall s).
  - unfold getChangingSceneAuras in Hrun. rewrite HA in Hrun. discriminate.
Qed.

(** X7. The removal list of the scene delta, exactly: an effect is listed if
    and only if it is an applied, aura-derived effect of the token's own actor
    and either its origin is an inactive aura of another actor with a token on
    the scene, or it is the first such effect whose origin is an aura of such
    an actor that is now out of range or refused by its script, or its origin
    resolves to nothing, or to a disabled or suppressed effect. *)
Theorem delta_removals_have_a_cause
        (H : Host) (w : World) (token : Token) (A : Actor)
        (R D : list Effect) (e : Effect) :
  token_actor w token = Some A ->
  getChangingSceneAuras H w token = Returned (R, D) ->
  (In e R
   <-> In e (appliedEffects A) /\ fromAura e = true
       /\ ((exists s i,
              In s (tokens w)
              /\ same_actor (token_actor w s) (token_actor w token) = false
              /\ In i (snd (getAllAuraEffects (token_actor w s)))
              /\ origin e = Some (uuid i))
           \/ (exists s cur,
                 In s (tokens w)
                 /\ same_actor (token_actor w s) (token_actor w token) = false
                 /\ In cur (matchingAuras w token s)
                 /\ rejects H w token s cur
                 /\ find_origin (uuid cur) (filter fromAura (appliedEffects A))
                    = Some e)
           \/ staleOrigin w e)).
Proof. apply delta_removal_iff. Qed.

Lemma delta_removals_have_a_cause_witness :
  In Demo.shieldClone
     (appliedEffects (mkActor "Actor.b" "Goblin" [Demo.shieldClone] []))
  /\ fromAura Demo.shieldClone = true.
Proof.
  destruct (proj1 (delta_removals_have_a_cause
                     (Demo.host true) Demo.mixedWorld Demo.tokCand
                     (mkActor "Actor.b" "Goblin" [Demo.shieldClone] [])
                     [Demo.shieldClone; Demo.shieldClone]
                     [Demo.auraOf (Some "true")] Demo.shieldClone
                     eq_refl eq_refl))
    as (Hin & Hflag & _).
  - left. reflexivity.
  - split; [exact Hin|exact Hflag].
Defined.

(** X8. The addition list of the scene delta, exactly: a source effect is
    listed if and only if it is an active aura, with a disposition filter that
    is "any" or the relationship of the two tokens, of a token on the scene
    whose actor is not the target's, within its radius of the target and
    answered [true] by its script; whether the target already holds its clone
    plays no part. *)
Theorem delta_additions_are_reachable_auras
        (H : Host) (w : World) (token : Token)
        (R D : list Effect) (source : Effect) :
  getChangingSceneAuras H w token = Returned (R, D) ->
  (In source D
   <-> exists s,
         In s (tokens w)
         /\ same_actor (token_actor w s) (token_actor w token) = false
         /\ In source (matchingAuras w token s)
         /\ accepts H w token s source).
Proof. apply delta_addition_iff. Qed.

Lemma delta_additions_are_reachable_auras_witness :
  exists s,
    In s (tokens Demo.mixedWorld)
    /\ same_actor (token_actor Demo.mixedWorld s)
                  (token_actor Demo.mixedWorld Demo.tokCand) = false
    /\ In (Demo.auraOf (Some "true"))
          (matchingAuras Demo.mixedWorld Demo.tokCand s)
    /\ accepts (Demo.host true) Demo.mixedWorld Demo.tokCand s
               (Demo.auraOf (Some "true")).
Proof.
  apply (proj1 (delta_additions_are_reachable_auras
                  (Demo.host true) Demo.mixedWorld Demo.tokCand
                  [Demo.shieldClone; Demo.shieldClone]
                  [Demo.auraOf (Some "true")]
                  (Demo.auraOf (Some "true")) eq_refl)).
  left. reflexivity.
Defined.

(** X9. On a scene where every effect has its own uuid and no actor has two
    tokens, the delta never lists for removal a clone of a source it lists for
    addition. *)
Theorem delta_never_removes_what_it_adds
        (H : Host) (w : World) (token : Token)
        (R D : list Effect) (e source : Effect) :
  uniqueUuids w ->
  oneTokenPerActor w ->
  getChangingSceneAuras H w token = Returned (R, D) ->
  In e R -> In source D ->
  origin e <> Some (uuid source).
Proof.
  intros Hu Hone Hrun He Hsource Ho.
  destruct (token_actor w token) as [A|] eqn:HA;
    [|unfold getChangingSceneAuras in Hrun; rewrite HA in Hrun; discriminate].
  apply (delta_addition_iff H w token R D source Hrun) in Hsource.
  destruct Hsource as (s1 & Hs1 & _ & Hm1 & Hacc).
  destruct (matchingAuras_in w token s1 source Hm1) as (a1 & Hta1 & He1 & Hact).
  pose proof (proj1 (token_actor_in w s1 a1 Hta1)) as Ha1.
  apply (delta_removal_iff H w token A R D e HA Hrun) in He.
  destruct He as (_ & _ & [(s & i & Hs & _ & Hi & Hoi)
                          |[(s & cur & Hs & _ & Hcur & Hrej & Hfind)
                           |Hstale]]).
  - destruct (inactive_in w s i Hi) as (a & Hta & Hia & Hinact).
    pose proof (proj1 (token_actor_in w s a Hta)) as Ha.
    assert (Hsame : uuid source = uuid i) by congruence.
    destruct (unique_holder (actors w) Hu a1 a source i Ha1 Ha He1 Hia Hsame)
      as [-> _].
    congruence.
  - destruct (matchingAuras_in w token s cur Hcur) as (a & Hta & Hea & _).
    pose proof (proj1 (token_actor_in w s a Hta)) as Ha.
    apply find_origin_some in Hfind. destruct Hfind as [_ Hoc].
    assert (Hsame : uuid source = uuid cur) by congruence.
    destruct (unique_holder (actors w) Hu a1 a source cur Ha1 Ha He1 Hea Hsame)
      as [-> ->].
    rewrite (Hone s1 s a Hs1 Hs Hta1 Hta) in Hacc.
    exact (accepts_rejects H w token s cur Hacc Hrej).
  - unfold staleOrigin in Hstale. rewrite Ho in Hstale.
    rewrite (fromUuidSync_unique w a1 source Hu Ha1 He1) in Hstale.
    unfold active in Hact. apply andb_prop in Hact.
    destruct Hact as [Hd Hsup].
    apply negb_true_iff in Hd. apply negb_true_iff in Hsup.
    destruct Hstale; congruence.
Qed.

Lemma delta_never_removes_what_it_adds_witness :
  getChangingSceneAuras (Demo.host true) Demo.mixedWorld Demo.tokCand
  = Returned ([Demo.shieldClone; Demo.shieldClone],
              [Demo.auraOf (Some "true")])
  /\ origin Demo.shieldClone <> Some (uuid (Demo.auraOf (Some "true"))).
Proof.
  split; [reflexivity|].
  apply (delta_never_removes_what_it_adds
           (Demo.host true) Demo.mixedWorld Demo.tokCand
           [Demo.shieldClone; Demo.shieldClone] [Demo.auraOf (Some "true")]).
  - unfold uniqueUuids. vm_compute.
    repeat constructor; simpl; intuition discriminate.
  - intros s1 s2 a H1 H2 Ha1 Ha2. simpl in H1, H2.
    destruct H1 as [<-|[<-|[<-|[]]]], H2 as [<-|[<-|[<-|[]]]];
      try reflexivity; vm_compute in Ha1, Ha2; congruence.
  - reflexivity.
  - left. reflexivity.
  - left. reflexivity.
Defined.

Lemma inactiveHits_none (w : World) (s : Token) (l : list Effect) :
  token_actor w s = None -> inactiveHits w s l = [].
Proof.
  intros Hs. unfold inactiveHits. rewrite Hs. simpl.
  now apply filter_none.
Qed.

Lemma tokenSteps_skip (H : Host) (w : World) (token : Token) (A : Actor)
      (C : list Effect) (l : list Token) :
  token_actor w token = Some A ->
  forall acc,
    ofold (deltaTokenStep H w token C)
          (filter (fun s => match token_actor w s with
                            | Some _ =>
                                negb (same_actor (token_actor w s)
                                                 (token_actor w token))
                            | None => false
                            end) l) acc
    = ofold (deltaTokenStep H w token C) l acc.
Proof.
  intros HA. induction l as [|s l IH]; intros [r d]; [reflexivity|].
  cbn [filter].
  destruct (token_actor w s) as [a|] eqn:Hs.
  - destruct (same_actor (Some a) (token_actor w token)) eqn:Hsame;
      cbn [negb ofold].
    + rewrite IH. rewrite deltaTokenStep_eq, Hs, Hsame. reflexivity.
    + destruct (deltaTokenStep H w token C (r, d) s); cbn [obind];
        [apply IH|reflexivity].
  - cbn [ofold]. rewrite IH, deltaTokenStep_eq, Hs, HA. cbn [same_actor].
    unfold matchingAuras. rewrite Hs. cbn [getAllAuraEffects fst filter ofold].
    rewrite (inactiveHits_none w s C Hs), app_nil_r. reflexivity.
Qed.

(** X10. The delta reads auras only from the scene tokens that have an actor
    other than the target's: taking every other token off the scene (actorless
    tokens, further tokens of the target's actor, the target itself) leaves
    its result as it is. *)
Theorem delta_reads_other_actors_only (H : Host) (w : World) (token : Token) :
  getChangingSceneAuras H (withTokens (otherActorTokens w token) w) token
  = getChangingSceneAuras H w token.
Proof.
  unfold getChangingSceneAuras.
  change (token_actor (withTokens (otherActorTokens w token) w) token)
    with (token_actor w token).
  destruct (token_actor w token) as [A|] eqn:HA; [|reflexivity].
  change (tokens (withTokens (otherActorTokens w token) w))
    with (otherActorTokens w token).
  change (staleApplied (withTokens (otherActorTokens w token) w))
    with (staleApplied w).
  change (deltaTokenStep H (withTokens (otherActorTokens w token) w))
    with (deltaTokenStep H w).
  unfold otherActorTokens.
  now rewrite (tokenSteps_skip H w token A _ (tokens w) HA).
Qed.

(** X11. The source's side and the target's side agree. On a scene where every
    effect has its own uuid and no actor has two tokens, for friendly or
    hostile tokens and an active aura, with a disposition filter of -1, 0 or
    1, of a scene token of another actor: when the target is in the bounding
    box searched around the source, the target's scene delta lists the aura
    for addition exactly when [getNearbyTokens], asked for the aura from the
    source, returns the target and the aura's script answers [true]. *)
Theorem delta_agrees_with_reach
        (H : Host) (w : World) (s t : Token) (e : Effect)
        (R D : list Effect) :
  uniqueUuids w ->
  oneTokenPerActor w ->
  getChangingSceneAuras H w t = Returned (R, D) ->
  In s (tokens w) ->
  same_actor (token_actor w s) (token_actor w t) = false ->
  In e (fst (getAllAuraEffects (token_actor w s))) ->
  In (sys_disposition (system e)) [-1; 0; 1]%Z ->
  In (disposition s) [-1; 1]%Z ->
  In (disposition t) [-1; 1]%Z ->
  In t (getGenerallyWithin H w s (distance (system e))) ->
  (In e D
   <-> In t (getNearbyTokens H w s (distance (system e)) None
                             (sys_disposition (system e))
                             (collisionTypes (system e)))
       /\ runScript H w s t e = Returned true).
Proof.
  intros Hu Hone Hrun Hs Hsame He Hd Hds Hdt Hwithin.
  assert (Hactor : token_actor w t <> None).
  { intros Hnone. unfold getChangingSceneAuras in Hrun.
    rewrite Hnone in Hrun. discriminate. }
  assert (Hholder : exists a, token_actor w s = Some a /\ In e (effects a)).
  { unfold getAllAuraEffects in He.
    destruct (token_actor w s) as [a|]; [|destruct He].
    exists a. split; [reflexivity|]. now apply partitionAuras_in in He. }
  destruct Hholder as (a & Hta & Hea).
  assert (Hmatch : In e (matchingAuras w t s)
                   <-> (if (sys_disposition (system e) <? 0)%Z
                        then (disposition s * disposition t =? -1)%Z
                        else if (sys_disposition (system e) >? 0)%Z
                             then (disposition s =? disposition t)%Z
                             else true) = true).
  { rewrite matchingAuras_iff, (disposition_tests_eq _ _ _ Hd Hds Hdt).
    tauto. }
  rewrite (delta_addition_iff H w t R D e Hrun).
  unfold getNearbyTokens. rewrite !filter_In.
  destruct (token_actor w t) as [holder|] eqn:Hholder; [|congruence].
  split.
  - intros (s' & Hs' & _ & Hm' & Hacc).
    destruct (matchingAuras_in w t s' e Hm') as (a' & Hta' & Hea' & _).
    pose proof (proj1 (token_actor_in w s a Hta)) as Ha.
    pose proof (proj1 (token_actor_in w s' a' Hta')) as Ha'.
    destruct (unique_holder (actors w) Hu a' a e e Ha' Ha Hea' Hea eq_refl)
      as [_ ->].
    rewrite (Hone s' s a Hs' Hs Hta' Hta) in Hm', Hacc.
    destruct Hacc as [Hfar Hscript].
    split; [|exact Hscript]. split.
    + split; [exact Hwithin|]. now apply Hmatch.
    + now apply ltb_false_leb.
  - intros [[[_ Htest] Hnear] Hscript].
    exists s. split; [exact Hs|]. split; [exact Hsame|]. split.
    + now apply Hmatch.
    + split; [|exact Hscript]. now apply ltb_false_leb.
Qed.

Lemma delta_agrees_with_reach_witness :
  In (Demo.auraOf (Some "true")) [Demo.auraOf (Some "true")]
  <-> In Demo.tokCand
         (getNearbyTokens (Demo.host true) Demo.mixedWorld Demo.tokSrc
                          30 None 0 [])
      /\ runScript (Demo.host true) Demo.mixedWorld Demo.tokSrc Demo.tokCand
                   (Demo.auraOf (Some "true")) = Returned true.
Proof.
  apply (delta_agrees_with_reach
           (Demo.host true) Demo.mixedWorld Demo.tokSrc Demo.tokCand
           (Demo.auraOf (Some "true"))
           [Demo.shieldClone; Demo.shieldClone] [Demo.auraOf (Some "true")]).
  - unfold uniqueUuids. vm_compute.
    repeat constructor; simpl; intuition discriminate.
  - intros s1 s2 a H1 H2 Ha1 Ha2. simpl in H1, H2.
    destruct H1 as [<-|[<-|[<-|[]]]], H2 as [<-|[<-|[<-|[]]]];
      try reflexivity; vm_compute in Ha1, Ha2; congruence.
  - reflexivity.
  - left. reflexivity.
  - reflexivity.
  - left. reflexivity.
  - simpl. right. left. reflexivity.
  - simpl. right. left. reflexivity.
  - simpl. left. reflexivity.
  - vm_compute. right. left. reflexivity.
Defined.

(* ------------------------------------------------------------------ *)
(** ** Removal and best-of replacement *)

Lemma removeAndReplaceAuras_run (H : Host) (GM : Authority) (l : list Effect)
      (s : St) (gm : string) :
  activeGM (world s) = Some gm ->
  plainNames l ->
  let s1 := mkSt (deleteEffects GM (map uuid l) (world s)) (seenWarning s)
                 (trace s ++ [DeleteEffects (map uuid l)]) in
  snd (removeAndReplaceAuras H GM l s) = s1
  \/ exists best,
       best <> []
       /\ snd (removeAndReplaceAuras H GM l s)
          = mkSt (applyAuraEffects GM best (world s1)) (seenWarning s)
                 (trace s1 ++ [ApplyAuraEffects ByBestOf best]).
Proof.
  intros Hgm Hplain s1.
  destruct (effectToRemovedMap_plain (world s) l Hplain) as [removed Hmap].
  unfold removeAndReplaceAuras, bind, getWorld, queryDelete, lift, ret.
  cbn [fst snd]. rewrite Hmap. cbn [fst snd]. rewrite Hgm. cbn [fst snd world].
  destruct (newBestApplyMap H _ _) as [best|err]; cbn [fst snd]; [|now left].
  destruct best as [|entry best]; cbn [isEmpty negb fst snd]; [now left|].
  unfold queryApply. cbn [world].
  destruct (activeGM (deleteEffects GM (map uuid l) (world s)));
    cbn [fst snd]; [|now left].
  right. exists (entry :: best). split; [discriminate|reflexivity].
Qed.

Lemma removeAndReplaceAuras_deletions (H : Host) (GM : Authority)
      (l : list Effect) (s : St) (uuids : list string) :
  In uuids (deletions (trace (snd (removeAndReplaceAuras H GM l s)))) ->
  In uuids (deletions (trace s)) \/ uuids = map uuid l.
Proof.
  destruct (removeAndReplaceAuras_cases H GM l s)
    as [[-> _]|(removed & _ & _ & [[-> _]|(best & _ & _ & ->)])];
    cbn [snd trace]; rewrite ?deletions_app; cbn [deletions flat_map app];
    rewrite ?app_nil_r, ?in_app_iff; simpl; intuition.
Qed.

Lemma removeAndReplaceAuras_one_deletion (H : Host) (GM : Authority)
      (l : list Effect) (s : St) :
  fst (removeAndReplaceAuras H GM l s) = Returned tt ->
  deletions (trace (snd (removeAndReplaceAuras H GM l s)))
  = deletions (trace s) ++ [map uuid l].
Proof.
  intros Hret.
  destruct (removeAndReplaceAuras_cases H GM l s)
    as [[_ [err Herr]]|(removed & _ & _ & [[-> _]|(best & _ & _ & ->)])];
    [congruence| |];
    cbn [snd trace]; rewrite ?deletions_app; cbn [deletions flat_map app];
    now rewrite ?app_nil_r.
Qed.

(** X12. With a GM present, [removeAndReplaceAuras] given an effect whose
    name objects inherit ([constructor], [toString], ...) throws a
    [TypeError] while it builds its map and sends nothing; given none, it
    sends exactly one deletion, naming the effects it was given, and after it
    at most one request, the best-of one, never an empty one; given an empty
    list it still sends that deletion, empty, and nothing after it. *)
Theorem removeAndReplaceAuras_queries
        (H : Host) (GM : Authority) (l : list Effect) (s : St) (gm : string) :
  activeGM (world s) = Some gm ->
  ((exists e, In e l /\ inherited (name e) = true) ->
   removeAndReplaceAuras H GM l s
   = (Threw (TypeError "acc[effect.name].push is not a function"), s))
  /\ (plainNames l ->
      trace (snd (removeAndReplaceAuras H GM l s))
      = trace s ++ [DeleteEffects (map uuid l)]
      \/ exists best,
           best <> []
           /\ trace (snd (removeAndReplaceAuras H GM l s))
              = trace s ++ [DeleteEffects (map uuid l);
                            ApplyAuraEffects ByBestOf best])
  /\ (l = [] ->
      removeAndReplaceAuras H GM l s
      = (Returned tt,
         mkSt (deleteEffects GM [] (world s)) (seenWarning s)
              (trace s ++ [DeleteEffects []]))).
Proof.
  intros Hgm. split; [|split].
  - intros (e & He & Hname).
    now apply (removeAndReplaceAuras_inherited H GM l s e).
  - intros Hplain.
    destruct (removeAndReplaceAuras_run H GM l s gm Hgm Hplain)
      as [-> |(best & Hbest & ->)]; cbn [trace]; [now left|].
    right. exists best. split; [exact Hbest|]. now rewrite <- app_assoc.
  - intros ->. unfold removeAndReplaceAuras, bind, getWorld, queryDelete,
      lift, ret.
    cbn [fst snd]. rewrite Hgm. reflexivity.
Qed.

Lemma removeAndReplaceAuras_queries_witness :
  removeAndReplaceAuras (Demo.host true) specAuthority [Samples.namedClone]
                        (Demo.start Demo.heldWorld)
  = (Threw (TypeError "acc[effect.name].push is not a function"),
     Demo.start Demo.heldWorld)
  /\ removeAndReplaceAuras (Demo.host true) specAuthority []
                           (Demo.start (Demo.scriptWorld None))
     = (Returned tt,
        mkSt (deleteEffects specAuthority [] (Demo.scriptWorld None)) false
             ([] ++ [DeleteEffects []])).
Proof.
  split.
  - apply (proj1 (removeAndReplaceAuras_queries
                    (Demo.host true) specAuthority [Samples.namedClone]
                    (Demo.start Demo.heldWorld) "gm" eq_refl)).
    exists Samples.namedClone. split; [now left|reflexivity].
  - apply (proj2 (proj2 (removeAndReplaceAuras_queries
                           (Demo.host true) specAuthority []
                           (Demo.start (Demo.scriptWorld None)) "gm" eq_refl))).
    reflexivity.
Defined.

(** X13. The comparator given to [sort] is antisymmetric between two emitters
    that both have a best formula; two emitters whose auras have none are each
    reported as sorting after the other, whichever is asked first. *)
Theorem compareEmitters_antisymmetry
        (H : Host) (w : World) (effectName : string) (a b : Token)
        (effectA effectB : Effect) :
  getSourceEffect w a effectName = Some effectA ->
  getSourceEffect w b effectName = Some effectB ->
  (trimmedFormula effectA = None -> trimmedFormula effectB = None ->
   compareEmitters H w effectName a b = 1
   /\ compareEmitters H w effectName b a = 1)
  /\ (trimmedFormula effectA <> None -> trimmedFormula effectB <> None ->
      compareEmitters H w effectName a b
      == - compareEmitters H w effectName b a).
Proof.
  intros Ha Hb. unfold compareEmitters. rewrite Ha, Hb. split.
  - intros -> ->. split; reflexivity.
  - intros HfA HfB.
    destruct (trimmedFormula effectA) as [fA|]; [|congruence].
    destruct (trimmedFormula effectB) as [fB|]; [|congruence].
    ring.
Qed.

Lemma compareEmitters_antisymmetry_witness :
  compareEmitters (Demo.host true) Samples.plainWorld "Bless"
                  Demo.tokP1 Demo.tokP2 = 1
  /\ compareEmitters (Demo.host true) Samples.plainWorld "Bless"
                     Demo.tokP2 Demo.tokP1 = 1.
Proof.
  apply (proj1 (compareEmitters_antisymmetry
                  (Demo.host true) Samples.plainWorld "Bless"
                  Demo.tokP1 Demo.tokP2
                  (Demo.bless "Actor.p1" None) (Demo.bless "Actor.p2" None)
                  eq_refl eq_refl)); reflexivity.
Defined.

(* ------------------------------------------------------------------ *)
(** ** The handlers on the other clients, and on applied clones *)

(** X14. On a client whose user did not make the change, no handler of the
    hook does anything: no warning, no query, and the handler returns. *)
Theorem other_clients_stay_silent
        (H Hpre : Host) (GM : Authority) (ev : HookEvent) (h : M unit)
        (s : St) :
  In h (handlers H Hpre GM ev) ->
  currentUser (world s) <> initiator ev ->
  h s = (Returned tt, s).
Proof.
  intros Hin Huser. apply String.eqb_neq in Huser.
  destruct ev; simpl in Hin, Huser;
    repeat (destruct Hin as [<-|Hin]); try contradiction;
    unfold addRemoveEffect, deleteActiveEffect, createToken, deleteToken,
      updateToken, moveToken, updateActiveEffect, bind, getWorld, ret;
    cbn [fst snd]; rewrite ?Huser; cbn [negb]; try reflexivity.
  - destruct (negb (active effect)); [reflexivity|].
    destruct (lookup_actor (world s) (parent effect)); [|reflexivity].
    now destruct (fromAura effect).
  - destruct (negb (active effect)); [reflexivity|].
    destruct (lookup_actor (world s) (parent effect)); [|reflexivity].
    now destruct (fromAura effect).
Qed.

Lemma other_clients_stay_silent_witness :
  moveToken (Demo.host true) (Demo.host true) specAuthority
            Demo.tokCand None "user2" (Demo.start Demo.heldWorld)
  = (Returned tt, Demo.start Demo.heldWorld).
Proof.
  apply (other_clients_stay_silent
           (Demo.host true) (Demo.host true) specAuthority
           (MoveToken Demo.tokCand None "user2")).
  - left. reflexivity.
  - simpl. discriminate.
Defined.

(** X15. The creation, the update and the deletion of an effect that carries
    the aura-derived flag and is not of the aura type (what the apply
    operation puts on an actor) start nothing: every handler of these hooks
    returns at once, on every client. *)
Theorem clone_events_start_nothing
        (H Hpre : Host) (GM : Authority) (effect : Effect)
        (updates : EffectUpdates) (userId : string) (ev : HookEvent)
        (h : M unit) (s : St) :
  fromAura effect = true ->
  is_aura effect = false ->
  In ev [CreateActiveEffect effect userId; DeleteActiveEffect effect userId;
         UpdateActiveEffect effect updates userId] ->
  In h (handlers H Hpre GM ev) ->
  h s = (Returned tt, s).
Proof.
  intros Hflag Htype Hev Hin.
  destruct Hev as [<-|[<-|[<-|[]]]]; simpl in Hin;
    repeat (destruct Hin as [<-|Hin]); try contradiction;
    unfold addRemoveEffect, deleteActiveEffect, updateActiveEffect, bind,
      getWorld, ret;
    cbn [fst snd]; rewrite ?Hflag, ?Htype; cbn [negb].
  - destruct (negb (active effect)); [reflexivity|].
    now destruct (lookup_actor (world s) (parent effect)).
  - destruct (negb (active effect)); [reflexivity|].
    now destruct (lookup_actor (world s) (parent effect)).
  - now destruct (negb (currentUser (world s) =? userId)).
  - now destruct (negb (currentUser (world s) =? userId)).
Qed.

Lemma clone_events_start_nothing_witness :
  addRemoveEffect (Demo.host true) specAuthority Demo.heldClone "user1"
                  (Demo.start Demo.heldWorld)
  = (Returned tt, Demo.start Demo.heldWorld).
Proof.
  apply (clone_events_start_nothing
           (Demo.host true) (Demo.host true) specAuthority Demo.heldClone
           Demo.disabling "user1"
           (CreateActiveEffect Demo.heldClone "user1")).
  - reflexivity.
  - reflexivity.
  - left. reflexivity.
  - left. reflexivity.
Defined.

(* ------------------------------------------------------------------ *)
(** ** What [updateToken] sends, and when *)

Section QuietDeletions.

Variable tr0 : list Event.

Lemma still_noActiveGM : preserves (sameDeletions tr0) noActiveGM.
Proof.
  intros s Hs. unfold noActiveGM, sameDeletions in *.
  destruct (seenWarning s); simpl; [exact Hs|].
  rewrite deletions_app. simpl. now rewrite app_nil_r.
Qed.

Lemma still_queryApply (GM : Authority) (by_ : Issuer) (m : ApplyMap) :
  preserves (sameDeletions tr0) (queryApply GM by_ m).
Proof.
  intros s Hs. unfold queryApply, sameDeletions in *.
  destruct (activeGM (world s)); simpl; [|exact Hs].
  rewrite deletions_app. simpl. now rewrite app_nil_r.
Qed.

Lemma noBestOf_noActiveGM : preserves (sameBestOf tr0) noActiveGM.
Proof.
  intros s Hs. unfold noActiveGM, sameBestOf in *.
  destruct (seenWarning s); simpl; [exact Hs|].
  rewrite bestOfApplies_app. simpl. now rewrite app_nil_r.
Qed.

Lemma noBestOf_queryApply_handler (GM : Authority) (m : ApplyMap) :
  preserves (sameBestOf tr0) (queryApply GM ByHandler m).
Proof.
  intros s Hs. unfold queryApply, sameBestOf in *.
  destruct (activeGM (world s)); simpl; [|exact Hs].
  rewrite bestOfApplies_app. simpl. now rewrite app_nil_r.
Qed.

End QuietDeletions.

Lemma updateToken_quiet
      (H : Host) (GM : Authority) (token : Token) (updates : TokenUpdates)
      (userId : string) (s : St) :
  upd_hidden updates <> Some false
  \/ upd_has_x updates || upd_has_y updates || upd_has_elevation updates
     = true ->
  handlerApplies (trace (snd (updateToken H GM token updates userId s)))
  = handlerApplies (trace s).
Proof.
  intros Hgate.
  assert (Hquiet : preserves (sameHandlerApplies (trace s))
                             (updateToken H GM token updates userId)).
  { unfold updateToken.
    apply preserves_bind; [apply preserves_getWorld|]. intros w.
    destruct (negb (currentUser w =? userId)); [apply preserves_ret|].
    destruct (activeGM w); [|apply quiet_noActiveGM].
    destruct (token_actor w token) as [actor|]; [|apply preserves_ret].
    destruct (getAllAuraEffects (Some actor)) as [act inact].
    apply preserves_bind.
    - destruct (upd_hidden updates) as [[|]|]; try apply preserves_ret.
      destruct (negb (isEmpty _)); [|apply preserves_ret].
      apply quiet_removeAndReplaceAuras.
    - intros _.
      destruct (upd_has_x updates || upd_has_y updates
                || upd_has_elevation updates) eqn:Hpos;
        [apply preserves_ret|].
      destruct (upd_hidden updates) as [[|]|]; try apply preserves_ret.
      destruct Hgate as [Hh|Hp]; congruence. }
  apply (Hquiet s). reflexivity.
Qed.

Lemma updateToken_still
      (H : Host) (GM : Authority) (token : Token) (updates : TokenUpdates)
      (userId : string) (s : St) :
  upd_hidden updates <> Some true ->
  deletions (trace (snd (updateToken H GM token updates userId s)))
  = deletions (trace s).
Proof.
  intros Hgate.
  assert (Hstill : preserves (sameDeletions (trace s))
                             (updateToken H GM token updates userId)).
  { unfold updateToken.
    apply preserves_bind; [apply preserves_getWorld|]. intros w.
    destruct (negb (currentUser w =? userId)); [apply preserves_ret|].
    destruct (activeGM w); [|apply still_noActiveGM].
    destruct (token_actor w token) as [actor|]; [|apply preserves_ret].
    destruct (getAllAuraEffects (Some actor)) as [act inact].
    apply preserves_bind.
    - destruct (upd_hidden updates) as [[|]|]; try apply preserves_ret.
      congruence.
    - intros _.
      destruct (upd_has_x updates || upd_has_y updates
                || upd_has_elevation updates);
        [apply preserves_ret|].
      destruct (upd_hidden updates) as [[|]|]; try apply preserves_ret.
      apply preserves_bind; [apply preserves_getWorld|]. intros w'.
      apply preserves_bind; [apply preserves_lift|]. intros m.
      destruct (negb (isEmpty m));
        [apply still_queryApply|apply preserves_ret]. }
  apply (Hstill s). reflexivity.
Qed.

Lemma updateToken_noBestOf
      (H : Host) (GM : Authority) (token : Token) (updates : TokenUpdates)
      (userId : string) (s : St) :
  upd_hidden updates <> Some true ->
  bestOfApplies (trace (snd (updateToken H GM token updates userId s)))
  = bestOfApplies (trace s).
Proof.
  intros Hgate.
  assert (Hstill : preserves (sameBestOf (trace s))
                             (updateToken H GM token updates userId)).
  { unfold updateToken.
    apply preserves_bind; [apply preserves_getWorld|]. intros w.
    destruct (negb (currentUser w =? userId)); [apply preserves_ret|].
    destruct (activeGM w); [|apply noBestOf_noActiveGM].
    destruct (token_actor w token) as [actor|]; [|apply preserves_ret].
    destruct (getAllAuraEffects (Some actor)) as [act inact].
    apply preserves_bind.
    - destruct (upd_hidden updates) as [[|]|]; try apply preserves_ret.
      congruence.
    - intros _.
      destruct (upd_has_x updates || upd_has_y updates
                || upd_has_elevation updates);
        [apply preserves_ret|].
      destruct (upd_hidden updates) as [[|]|]; try apply preserves_ret.
      apply preserves_bind; [apply preserves_getWorld|]. intros w'.
      apply preserves_bind; [apply preserves_lift|]. intros m.
      destruct (negb (isEmpty m));
        [apply noBestOf_queryApply_handler|apply preserves_ret]. }
  apply (Hstill s). reflexivity.
Qed.

(** X16. [updateToken] sends a request of its own only for an update that
    sets [hidden] to [false] and carries none of [x], [y] and [elevation];
    it sends deletions, and the best-of requests that may follow a deletion,
    only for an update that sets [hidden] to [true]. *)
Theorem updateToken_gates
        (H : Host) (GM : Authority) (token : Token) (updates : TokenUpdates)
        (userId : string) (s : St) :
  (upd_hidden updates <> Some false
   \/ upd_has_x updates || upd_has_y updates || upd_has_elevation updates
      = true ->
   handlerApplies (trace (snd (updateToken H GM token updates userId s)))
   = handlerApplies (trace s))
  /\ (upd_hidden updates <> Some true ->
      deletions (trace (snd (updateToken H GM token updates userId s)))
      = deletions (trace s)
      /\ bestOfApplies (trace (snd (updateToken H GM token updates userId s)))
         = bestOfApplies (trace s)).
Proof.
  split; [apply updateToken_quiet|].
  intros Hgate. split; [now apply updateToken_still|].
  now apply updateToken_noBestOf.
Qed.

Lemma updateToken_gates_witness :
  handlerApplies
    (trace (snd (updateToken (Demo.host true) specAuthority Demo.tokSrc
                             (mkTokenUpdates (Some false) true false false)
                             "user1" (Demo.start (Demo.scriptWorld None)))))
  = handlerApplies (trace (Demo.start (Demo.scriptWorld None)))
  /\ bestOfApplies
       (trace (snd (updateToken (Demo.host true) specAuthority Demo.tokSrc
                                (mkTokenUpdates (Some false) false false false)
                                "user1" (Demo.start (Demo.scriptWorld None)))))
     = bestOfApplies (trace (Demo.start (Demo.scriptWorld None))).
Proof.
  split.
  - apply (proj1 (updateToken_gates
                    (Demo.host true) specAuthority Demo.tokSrc
                    (mkTokenUpdates (Some false) true false false) "user1"
                    (Demo.start (Demo.scriptWorld None)))).
    right. reflexivity.
  - apply (proj2 (updateToken_gates
                    (Demo.host true) specAuthority Demo.tokSrc
                    (mkTokenUpdates (Some false) false false false) "user1"
                    (Demo.start (Demo.scriptWorld None)))).
    simpl. discriminate.
Defined.

(* ------------------------------------------------------------------ *)
(** ** Sheet extension helpers *)

Lemma toSpliced_empty {A} (items : list A) : toSpliced (-1) 0 items [] = items.
Proof. unfold toSpliced. simpl. now rewrite app_nil_r. Qed.

Lemma toSpliced_before_last {A} (items init : list A) (x : A) :
  toSpliced (-1) 0 items (init ++ [x]) = init ++ items ++ [x].
Proof.
  unfold toSpliced. rewrite length_app. simpl.
  replace (Z.of_nat (List.length init + 1) + -1)%Z
    with (Z.of_nat (List.length init)) by lia.
  rewrite Z.max_l by lia.
  replace (Z.min (Z.max 0 0)
                 (Z.of_nat (List.length init + 1) - Z.of_nat (List.length init)))%Z
    with 0%Z by lia.
  rewrite Z.add_0_r, Nat2Z.id.
  rewrite firstn_app, firstn_all, Nat.sub_diag. simpl. rewrite app_nil_r.
  rewrite skipn_app, skipn_all, Nat.sub_diag. reflexivity.
Qed.

Lemma last_snoc {A} (l : list A) (x d : A) : last (l ++ [x]) d = x.
Proof. apply last_last. Qed.

(** What a key holds after [getExtendedParts]. *)
Lemma getExtendedParts_get (origParts : JsObject HandlebarsTemplatePart)
      (key : string) :
  NoDup (map fst origParts) ->
  obj_get key (getExtendedParts origParts)
  = if String.eqb key "aura"
    then if String.eqb (last (keys origParts) "") "aura"
         then obj_get "aura" origParts
         else Some auraPart
    else obj_get key origParts.
Proof.
  intros Hnd. unfold getExtendedParts, fromEntries, keys.
  rewrite fold_set_get.
  assert (Hperm := entries_perm origParts).
  assert (Hnd' : NoDup (map fst (entries origParts))).
  { eapply Permutation_NoDup; [|exact Hnd].
    apply Permutation_map. now apply Permutation_sym. }
  rewrite <- (obj_get_perm key _ _ Hnd' Hperm).
  rewrite <- (obj_get_perm "aura" _ _ Hnd' Hperm).
  destruct (entries origParts) as [|p l] eqn:Hentries using rev_ind.
  - rewrite toSpliced_empty. cbn [rev app map last].
    rewrite obj_get_single, (String.eqb_sym "aura" key).
    now destruct (String.eqb key "aura").
  - clear IHl. destruct p as [k v].
    rewrite toSpliced_before_last, map_app. cbn [map fst].
    rewrite last_snoc, !rev_app_distr. cbn [rev app].
    rewrite map_app in Hnd'. simpl in Hnd'.
    assert (Hkl : ~ In k (map fst l)).
    { apply NoDup_remove_2 in Hnd'. now rewrite app_nil_r in Hnd'. }
    assert (Hl : NoDup (map fst l)).
    { apply NoDup_remove_1 in Hnd'. now rewrite app_nil_r in Hnd'. }
    assert (Hrev : forall key0, obj_get key0 (rev l) = obj_get key0 l).
    { intros key0. symmetry. apply obj_get_perm; [exact Hl|].
      apply Permutation_rev. }
    assert (Hmiss : obj_get k l = None).
    { destruct (obj_get k l) as [v'|] eqn:Hget; [|reflexivity].
      apply (obj_get_in k v' l Hl) in Hget.
      exfalso. apply Hkl. now apply (in_map fst) in Hget. }
    rewrite !obj_get_app, !obj_get_cons, Hrev.
    change (@obj_get HandlebarsTemplatePart key []) with (@None HandlebarsTemplatePart).
    change (@obj_get HandlebarsTemplatePart "aura" []) with (@None HandlebarsTemplatePart).
    rewrite (String.eqb_sym "aura" key).
    destruct (String.eqb key "aura") eqn:Hkey.
    + apply String.eqb_eq in Hkey. subst key.
      destruct (String.eqb k "aura") eqn:Hk; [|reflexivity].
      apply String.eqb_eq in Hk. subst k. now rewrite Hmiss.
    + destruct (String.eqb k key) eqn:Hk.
      * apply String.eqb_eq in Hk. subst k. now rewrite Hmiss.
      * now destruct (obj_get key l).
Qed.

(** X25. The new part stands before the last part; on a sheet without parts it
    stands alone. The original parts keep their templates and their order.
    (For parts whose names are not array indices and do not include "aura".) *)
Theorem getExtendedParts_order (origParts : JsObject HandlebarsTemplatePart) :
  NoDup (map fst origParts) ->
  (forall k, In k (map fst origParts) -> isArrayIndex k = false) ->
  ~ In "aura" (map fst origParts) ->
  entries (getExtendedParts origParts)
  = toSpliced (-1) 0 [("aura", auraPart)] origParts
  /\ (origParts = [] -> keys (getExtendedParts origParts) = ["aura"])
  /\ (forall init lastPart,
         origParts = init ++ [lastPart] ->
         keys (getExtendedParts origParts)
         = map fst init ++ ["aura"; fst lastPart]).
Proof.
  intros Hnd Hplain Hfresh.
  assert (Hspliced : NoDup (map fst (toSpliced (-1) 0 [("aura", auraPart)]
                                               origParts))
                     /\ forall k,
                          In k (map fst (toSpliced (-1) 0 [("aura", auraPart)]
                                                   origParts)) ->
                          isArrayIndex k = false).
  { destruct origParts as [|p l] using rev_ind.
    - rewrite toSpliced_empty. simpl. split.
      + repeat constructor. simpl. tauto.
      + intros k [<-|[]]. reflexivity.
    - clear IHl. rewrite toSpliced_before_last.
      rewrite !map_app in *. simpl in *. split.
      + apply NoDup_remove_1 in Hnd as Hl. rewrite app_nil_r in Hl.
        apply NoDup_remove_2 in Hnd as Hp. rewrite app_nil_r in Hp.
        apply NoDup_app; [exact Hl| |].
        * repeat constructor; simpl; [|tauto].
          intros [Heq|[]]. apply Hfresh. apply in_app_iff. right.
          left. now symmetry.
        * intros a Ha [<-|[<-|[]]].
          -- apply Hfresh. apply in_app_iff. now left.
          -- contradiction.
      + intros k Hk. apply in_app_iff in Hk.
        destruct Hk as [Hk|[<-|[<-|[]]]].
        * apply Hplain. apply in_app_iff. now left.
        * reflexivity.
        * apply Hplain. apply in_app_iff. right. now left. }
  destruct Hspliced as [Hnd' Hplain'].
  assert (Hresult : getExtendedParts origParts
                    = toSpliced (-1) 0 [("aura", auraPart)] origParts).
  { unfold getExtendedParts, fromEntries.
    rewrite (entries_plain origParts Hplain).
    now rewrite (fold_set_fresh _ []). }
  assert (Hentries : entries (getExtendedParts origParts)
                     = toSpliced (-1) 0 [("aura", auraPart)] origParts).
  { rewrite Hresult. now apply entries_plain. }
  split; [exact Hentries|]. unfold keys. rewrite Hentries. split.
  - intros ->. now rewrite toSpliced_empty.
  - intros init lastPart ->. rewrite toSpliced_before_last.
    now rewrite map_app.
Qed.

Lemma getExtendedParts_order_witness :
  keys (getExtendedParts Samples.sheetParts)
  = ["header"; "tabs"; "details"; "changes"; "aura"; "footer"].
Proof.
  refine (proj2 (proj2 (getExtendedParts_order Samples.sheetParts _ _ _))
                [("header", Samples.part "header.hbs");
                 ("tabs", Samples.part "tabs.hbs");
                 ("details", Samples.part "details.hbs");
                 ("changes", Samples.part "changes.hbs")]
                ("footer", Samples.part "footer.hbs") eq_refl).
  - simpl. repeat constructor; simpl; intuition discriminate.
  - simpl. intros k Hk.
    repeat (destruct Hk as [<-|Hk]; [reflexivity|]). destruct Hk.
  - simpl. intuition discriminate.
Defined.

(** X26. Whatever the original parts are, every part is still found under its
    name after the extension, and "aura" names the module's part, unless the
    original's last part is itself called "aura", which then stays. *)
Theorem getExtendedParts_lookup (origParts : JsObject HandlebarsTemplatePart) :
  NoDup (map fst origParts) ->
  (forall key, key <> "aura" ->
     obj_get key (getExtendedParts origParts) = obj_get key origParts)
  /\ (last (keys origParts) "" <> "aura" ->
      obj_get "aura" (getExtendedParts origParts) = Some auraPart)
  /\ (last (keys origParts) "" = "aura" ->
      obj_get "aura" (getExtendedParts origParts) = obj_get "aura" origParts).
Proof.
  intros Hnd. repeat split.
  - intros key Hkey. rewrite (getExtendedParts_get origParts key Hnd).
    apply String.eqb_neq in Hkey. now rewrite Hkey.
  - intros Hlast. rewrite (getExtendedParts_get origParts "aura" Hnd).
    apply String.eqb_neq in Hlast. now rewrite Hlast.
  - intros Hlast. rewrite (getExtendedParts_get origParts "aura" Hnd).
    now rewrite Hlast.
Qed.

Lemma getExtendedParts_lookup_witness :
  obj_get "details" (getExtendedParts Samples.sheetParts)
  = Some (Samples.part "details.hbs")
  /\ obj_get "aura" (getExtendedParts Samples.sheetParts) = Some auraPart.
Proof.
  assert (Hnd : NoDup (map fst Samples.sheetParts)).
  { simpl. repeat constructor; simpl; intuition discriminate. }
  destruct (getExtendedParts_lookup Samples.sheetParts Hnd)
    as (Hkeep & Hnew & _).
  split.
  - rewrite Hkeep; [reflexivity|discriminate].
  - apply Hnew. vm_compute. discriminate.
Defined.

(** X27. The two extensions fit: [getExtendedTabs] returns exactly when the
    original has a sheet group with a tabs array, its result holds that group
    alone, with the tab "aura" added after the original tabs; every tab whose
    id named a part of the original sheet still names one after
    [getExtendedParts], and so does the added tab. *)
Theorem extended_tabs_have_parts
        (origParts : JsObject HandlebarsTemplatePart)
        (origTabs extended : JsObject TabGroup) :
  NoDup (map fst origParts) ->
  getExtendedTabs origTabs = Returned extended ->
  exists sheet origSheetTabs,
    obj_get "sheet" origTabs = Some sheet
    /\ tabs sheet = Some origSheetTabs
    /\ extended = [("sheet", mkTabGroup (Some (origSheetTabs ++ [auraTab]))
                                        (group_options sheet))]
    /\ (forall t, In t origSheetTabs ->
          obj_get (tab_id t) origParts <> None ->
          obj_get (tab_id t) (getExtendedParts origParts) <> None)
    /\ obj_get (tab_id auraTab) (getExtendedParts origParts) <> None.
Proof.
  intros Hnd. unfold getExtendedTabs.
  destruct (obj_get "sheet" origTabs) as [sheet|]; [|discriminate].
  destruct (tabs sheet) as [origSheetTabs|] eqn:Htabs; [|discriminate].
  intros [= <-]. exists sheet, origSheetTabs.
  split; [reflexivity|]. split; [exact Htabs|]. split; [reflexivity|].
  split.
  - intros t _ Hpart. rewrite (getExtendedParts_get origParts _ Hnd).
    destruct (String.eqb (tab_id t) "aura") eqn:Hid; [|exact Hpart].
    apply String.eqb_eq in Hid. rewrite Hid in Hpart.
    destruct (String.eqb (last (keys origParts) "") "aura");
      [exact Hpart|discriminate].
  - simpl tab_id. rewrite (getExtendedParts_get origParts _ Hnd). simpl.
    destruct (String.eqb (last (keys origParts) "") "aura") eqn:Hlast;
      [|discriminate].
    apply String.eqb_eq in Hlast.
    assert (Hin : In "aura" (map fst origParts)).
    { assert (Hk : In "aura" (keys origParts)).
      { rewrite <- Hlast. destruct (keys origParts) as [|k l] eqn:Hkeys.
        - simpl in Hlast. discriminate.
        - rewrite <- Hkeys. rewrite <- Hkeys in Hlast.
          destruct (exists_last (l := keys origParts)) as (init & x & Heq).
          + rewrite Hkeys. discriminate.
          + rewrite Heq. rewrite last_snoc. apply in_app_iff. right.
            now left. }
      unfold keys in Hk.
      eapply Permutation_in; [|exact Hk].
      apply Permutation_map, entries_perm. }
    apply in_map_iff in Hin. destruct Hin as ([k v] & Hk & Hin).
    simpl in Hk. subst k.
    apply (obj_get_in "aura" v origParts Hnd) in Hin. congruence.
Qed.

Lemma extended_tabs_have_parts_witness :
  obj_get "changes" (getExtendedParts Samples.sheetParts) <> None
  /\ obj_get "aura" (getExtendedParts Samples.sheetParts) <> None.
Proof.
  assert (Hnd : NoDup (map fst Samples.sheetParts)).
  { simpl. repeat constructor; simpl; intuition discriminate. }
  destruct (extended_tabs_have_parts Samples.sheetParts Samples.sheetTabs
              [("sheet",
                mkTabGroup (Some [mkTab "details" (Some "fa-solid fa-book") [];
                                  mkTab "changes" (Some "fa-solid fa-gears") [];
                                  auraTab])
                           [("initial", "details")])]
              Hnd eq_refl)
    as (sheet & old & Hsheet & Htabs & _ & Hold & Hnew).
  split; [|exact Hnew].
  injection Hsheet as <-. injection Htabs as <-.
  apply (Hold (mkTab "changes" (Some "fa-solid fa-gears") [])).
  - simpl. right. left. reflexivity.
  - vm_compute. discriminate.
Defined.

(* ------------------------------------------------------------------ *)
(** ** Whom [createToken] asks for, and what the deletions name *)

Section Reach.

Variable H : Host.
Variable GM : Authority.

Lemma inRangeStep_reaches (w : World) (token : Token) (m m' : ApplyMap)
      (effect : Effect) :
  In effect (fst (getAllAuraEffects (token_actor w token))) ->
  requestOf (reaches H w token) m ->
  inRangeStep H w token m effect = Returned m' ->
  requestOf (reaches H w token) m'.
Proof.
  intros Heff Hm. unfold inRangeStep.
  destruct (falsy (distance (system effect))) eqn:Hradius;
    [now intros [= <-]|].
  unfold scriptedRange.
  destruct (ofilter _ _) as [ts|err] eqn:Hts; cbn [obind]; [|discriminate].
  intros [= <-]. apply requestOf_fold; [exact Hm|].
  intros a Ha. unfold toAddTo in Ha. apply filter_In in Ha.
  destruct Ha as [Ha Hkeep]. apply andb_prop in Hkeep.
  destruct Hkeep as [Hother _]. apply negb_true_iff in Hother.
  apply to_set_in, actorsOf_in in Ha. destruct Ha as (t & Ht & Hactor).
  destruct (ofilter_in _ _ _ t Hts Ht) as [Hnear Hscript].
  exists effect, t. repeat (split; [assumption || reflexivity|]).
  intros Heq. apply opt_eqb_eq in Heq. congruence.
Qed.

Lemma inRangeMap_reaches (w : World) (token : Token) (effs : list Effect)
      (m : ApplyMap) :
  incl effs (fst (getAllAuraEffects (token_actor w token))) ->
  inRangeMap H w token effs = Returned m ->
  requestOf (reaches H w token) m.
Proof.
  unfold inRangeMap. intros Hincl.
  assert (Hgen : forall m0 m',
             requestOf (reaches H w token) m0 ->
             ofold (inRangeStep H w token) effs m0 = Returned m' ->
             requestOf (reaches H w token) m').
  { induction effs as [|e effs IH]; intros m0 m' Hm0; cbn [ofold].
    - now intros [= <-].
    - destruct (inRangeStep H w token m0 e) as [m1|err] eqn:H1; cbn [obind];
        [|discriminate].
      apply IH.
      + intros x Hx. apply Hincl. now right.
      + eapply inRangeStep_reaches; eauto. apply Hincl. now left. }
  apply Hgen. intros a us u [].
Qed.

End Reach.

(** X17. Every request [createToken] sends names, for an actor, only active
    auras with a radius of the created token's actor, and only for actors
    other than that one that have a token which [getNearbyTokens] returns for
    the aura and for which the aura's script answers [true]. *)
Theorem createToken_requests_reach
        (H : Host) (GM : Authority) (token : Token) (userId : string)
        (s : St) (m : ApplyMap) :
  In m (handlerApplies (trace (snd (createToken H GM token userId s)))) ->
  In m (handlerApplies (trace s))
  \/ requestOf (reaches H (world s) token) m.
Proof.
  unfold createToken. unfold bind at 1. unfold getWorld. cbn [fst snd].
  destruct (negb (currentUser (world s) =? userId)); [now left|].
  destruct (activeGM (world s)) eqn:Hgm;
    [|rewrite noActiveGM_applies; now left].
  destruct (token_actor (world s) token) as [actor|] eqn:Hactor; [|now left].
  destruct (getAllAuraEffects (Some actor)) as [act inact] eqn:Hall.
  unfold bind, lift.
  destruct (inRangeMap H (world s) token act) as [m0|err] eqn:Hmap;
    cbn [fst snd]; [|now left].
  destruct (isEmpty m0); cbn [negb]; [now left|].
  unfold queryApply. rewrite Hgm. cbn [fst snd trace].
  intros Hin. apply handlerApplies_snoc in Hin.
  destruct Hin as [Hin| ->]; [now left|right].
  apply (inRangeMap_reaches H (world s) token act); [|exact Hmap].
  rewrite Hactor, Hall. apply incl_refl.
Qed.

Lemma createToken_requests_reach_witness :
  requestOf (reaches (Demo.host true) (Demo.scriptWorld None) Demo.tokNew)
            [("Actor.b", ["Actor.a.ActiveEffect.bless"])].
Proof.
  destruct (createToken_requests_reach
              (Demo.host true) specAuthority Demo.tokNew "user1"
              (Demo.start (Demo.scriptWorld None))
              [("Actor.b", ["Actor.a.ActiveEffect.bless"])])
    as [Hold|Hnew].
  - vm_compute. left. reflexivity.
  - destruct Hold.
  - exact Hnew.
Defined.

(** X19. [createToken] sends nothing before it has evaluated every script:
    when it throws (a script that does not compile), nothing has been sent and
    nothing has changed. *)
Theorem createToken_throws_before_sending
        (H : Host) (GM : Authority) (token : Token) (userId : string)
        (s : St) (e : JsError) :
  fst (createToken H GM token userId s) = Threw e ->
  snd (createToken H GM token userId s) = s.
Proof.
  unfold createToken, bind, getWorld, lift, ret. cbn [fst snd].
  destruct (negb (currentUser (world s) =? userId)); [reflexivity|].
  destruct (activeGM (world s)) eqn:Hgm.
  - destruct (token_actor (world s) token) as [actor|]; [|reflexivity].
    destruct (getAllAuraEffects (Some actor)) as [act inact].
    destruct (inRangeMap H (world s) token act) as [m0|err]; cbn [fst snd];
      [|reflexivity].
    destruct (isEmpty m0); cbn [negb]; [reflexivity|].
    unfold queryApply. rewrite Hgm. cbn [fst snd]. discriminate.
  - unfold noActiveGM. destruct (negb (seenWarning s)); discriminate.
Qed.

Lemma createToken_throws_before_sending_witness :
  snd (createToken (Demo.host true) specAuthority Demo.tokNew "user1"
                   (Demo.start (Demo.scriptWorld (Some "("))))
  = Demo.start (Demo.scriptWorld (Some "(")).
Proof.
  apply (createToken_throws_before_sending
           (Demo.host true) specAuthority Demo.tokNew "user1"
           (Demo.start (Demo.scriptWorld (Some "(")))
           (SyntaxError "return Boolean(();")).
  reflexivity.
Defined.

Lemma sceneAppliedEffects_in (w : World) (keep : Token -> bool) (e : Effect) :
  In e (sceneAppliedEffects w keep) ->
  exists t holder,
    In t (tokens w) /\ keep t = true /\ token_actor w t = Some holder
    /\ In e (appliedEffects holder).
Proof.
  unfold sceneAppliedEffects. intros Hin.
  apply in_flat_map in Hin. destruct Hin as (t & Ht & He).
  apply filter_In in Ht. destruct Ht as [Ht Hkeep].
  destruct (token_actor w t) as [holder|] eqn:Hholder; [|discriminate].
  exists t, holder. auto.
Qed.

(** X20. Every deletion [deleteActiveEffect] sends names only applied,
    aura-derived effects whose origin is the deleted effect and that are held
    by the actor of a scene token other than the effect's own actor. *)
Theorem deleteActiveEffect_deletes_clones_only
        (H : Host) (GM : Authority) (effect : Effect) (userId : string)
        (s : St) (uuids : list string) :
  In uuids
     (deletions (trace (snd (deleteActiveEffect H GM effect userId s)))) ->
  In uuids (deletions (trace s))
  \/ forall u,
       In u uuids ->
       cloneOnScene (world s)
                    (fun t => negb (opt_eqb (tokenActorUuid (world s) t)
                                            (parent effect)))
                    (fun o => o = uuid effect) u.
Proof.
  unfold deleteActiveEffect. unfold bind at 1. unfold getWorld. cbn [fst snd].
  destruct (negb (currentUser (world s) =? userId)); [now left|].
  destruct (negb (is_aura effect)); [now left|].
  destruct (negb (canvasScene (world s))); [now left|].
  destruct (lookup_actor (world s) (parent effect)) as [actor|] eqn:Hactor;
    [|now left].
  destruct (activeGM (world s)).
  - intros Hin. apply removeAndReplaceAuras_deletions in Hin.
    destruct Hin as [Hin| ->]; [now left|right].
    intros u Hu. apply in_map_iff in Hu. destruct Hu as (e & <- & He).
    unfold appliedFrom in He. apply filter_In in He.
    destruct He as [He Hkeep]. apply andb_prop in Hkeep.
    destruct Hkeep as [Hflag Ho]. apply opt_eqb_eq in Ho.
    apply sceneAppliedEffects_in in He.
    destruct He as (t & holder & Ht & Hkeep & Hholder & He).
    apply lookup_actor_in in Hactor. destruct Hactor as [_ Huuid].
    rewrite Huuid in Hkeep.
    exists e, t, holder, (uuid effect).
    repeat (split; [assumption || reflexivity|]). exact He.
  - intros Hin. left.
    pose proof (still_noActiveGM (trace s) s eq_refl) as Hstill.
    unfold sameDeletions in Hstill. now rewrite Hstill in Hin.
Qed.

Lemma deleteActiveEffect_deletes_clones_only_witness :
  cloneOnScene Demo.disabledWorld
               (fun t => negb (opt_eqb (tokenActorUuid Demo.disabledWorld t)
                                       (parent Demo.blessOff)))
               (fun o => o = uuid Demo.blessOff)
               "Actor.b.ActiveEffect.clone".
Proof.
  destruct (deleteActiveEffect_deletes_clones_only
              (Demo.host true) specAuthority Demo.blessOff "user1"
              (Demo.start Demo.disabledWorld)
              ["Actor.b.ActiveEffect.clone"])
    as [Hold|Hnew].
  - vm_compute. left. reflexivity.
  - destruct Hold.
  - apply Hnew. left. reflexivity.
Defined.

(** X21. Every deletion [deleteToken] sends names only applied, aura-derived
    effects whose origin is an active aura of the deleted token's actor and
    that are held by the actor of a scene token of another actor. *)
Theorem deleteToken_deletes_clones_only
        (H : Host) (GM : Authority) (token : Token) (userId : string)
        (s : St) (uuids : list string) :
  In uuids (deletions (trace (snd (deleteToken H GM token userId s)))) ->
  In uuids (deletions (trace s))
  \/ exists actor,
       token_actor (world s) token = Some actor
       /\ forall u,
            In u uuids ->
            cloneOnScene (world s)
                         (fun t => negb (opt_eqb (tokenActorUuid (world s) t)
                                                 (actor_uuid actor)))
                         (fun o => exists source,
                                     In source
                                        (fst (getAllAuraEffects (Some actor)))
                                     /\ uuid source = o) u.
Proof.
  unfold deleteToken. unfold bind at 1. unfold getWorld. cbn [fst snd].
  destruct (negb (currentUser (world s) =? userId)); [now left|].
  destruct (negb (canvasScene (world s))); [now left|].
  destruct (token_actor (world s) token) as [actor|] eqn:Hactor; [|now left].
  destruct (activeGM (world s)).
  - destruct (getAllAuraEffects (Some actor)) as [act inact] eqn:Hall.
    intros Hin. apply removeAndReplaceAuras_deletions in Hin.
    destruct Hin as [Hin| ->]; [now left|right].
    exists actor. split; [reflexivity|].
    intros u Hu. apply in_map_iff in Hu. destruct Hu as (e & <- & He).
    apply filter_In in He. destruct He as [He Hkeep].
    apply andb_prop in Hkeep. destruct Hkeep as [Hflag Ho].
    destruct (origin e) as [o|] eqn:Horigin; [|discriminate].
    apply includes_in, in_map_iff in Ho. destruct Ho as (source & Hsu & Hsrc).
    apply sceneAppliedEffects_in in He.
    destruct He as (t & holder & Ht & Hkeep & Hholder & He).
    exists e, t, holder, o.
    split; [reflexivity|]. split; [exact Hflag|]. split; [exact Horigin|].
    split; [exists source; rewrite Hall; split; [exact Hsrc|exact Hsu]|].
    repeat (split; [assumption|]). exact He.
  - intros Hin. left.
    pose proof (still_noActiveGM (trace s) s eq_refl) as Hstill.
    unfold sameDeletions in Hstill. now rewrite Hstill in Hin.
Qed.

Lemma deleteToken_deletes_clones_only_witness :
  exists actor,
    token_actor Demo.heldWorld Demo.tokSrc = Some actor
    /\ forall u,
         In u ["Actor.b.ActiveEffect.held"] ->
         cloneOnScene Demo.heldWorld
                      (fun t => negb (opt_eqb (tokenActorUuid Demo.heldWorld t)
                                              (actor_uuid actor)))
                      (fun o => exists source,
                                  In source
                                     (fst (getAllAuraEffects (Some actor)))
                                  /\ uuid source = o) u.
Proof.
  destruct (deleteToken_deletes_clones_only
              (Demo.host true) specAuthority Demo.tokSrc "user1"
              (Demo.start Demo.heldWorld) ["Actor.b.ActiveEffect.held"])
    as [Hold|Hnew].
  - vm_compute. left. reflexivity.
  - destruct Hold.
  - exact Hnew.
Defined.

(** X23. An update of an aura whose radius is 0 that does not disable it sends
    nothing: the clones of the aura that are on the scene are left where they
    are. *)
Theorem updateActiveEffect_without_radius
        (H : Host) (GM : Authority) (effect : Effect)
        (updates : EffectUpdates) (userId : string) (s : St) :
  upd_disabled updates <> Some true ->
  falsy (distance (system effect)) = true ->
  fst (updateActiveEffect H GM effect updates userId s) = Returned tt
  /\ noMutation s (snd (updateActiveEffect H GM effect updates userId s)).
Proof.
  intros Hupd Hradius.
  assert (Hsame : fst (@ret unit tt s) = Returned tt
                  /\ noMutation s (snd (@ret unit tt s))).
  { split; [reflexivity|apply noMutation_refl]. }
  unfold updateActiveEffect, bind, getWorld. cbn [fst snd].
  destruct (negb (currentUser (world s) =? userId)); [exact Hsame|].
  destruct (negb (is_aura effect)); [exact Hsame|].
  destruct (_ && negb (upd_has_system updates)); [exact Hsame|].
  destruct (negb (canvasScene (world s))); [exact Hsame|].
  destruct (lookup_actor (world s) (parent effect)) as [actor|];
    [|exact Hsame].
  destruct (getActiveTokens (world s) (actor_uuid actor)) as [|token others];
    [exact Hsame|].
  destruct (activeGM (world s)); [|apply noMutation_noActiveGM].
  destruct (upd_disabled updates) as [[|]|]; try congruence;
    unfold reevaluateEffect; rewrite Hradius; exact Hsame.
Qed.

Lemma updateActiveEffect_without_radius_witness :
  noMutation
    (Demo.start Demo.heldWorld)
    (snd (updateActiveEffect
            (Demo.host true) specAuthority
            (Demo.aura "Actor.a.ActiveEffect.bless" "Bless" "Actor.a"
                       (Demo.auraSystem 0 None None) false)
            (mkEffectUpdates None true) "user1"
            (Demo.start Demo.heldWorld))).
Proof.
  apply (updateActiveEffect_without_radius
           (Demo.host true) specAuthority
           (Demo.aura "Actor.a.ActiveEffect.bless" "Bless" "Actor.a"
                      (Demo.auraSystem 0 None None) false)
           (mkEffectUpdates None true) "user1" (Demo.start Demo.heldWorld)).
  - discriminate.
  - reflexivity.
Defined.

(* ------------------------------------------------------------------ *)
(** ** Deletions on hiding a token, and on every change of an effect *)

Lemma hidden_removals_are_clones (w : World) (token : Token)
      (inactiveSourceEffects : list Effect) (u : string) :
  In u (map uuid
          (filter (fun e => fromAura e &&
                            existsb (fun sourceEff =>
                                       opt_eqb (origin e) (uuid sourceEff))
                                    (filter (fun e => disableOnHidden (system e))
                                            inactiveSourceEffects))
                  (sceneAppliedEffects w (fun t => negb (same_token t token))))) ->
  cloneOnScene w (fun t => negb (same_token t token))
               (fun o => exists source,
                           In source inactiveSourceEffects
                           /\ disableOnHidden (system source) = true
                           /\ uuid source = o) u.
Proof.
  intros Hu. apply in_map_iff in Hu. destruct Hu as (e & <- & He).
  apply filter_In in He. destruct He as [He Hkeep].
  apply andb_prop in Hkeep. destruct Hkeep as [Hflag Ho].
  apply existsb_exists in Ho. destruct Ho as (source & Hsrc & Ho).
  apply filter_In in Hsrc. destruct Hsrc as [Hsrc Hmark].
  apply opt_eqb_eq in Ho.
  apply sceneAppliedEffects_in in He.
  destruct He as (t & holder & Ht & Hkeep & Hholder & He).
  exists e, t, holder, (uuid source).
  split; [reflexivity|]. split; [exact Hflag|]. split; [exact Ho|].
  split; [exists source; auto|].
  repeat (split; [assumption|]). exact He.
Qed.

(** X22. Every deletion [updateToken] sends names only applied, aura-derived
    effects whose origin is an inactive aura, marked "disable on hidden", of
    the updated token's actor, held by the actor of a scene token other than
    the updated one. *)
Theorem updateToken_deletes_clones_only
        (H : Host) (GM : Authority) (token : Token) (updates : TokenUpdates)
        (userId : string) (s : St) (uuids : list string) :
  In uuids
     (deletions (trace (snd (updateToken H GM token updates userId s)))) ->
  In uuids (deletions (trace s))
  \/ exists actor,
       token_actor (world s) token = Some actor
       /\ upd_hidden updates = Some true
       /\ forall u,
            In u uuids ->
            cloneOnScene (world s)
                         (fun t => negb (same_token t token))
                         (fun o => exists source,
                                     In source
                                        (snd (getAllAuraEffects (Some actor)))
                                     /\ disableOnHidden (system source) = true
                                     /\ uuid source = o) u.
Proof.
  destruct (upd_hidden updates) as [[|]|] eqn:Hhidden.
  - unfold updateToken. unfold bind at 1. unfold getWorld at 1.
    cbn [fst snd].
    destruct (negb (currentUser (world s) =? userId)); [now left|].
    destruct (activeGM (world s)).
    + destruct (token_actor (world s) token) as [actor|] eqn:Hactor;
        [|now left].
      destruct (getAllAuraEffects (Some actor)) as [act inact] eqn:Hall.
      rewrite Hhidden. unfold bind at 1.
      destruct (negb (isEmpty _)).
      * match goal with
        | |- context [removeAndReplaceAuras H GM ?l s] =>
            pose proof (removeAndReplaceAuras_deletions H GM l s uuids)
              as Hdel;
            destruct (removeAndReplaceAuras H GM l s) as [[[]|err] s1];
            cbn [fst snd] in *
        end.
        -- assert (Hs1 : forall b : bool,
                      snd ((if b then ret tt else ret tt) s1) = s1)
             by (intros [|]; reflexivity).
           rewrite Hs1. intros Hin. destruct (Hdel Hin) as [Hold| ->];
             [now left|right].
           exists actor. split; [reflexivity|]. split; [reflexivity|].
           intros u Hu. rewrite Hall. now apply hidden_removals_are_clones.
        -- intros Hin. destruct (Hdel Hin) as [Hold| ->]; [now left|right].
           exists actor. split; [reflexivity|]. split; [reflexivity|].
           intros u Hu. rewrite Hall. now apply hidden_removals_are_clones.
      * unfold ret at 1. cbn [fst snd].
        destruct (upd_has_x updates || upd_has_y updates
                  || upd_has_elevation updates); now left.
    + intros Hin. left.
      pose proof (still_noActiveGM (trace s) s eq_refl) as Hstill.
      unfold sameDeletions in Hstill. now rewrite Hstill in Hin.
  - intros Hin. left. rewrite updateToken_still in Hin; [exact Hin|].
    congruence.
  - intros Hin. left. rewrite updateToken_still in Hin; [exact Hin|].
    congruence.
Qed.

(** X24. Once past its guards, [addRemoveEffect] that returns normally has
    sent exactly one deletion, be it an empty one: every creation or deletion
    of an effect on an actor with a token on the scene costs the GM a query. *)
Theorem addRemoveEffect_always_deletes
        (H : Host) (GM : Authority) (effect : Effect) (userId : string)
        (s : St) (target : Actor) (gm : string) :
  active effect = true ->
  fromAura effect = false ->
  currentUser (world s) = userId ->
  lookup_actor (world s) (parent effect) = Some target ->
  activeGM (world s) = Some gm ->
  getActiveTokens (world s) (actor_uuid target) <> [] ->
  fst (addRemoveEffect H GM effect userId s) = Returned tt ->
  exists uuids,
    deletions (trace (snd (addRemoveEffect H GM effect userId s)))
    = deletions (trace s) ++ [uuids].
Proof.
  intros Hactive Hflag Huser Htarget Hgm Htokens.
  unfold addRemoveEffect, bind, getWorld, lift, ret. cbn [fst snd].
  rewrite Hactive, Htarget, Hflag, Huser, String.eqb_refl, Hgm. cbn [negb].
  destruct (getAllAuraEffects (Some target)) as [act inact].
  destruct (getActiveTokens (world s) (actor_uuid target))
    as [|mainToken others]; [congruence|].
  destruct (ofold (sourceStep H (world s) mainToken) act ([], []))
    as [[m toDelete]|err]; cbn [fst snd]; [|discriminate].
  destruct (getChangingSceneAuras H (world s) mainToken) as [[r a]|err];
    cbn [fst snd]; [|discriminate].
  destruct (negb (isEmpty _)).
  - unfold queryApply. rewrite Hgm. cbn [fst snd].
    set (s2 := mkSt _ _ _).
    intros Hret. eexists.
    rewrite (removeAndReplaceAuras_one_deletion H GM _ s2 Hret).
    unfold s2. cbn [trace]. rewrite deletions_app. simpl.
    rewrite app_nil_r. reflexivity.
  - intros Hret. eexists.
    apply (removeAndReplaceAuras_one_deletion H GM _ s Hret).
Qed.

Lemma addRemoveEffect_always_deletes_witness :
  exists uuids,
    deletions
      (trace (snd (addRemoveEffect (Demo.host true) specAuthority
                                   (Demo.auraOf None) "user1"
                                   (Demo.start (Demo.scriptWorld None)))))
    = deletions (trace (Demo.start (Demo.scriptWorld None))) ++ [uuids].
Proof.
  apply (addRemoveEffect_always_deletes
           (Demo.host true) specAuthority (Demo.auraOf None) "user1"
           (Demo.start (Demo.scriptWorld None))
           (mkActor "Actor.a" "Paladin" [Demo.auraOf None] []) "gm");
    try reflexivity.
  simpl. discriminate.
Defined.

Lemma updateToken_deletes_clones_only_witness :
  exists actor,
    token_actor Samples.hiddenWorld Demo.tokSrc = Some actor
    /\ upd_hidden Samples.hiding = Some true
    /\ forall u,
         In u ["Actor.b.ActiveEffect.veil"] ->
         cloneOnScene Samples.hiddenWorld
                      (fun t => negb (same_token t Demo.tokSrc))
                      (fun o => exists source,
                                  In source
                                     (snd (getAllAuraEffects (Some actor)))
                                  /\ disableOnHidden (system source) = true
                                  /\ uuid source = o) u.
Proof.
  destruct (updateToken_deletes_clones_only
              (Demo.host true) specAuthority Demo.tokSrc Samples.hiding
              "user1" (Demo.start Samples.hiddenWorld)
              ["Actor.b.ActiveEffect.veil"])
    as [Hold|Hnew].
  - vm_compute. left. reflexivity.
  - destruct Hold.
  - exact Hnew.
Defined.

(* ------------------------------------------------------------------ *)
(** ** No source twice in a request of [createToken] *)

Lemma requestedFor_cons (k : string) (vs : list string) (m : ApplyMap)
      (a u : string) :
  requestedFor ((k, vs) :: m) a u
  = ((if String.eqb k a then count_occ string_dec vs u else 0)
     + requestedFor m a u)%nat.
Proof. reflexivity. Qed.

Lemma requestedFor_map_concat (m : ApplyMap) (k v a u : string) :
  requestedFor (map_concat m k v) a u
  = (requestedFor m a u
     + if String.eqb k a && String.eqb v u then 1 else 0)%nat.
Proof.
  assert (Hone : count_occ string_dec [v] u
                 = if String.eqb v u then 1%nat else 0%nat).
  { simpl. destruct (string_dec v u) as [->|Hne].
    - now rewrite String.eqb_refl.
    - apply String.eqb_neq in Hne. now rewrite Hne. }
  induction m as [|[k' vs] m IH]; cbn [map_concat].
  - rewrite requestedFor_cons, Hone. unfold requestedFor. simpl.
    destruct (String.eqb k a), (String.eqb v u); simpl; lia.
  - destruct (String.eqb k' k) eqn:Hk.
    + apply String.eqb_eq in Hk. subst k'.
      rewrite !requestedFor_cons, count_occ_app, Hone.
      destruct (String.eqb k a), (String.eqb v u); simpl; lia.
    + rewrite !requestedFor_cons, IH. lia.
Qed.

Lemma requestedFor_fold (v : string) (l : list string) :
  forall m a u,
    NoDup l ->
    (u <> v ->
     requestedFor (fold_left (fun m a => map_concat m a v) l m) a u
     = requestedFor m a u)
    /\ (requestedFor (fold_left (fun m a => map_concat m a v) l m) a u
        <= requestedFor m a u + 1)%nat.
Proof.
  induction l as [|b l IH]; intros m a u Hnd; simpl.
  - split; [reflexivity|lia].
  - inversion Hnd as [|? ? Hfresh Hrest]; subst.
    assert (Hother : forall m0,
               ~ In a l ->
               requestedFor (fold_left (fun m a => map_concat m a v) l m0) a u
               = requestedFor m0 a u).
    { clear -Hrest. revert Hrest. induction l as [|c l IHl]; intros Hnd m0 Hnot;
        simpl; [reflexivity|].
      inversion Hnd; subst. rewrite IHl by (simpl in Hnot; tauto).
      rewrite requestedFor_map_concat.
      assert (Hca : String.eqb c a = false).
      { apply String.eqb_neq. intros ->. apply Hnot. now left. }
      rewrite Hca. simpl. lia. }
    destruct (IH (map_concat m b v) a u Hrest) as [Hne Hle].
    rewrite requestedFor_map_concat in Hne, Hle. split.
    + intros Huv. rewrite (Hne Huv).
      apply String.eqb_neq in Huv. rewrite String.eqb_sym in Huv.
      rewrite Huv, andb_false_r. lia.
    + destruct (String.eqb b a) eqn:Hba.
      * apply String.eqb_eq in Hba. subst b.
        rewrite (Hother _ Hfresh), requestedFor_map_concat.
        destruct (String.eqb a a && String.eqb v u); lia.
      * simpl in Hle. lia.
Qed.

Lemma NoDup_to_set (l : list string) : NoDup (to_set l).
Proof.
  induction l as [|a l IH]; simpl; constructor.
  - intros Hin. apply filter_In in Hin. destruct Hin as [_ Hne].
    now rewrite String.eqb_refl in Hne.
  - now apply NoDup_filter.
Qed.

Lemma inRangeStep_requestedFor (H : Host) (w : World) (token : Token)
      (m m' : ApplyMap) (effect : Effect) (a u : string) :
  inRangeStep H w token m effect = Returned m' ->
  (u <> uuid effect -> requestedFor m' a u = requestedFor m a u)
  /\ (requestedFor m' a u <= requestedFor m a u + 1)%nat.
Proof.
  unfold inRangeStep.
  destruct (falsy (distance (system effect))).
  - intros [= <-]. split; [reflexivity|lia].
  - unfold scriptedRange.
    destruct (ofilter _ _) as [ts|err]; cbn [obind]; [|discriminate].
    intros [= <-]. apply requestedFor_fold.
    unfold toAddTo. apply NoDup_filter, NoDup_to_set.
Qed.

Lemma inRangeMap_once (H : Host) (w : World) (token : Token)
      (effs : list Effect) (m : ApplyMap) :
  NoDup (map uuid effs) ->
  inRangeMap H w token effs = Returned m ->
  forall a u, (requestedFor m a u <= 1)%nat.
Proof.
  unfold inRangeMap. intros Hnd.
  assert (Hgen : forall m0 m',
             (forall a u, requestedFor m0 a u <= 1)%nat ->
             (forall a u, In u (map uuid effs) -> requestedFor m0 a u = 0%nat) ->
             ofold (inRangeStep H w token) effs m0 = Returned m' ->
             forall a u, (requestedFor m' a u <= 1)%nat).
  { induction effs as [|e effs IH]; intros m0 m' Hle Hzero; cbn [ofold].
    - now intros [= <-].
    - destruct (inRangeStep H w token m0 e) as [m1|err] eqn:H1; cbn [obind];
        [|discriminate].
      simpl in Hnd. inversion Hnd as [|? ? Hfresh Hrest]; subst.
      apply IH; [exact Hrest| |].
      + intros a u.
        destruct (inRangeStep_requestedFor H w token m0 m1 e a u H1)
          as [Hne Hone].
        destruct (string_dec u (uuid e)) as [->|Hu].
        * rewrite (Hzero a (uuid e)) in Hone; [exact Hone|now left].
        * rewrite (Hne Hu). apply Hle.
      + intros a u Hu.
        destruct (inRangeStep_requestedFor H w token m0 m1 e a u H1)
          as [Hne _].
        rewrite Hne.
        * apply Hzero. now right.
        * intros ->. contradiction. }
  apply Hgen.
  - intros a u. unfold requestedFor. simpl. lia.
  - intros a u _. reflexivity.
Qed.

(** X18. When the active auras of the created token's actor have distinct
    uuids, a request of [createToken] names no source effect twice for the
    same actor, however many tokens of that actor are in range. *)
Theorem createToken_requests_once
        (H : Host) (GM : Authority) (token : Token) (userId : string)
        (s : St) (m : ApplyMap) :
  NoDup (map uuid (fst (getAllAuraEffects (token_actor (world s) token)))) ->
  In m (handlerApplies (trace (snd (createToken H GM token userId s)))) ->
  In m (handlerApplies (trace s))
  \/ forall a u, (requestedFor m a u <= 1)%nat.
Proof.
  intros Hnd.
  unfold createToken. unfold bind at 1. unfold getWorld. cbn [fst snd].
  destruct (negb (currentUser (world s) =? userId)); [now left|].
  destruct (activeGM (world s)) eqn:Hgm;
    [|rewrite noActiveGM_applies; now left].
  destruct (token_actor (world s) token) as [actor|] eqn:Hactor; [|now left].
  destruct (getAllAuraEffects (Some actor)) as [act inact] eqn:Hall.
  unfold bind, lift.
  destruct (inRangeMap H (world s) token act) as [m0|err] eqn:Hmap;
    cbn [fst snd]; [|now left].
  destruct (isEmpty m0); cbn [negb]; [now left|].
  unfold queryApply. rewrite Hgm. cbn [fst snd trace].
  intros Hin. apply handlerApplies_snoc in Hin.
  destruct Hin as [Hin| ->]; [now left|right].
  apply (inRangeMap_once H (world s) token act); [|exact Hmap].
  exact Hnd.
Qed.

Lemma createToken_requests_once_witness :
  (requestedFor [("Actor.b", ["Actor.a.ActiveEffect.bless"])]
                "Actor.b" "Actor.a.ActiveEffect.bless" <= 1)%nat.
Proof.
  destruct (createToken_requests_once
              (Demo.host true) specAuthority Demo.tokNew "user1"
              (Demo.start (Demo.scriptWorld None))
              [("Actor.b", ["Actor.a.ActiveEffect.bless"])])
    as [Hold|Hnew].
  - simpl. repeat constructor. simpl. tauto.
  - vm_compute. left. reflexivity.
  - destruct Hold.
  - apply Hnew.
Defined.

(* ------------------------------------------------------------------ *)
(** ** How many deletions a movement costs *)

Lemma adds_ret {A} (a : A) : adds 0 0 (ret a).
Proof. intros s b _. simpl. lia. Qed.

Lemma adds_lift {A} (o : Outcome A) : adds 0 0 (lift o).
Proof. intros s b _. simpl. lia. Qed.

Lemma adds_getWorld : adds 0 0 getWorld.
Proof. intros s b _. simpl. lia. Qed.

Lemma adds_queryApply (GM : Authority) (by_ : Issuer) (m : ApplyMap) :
  adds 0 0 (queryApply GM by_ m).
Proof.
  intros s b _.
  pose proof (still_queryApply (trace s) GM by_ m s eq_refl) as Hstill.
  unfold sameDeletions in Hstill. rewrite Hstill. lia.
Qed.

Lemma adds_weaken {A} (lo hi lo' hi' : nat) (m : M A) :
  (lo' <= lo)%nat -> (hi <= hi')%nat -> adds lo hi m -> adds lo' hi' m.
Proof.
  intros Hlo Hhi Hm s a Hrun. specialize (Hm s a Hrun). lia.
Qed.

Lemma adds_bind {A B} (lo1 hi1 lo2 hi2 : nat) (m : M A) (f : A -> M B) :
  adds lo1 hi1 m -> (forall a, adds lo2 hi2 (f a)) ->
  adds (lo1 + lo2) (hi1 + hi2) (bind m f).
Proof.
  intros Hm Hf s b Hrun.
  destruct (bind_returned m f s b Hrun) as (a & Ha & Heq).
  rewrite Heq in Hrun |- *.
  specialize (Hm s a Ha). specialize (Hf a (snd (m s)) b Hrun). lia.
Qed.

Lemma adds_removeAndReplaceAuras (H : Host) (GM : Authority)
      (l : list Effect) :
  adds 1 1 (removeAndReplaceAuras H GM l).
Proof.
  intros s [] Hrun.
  rewrite (removeAndReplaceAuras_one_deletion H GM l s Hrun).
  rewrite length_app. simpl. lia.
Qed.

Section MovementCost.

Variable H : Host.
Variable GM : Authority.

Lemma adds_moveStep (token : Token) (ranges : list (string * list string))
      (inactiveUuids : list string) (m : ApplyMap) (effect : Effect) :
  adds (List.length (withRadius [effect])) (List.length (withRadius [effect]))
       (moveStep H GM token ranges inactiveUuids m effect).
Proof.
  unfold moveStep, withRadius. cbn [filter].
  destruct (falsy (distance (system effect))); cbn [negb List.length].
  - apply adds_ret.
  - apply (adds_bind 0 0 1 1); [apply adds_getWorld|]. intros w.
    apply (adds_bind 0 0 1 1); [apply adds_lift|]. intros post.
    apply (adds_bind 1 1 0 0); [apply adds_removeAndReplaceAuras|].
    intros _. destruct (isFinalMovementComplete token).
    + apply (adds_bind 0 0 0 0); [apply adds_getWorld|]. intros w'.
      apply adds_ret.
    + apply adds_ret.
Qed.

Lemma adds_moveSteps (token : Token) (ranges : list (string * list string))
      (inactiveUuids : list string) (effs : list Effect) :
  forall m,
    adds (List.length (withRadius effs)) (List.length (withRadius effs))
         (mfold (moveStep H GM token ranges inactiveUuids) effs m).
Proof.
  induction effs as [|e effs IH]; intros m; cbn [mfold].
  - apply adds_ret.
  - assert (Hlen : List.length (withRadius (e :: effs))
                   = (List.length (withRadius [e])
                      + List.length (withRadius effs))%nat).
    { unfold withRadius. cbn [filter].
      now destruct (negb (falsy (distance (system e)))). }
    rewrite Hlen. apply adds_bind; [apply adds_moveStep|exact IH].
Qed.

End MovementCost.

(** X28. On every leg of a movement that [moveToken] handles to its end, it
    sends one deletion for each active aura with a radius of the moving
    token's actor, whether or not any token left the aura's range, and at most
    one more, for the removals of the scene delta. *)
Theorem moveToken_deletes_per_aura
        (H Hpre : Host) (GM : Authority) (token : Token)
        (movement_origin : option Position) (user : string) (s : St)
        (actor : Actor) (gm : string) :
  currentUser (world s) = user ->
  activeGM (world s) = Some gm ->
  token_actor (world s) token = Some actor ->
  fst (moveToken H Hpre GM token movement_origin user s) = Returned tt ->
  let sent :=
    List.length
      (deletions (trace (snd (moveToken H Hpre GM token movement_origin
                                        user s)))) in
  let auras :=
    List.length (withRadius (fst (getAllAuraEffects (Some actor)))) in
  (List.length (deletions (trace s)) + auras <= sent
   <= List.length (deletions (trace s)) + auras + 1)%nat.
Proof.
  intros Huser Hgm Hactor Hrun sent auras. unfold sent, auras.
  clear sent auras. revert Hrun.
  remember (moveToken H Hpre GM token movement_origin user s) as run eqn:Heq.
  unfold moveToken in Heq. unfold bind at 1 in Heq.
  unfold getWorld at 1 in Heq. cbn [fst snd] in Heq.
  rewrite Huser, String.eqb_refl, Hgm, Hactor in Heq. cbn [negb] in Heq.
  destruct (getAllAuraEffects (Some actor)) as [act inact]. cbn [fst].
  subst run. intros Hrun.
  match type of Hrun with
  | fst (?k s) = _ =>
      assert (Hadds : adds (List.length (withRadius act) + 0)
                           (List.length (withRadius act) + 1) k)
  end.
  { apply adds_bind; [apply adds_moveSteps|]. intros m.
    apply (adds_bind 0 0 0 1).
    - destruct (_ && _); [apply adds_queryApply|apply adds_ret].
    - intros _.
      apply (adds_bind 0 0 0 1); [apply adds_getWorld|]. intros w'.
      apply (adds_bind 0 0 0 1); [apply adds_lift|]. intros [r a].
      apply (adds_bind 0 1 0 0).
      + destruct (negb (isEmpty r)).
        * apply (adds_weaken 1 1); [lia|lia|].
          apply adds_removeAndReplaceAuras.
        * apply (adds_weaken 0 0); [lia|lia|]. apply adds_ret.
      + intros _. destruct (_ && _); [apply adds_queryApply|apply adds_ret]. }
  specialize (Hadds s tt Hrun). lia.
Qed.

Lemma moveToken_deletes_per_aura_witness :
  (List.length (deletions (trace (Demo.start Demo.leaveWorld))) + 1
   <= List.length
        (deletions
           (trace (snd (moveToken (Demo.host true)
                                  (Demo.hostBefore Demo.nearOrigin)
                                  specAuthority Demo.tokLeaver
                                  (Some Demo.nearOrigin) "user1"
                                  (Demo.start Demo.leaveWorld)))))
   <= List.length (deletions (trace (Demo.start Demo.leaveWorld))) + 1 + 1)%nat.
Proof.
  apply (moveToken_deletes_per_aura
           (Demo.host true) (Demo.hostBefore Demo.nearOrigin) specAuthority
           Demo.tokLeaver (Some Demo.nearOrigin) "user1"
           (Demo.start Demo.leaveWorld)
           (mkActor "Actor.m" "Cleric"
                    [Demo.blessNear "Actor.m.ActiveEffect.bless" false] [])
           "gm"); reflexivity.
Defined.
